(** * Truncated power-series recurrences for ODEs

    A shallow embedding of the three generic power-series solvers of
    [dev/verification/sympy_crosscheck_all.py]:

    - [series_first_order]  for  y' = F(x, y),
    - [series_nth_order]    for  y^(m) = G(x, y, y', ..., y^(m-1)),
    - [series_system_2x2]   for  f' = F(x, f, g), g' = G(x, f, g).

    The symbolic layer (SymPy) is modelled on its polynomial fragment:
    exact rational constants ([Q], kept in lowest terms by [Qred], as
    SymPy's [Rational] is), the symbol [x], the unknown-function atoms,
    sums, products and natural powers.  A polynomial in one variable is
    its list of coefficients, lowest degree first.  The expansion point
    and the initial values are rationals; truncation orders and
    derivative orders are naturals.  A call of a scalar solver whose
    right-hand side mentions a derivative of the unknown that the
    dictionary does not replace leaves this fragment: the model marks
    its outcome and says nothing further about it.  The exact-solve
    path ([series_from_exact]) and the report are outside this
    development. *)

From Stdlib Require Import Ascii ZArith QArith Qreduction Qfield Lia.
From stdpp Require Import base option list strings gmap fin_maps.

(** * Part I: the model *)

(** ** Polynomials in one variable over the rationals *)

Module Poly.

Abbreviation Poly := (list Q).

(** Coefficient of [t^n]; absent terms have coefficient zero
    ([Expr.coeff(t, n)]). *)
Definition coeff (p : Poly) (n : nat) : Q := default 0%Q (p !! n).

Fixpoint padd (p q : Poly) : Poly :=
  match p, q with
  | [], _ => q
  | _, [] => p
  | a :: p', b :: q' => (a + b)%Q :: padd p' q'
  end.

Definition pscale (c : Q) (p : Poly) : Poly := Qmult c <$> p.

Fixpoint pmul (p q : Poly) : Poly :=
  match p with
  | [] => []
  | a :: p' => padd (pscale a q) (0%Q :: pmul p' q)
  end.

Fixpoint ppow (p : Poly) (n : nat) : Poly :=
  match n with
  | O => [1%Q]
  | S n' => pmul p (ppow p n')
  end.

(** [sp.diff(p, t)]: the coefficient of [t^i] becomes [(i+1) * p_{i+1}]. *)
Definition diff1 (p : Poly) : Poly :=
  imap (λ i c, (inject_Z (Z.of_nat (S i)) * c)%Q) (tail p).

(** [sp.diff(p, t, k)]. *)
Definition diff (p : Poly) (k : nat) : Poly := Nat.iter k diff1 p.

(** [p.subs(t, q)]: composition, by Horner's rule. *)
Definition compose (p q : Poly) : Poly :=
  foldr (λ c acc, padd [c] (pmul q acc)) [] p.

(** Canonical form of an expanded polynomial: no trailing zero
    coefficient. *)
Fixpoint strip (p : Poly) : Poly :=
  match p with
  | [] => []
  | c :: p' =>
      match strip p' with
      | [] => if Qeq_bool c 0 then [] else [c]
      | r => c :: r
      end
  end.

(** [sp.expand]: every coefficient in lowest terms, zero terms dropped. *)
Definition expand (p : Poly) : Poly := strip (Qred <$> p).

(** [sp.series(p, t, 0, k).removeO()]: the terms of degree below [k]. *)
Definition series_removeO (p : Poly) (k : nat) : Poly := take k p.

(** Value of the polynomial at a point. *)
Definition peval (p : Poly) (v : Q) : Q :=
  foldr (λ c acc, (c + v * acc)%Q) 0%Q p.

End Poly.
Import Poly.

(** [sp.sympify] and [sp.simplify] on an exact rational: lowest terms. *)
Definition sympify (c : Q) : Q := Qred c.
Definition simplify (c : Q) : Q := Qred c.

(** [sp.factorial(n)] as an exact rational. *)
Definition factorial (n : nat) : Q := inject_Z (Z.of_nat (fact n)).

(** ** Right-hand sides *)

(** The right-hand side of an equation, over a type [A] of
    unknown-function atoms. *)
Inductive Expr (A : Type) : Type :=
| Num (c : Q)
| X
| Atom (a : A)
| Add (e1 e2 : Expr A)
| Mul (e1 e2 : Expr A)
| Pow (e : Expr A) (n : nat).
Arguments Num {A} c.
Arguments X {A}.
Arguments Atom {A} a.
Arguments Add {A} e1 e2.
Arguments Mul {A} e1 e2.
Arguments Pow {A} e n.

(** [e.subs(...)] with [x] replaced by [on_x] and every atom [a] by
    [on_atom a]; the replacements are polynomials in [t] with rational
    coefficients, so SymPy's sequential substitution coincides with the
    simultaneous one. *)
Fixpoint subs {A} (on_x : Poly) (on_atom : A → Poly) (e : Expr A) : Poly :=
  match e with
  | Num c => [c]
  | X => on_x
  | Atom a => on_atom a
  | Add e1 e2 => padd (subs on_x on_atom e1) (subs on_x on_atom e2)
  | Mul e1 e2 => pmul (subs on_x on_atom e1) (subs on_x on_atom e2)
  | Pow e n => ppow (subs on_x on_atom e) n
  end.

(** Atoms of a scalar equation: the bare symbol [Symbol("y")], and
    [Function("y")(x).diff(x, k)], which for [k = 0] is the applied
    function [y(x)] itself. *)
Inductive yatom : Type :=
| SymY
| Dy (k : nat).

(** Atoms of a 2x2 system: [Function("f")(x)] and [Function("g")(x)]. *)
Inductive fgatom : Type :=
| FnF
| FnG.

(** The substitution dictionary of the scalar solvers: the entries for
    [x] and for [Symbol("y")], and the entries keyed by
    [y(x).diff(x, k)], indexed by [k]. *)
Record SubsMap : Type := mkSubsMap {
  sm_x : Poly;
  sm_sym : Poly;
  sm_der : gmap nat Poly
}.

(** Writing [subs_map[y(x).diff(x, k)] = p]. *)
Definition sm_set (k : nat) (p : Poly) (s : SubsMap) : SubsMap :=
  mkSubsMap (sm_x s) (sm_sym s) (<[k := p]> (sm_der s)).

(** The exceptions a call lets through. *)
Inductive failure : Type :=
| ValueError
| IndexError
| SympifyError.

(** How a call ends.  The model follows a call as long as the
    substituted right-hand side is a polynomial in [t].  When the
    right-hand side mentions a derivative of the unknown that is no key
    of the dictionary, [subs] leaves that derivative unevaluated and the
    call goes on to [sp.series] with an expression that is no
    polynomial; what SymPy makes of it is not followed here, and the
    call ends [NotModelled]: the model then says nothing about it. *)
Inductive outcome (A : Type) : Type :=
| Returned (a : A)
| Raised (e : failure)
| NotModelled.
Arguments Returned {A} a.
Arguments Raised {A} e.
Arguments NotModelled {A}.

#[global] Instance outcome_bind : MBind outcome := λ A B f o,
  match o with
  | Returned a => f a
  | Raised e => Raised e
  | NotModelled => NotModelled
  end.

(** The entry of the dictionary that replaces an atom.  A derivative
    [y(x).diff(x, k)] that is not a key has none. *)
Definition subs_atom (s : SubsMap) (a : yatom) : option Poly :=
  match a with
  | SymY => Some (sm_sym s)
  | Dy k => sm_der s !! k
  end.

Definition or_zero (o : option Q) : Q := default 0%Q o.

(** [e.subs(...)] when some atoms may have no replacement: the
    polynomial, if every atom of [e] has one. *)
Fixpoint subs_opt {A} (on_x : Poly) (on_atom : A → option Poly)
    (e : Expr A) : option Poly :=
  match e with
  | Num c => Some [c]
  | X => Some on_x
  | Atom a => on_atom a
  | Add e1 e2 =>
      p ← subs_opt on_x on_atom e1; q ← subs_opt on_x on_atom e2;
      Some (padd p q)
  | Mul e1 e2 =>
      p ← subs_opt on_x on_atom e1; q ← subs_opt on_x on_atom e2;
      Some (pmul p q)
  | Pow e1 n => p ← subs_opt on_x on_atom e1; Some (ppow p n)
  end.

(** [G.subs(subs_map)] for a scalar right-hand side, when it is a
    polynomial in [t]: when every unknown that [G] mentions is a key. *)
Definition subs_with (s : SubsMap) (G : Expr yatom) : option Poly :=
  subs_opt (sm_x s) (subs_atom s) G.

(** ** First-order solver *)

(** One pass of the loop body, for the index [n]. *)
Definition first_order_step (F : Expr yatom) (x0 : Q)
    (a : list (option Q)) (n : nat) : outcome (list (option Q)) :=
  let Yn := or_zero <$> take (n + 1) a in
  match subs_with (mkSubsMap [x0; 1%Q] Yn {[ 0 := Yn ]}) F with
  | None => NotModelled
  | Some p =>
      let F_sub := expand p in
      let F_ser := series_removeO F_sub (n + 1) in
      let c_n := coeff (expand F_ser) n in
      Returned
        (<[n + 1 := Some (simplify (c_n / inject_Z (Z.of_nat (n + 1))))]> a)
  end.

(** The list [a] when the loop has ended: the coefficients of the
    series in powers of [x - x0]. *)
Definition first_order_coeffs (F : Expr yatom) (y0 : Q) (order : nat)
    (x0 : Q) : outcome (list (option Q)) :=
  let a := <[0 := Some (sympify y0)]> (replicate (order + 1) None) in
  foldl (λ acc n, a ← acc; first_order_step F x0 a n) (Returned a)
        (seq 0 order).

Definition series_first_order (F : Expr yatom) (y0 : Q) (order : nat)
    (x0 : Q) : outcome Poly :=
  a ← first_order_coeffs F y0 order x0;
  let poly_t := or_zero <$> take (order + 1) a in
  Returned (expand (compose poly_t [(- x0)%Q; 1%Q])).

(** ** m-th-order solver *)

(** [a[k] = sp.sympify(val)] for every item of [ics]; an index outside
    the list raises [IndexError], here [None]. *)
Definition nth_order_init (ics : gmap nat Q) (order : nat)
    : option (list Q) :=
  map_fold
    (λ k val acc,
       a ← acc;
       if decide (k < length a) then Some (<[k := sympify val]> a)
       else None)
    (Some (replicate (order + 1) 0%Q)) ics.

(** The helper [Y_upto(K)]; [K] can be [-1]. *)
Definition Y_upto (a : list Q) (order : nat) (K : Z) : Poly :=
  take (Z.to_nat (Z.min K (Z.of_nat order) + 1)) a.

(** The dictionary of one pass: [x], [y(x)] and [Symbol("y")], then the
    keys [y(x).diff(x, k - 1)] for [k] in [range(1, m)]. *)
Definition nth_order_subs_map (m : nat) (x0 : Q) (Y : Poly) : SubsMap :=
  let derivs := diff Y <$> seq 0 m in
  foldl (λ s k, sm_set (k - 1) (derivs !!! (k - 1)) s)
        (mkSubsMap [x0; 1%Q] Y {[ 0 := Y ]})
        (seq 1 (m - 1)).

Definition nth_order_step (m : nat) (G : Expr yatom) (order : nat)
    (x0 : Q) (a : list Q) (n : nat) : outcome (list Q) :=
  let Y := Y_upto a order (Z.of_nat n + Z.of_nat m - 1) in
  let subs_map := nth_order_subs_map m x0 Y in
  match subs_with subs_map G with
  | None => NotModelled
  | Some p =>
      let G_sub := expand p in
      let G_ser := series_removeO G_sub (n + 1) in
      let c_n := coeff (expand G_ser) n in
      let factor := (factorial (n + m) / factorial n)%Q in
      Returned (<[n + m := simplify (c_n / factor)]> a)
  end.

Definition nth_order_coeffs (m : nat) (G : Expr yatom) (ics : gmap nat Q)
    (order : nat) (x0 : Q) : outcome (list Q) :=
  match nth_order_init ics order with
  | None => Raised IndexError
  | Some a =>
      foldl (λ acc n, a ← acc; nth_order_step m G order x0 a n)
            (Returned a) (seq 0 (order + 1 - m))
  end.

Definition series_nth_order (m : nat) (G : Expr yatom) (ics : gmap nat Q)
    (order : nat) (x0 : Q) : outcome Poly :=
  a ← nth_order_coeffs m G ics order x0;
  let poly_t := take (order + 1) a in
  Returned (expand (compose poly_t [(- x0)%Q; 1%Q])).

(** ** 2x2 system solver *)

Definition system_subs (x0 : Q) (Fn Gn : Poly) (E : Expr fgatom) : Poly :=
  subs [x0; 1%Q] (λ u, match u with FnF => Fn | FnG => Gn end) E.

Definition system_step (F G : Expr fgatom) (x0 : Q)
    (s : list (option Q) * list (option Q)) (n : nat)
    : list (option Q) * list (option Q) :=
  let '(af, ag) := s in
  let Fn := or_zero <$> take (n + 1) af in
  let Gn := or_zero <$> take (n + 1) ag in
  let F_sub := expand (system_subs x0 Fn Gn F) in
  let G_sub := expand (system_subs x0 Fn Gn G) in
  let F_ser := series_removeO F_sub (n + 1) in
  let G_ser := series_removeO G_sub (n + 1) in
  let cF := coeff (expand F_ser) n in
  let cG := coeff (expand G_ser) n in
  (<[n + 1 := Some (simplify (cF / inject_Z (Z.of_nat (n + 1))))]> af,
   <[n + 1 := Some (simplify (cG / inject_Z (Z.of_nat (n + 1))))]> ag).

Definition system_coeffs (F G : Expr fgatom) (f0 g0 : Q) (order : nat)
    (x0 : Q) : list (option Q) * list (option Q) :=
  let af := <[0 := Some (sympify f0)]> (replicate (order + 1) None) in
  let ag := <[0 := Some (sympify g0)]> (replicate (order + 1) None) in
  foldl (system_step F G x0) (af, ag) (seq 0 order).

Definition series_system_2x2 (F G : Expr fgatom) (f0 g0 : Q) (order : nat)
    (x0 : Q) : Poly * Poly :=
  let '(af, ag) := system_coeffs F G f0 g0 order x0 in
  let poly_f := or_zero <$> take (order + 1) af in
  let poly_g := or_zero <$> take (order + 1) ag in
  (expand (compose poly_f [(- x0)%Q; 1%Q]),
   expand (compose poly_g [(- x0)%Q; 1%Q])).

(** ** Definitions used by the statements and their proofs *)

(** The loop shape shared by the solvers, as a causal recurrence on a
    list: pass [n] writes the entry [n + m] from the entries below it. *)
Definition rec_step {T} (m : nat) (g : nat → list T → T)
    (a : list T) (n : nat) : list T :=
  <[n + m := g n (take (n + m) a)]> a.

Definition rec_run {T} (m : nat) (g : nat → list T → T)
    (a : list T) (cnt : nat) : list T :=
  foldl (rec_step m g) a (seq 0 cnt).

(** Every derivative of the unknown that the right-hand side mentions
    is a key of the dictionary of the m-th-order solver: [y(x)] itself
    or a derivative of order below [m - 1].  With [m = 1] these are the
    keys of the first-order solver: [y(x)] only. *)
Fixpoint keyed (m : nat) (e : Expr yatom) : bool :=
  match e with
  | Num _ | X => true
  | Atom SymY => true
  | Atom (Dy k) => bool_decide (k = 0 ∨ k + 1 < m)
  | Add e1 e2 | Mul e1 e2 => keyed m e1 && keyed m e2
  | Pow e1 _ => keyed m e1
  end.

(** The partial series [Y] for the unknown and its derivatives for the
    derivatives of the unknown. *)
Definition y_derivs (Y : Poly) (a : yatom) : Poly :=
  match a with
  | SymY => Y
  | Dy k => diff Y k
  end.

(** The right-hand side with [x0 + t] for [x] and [Y] for the unknown:
    what the dictionaries of the solvers make of a right-hand side all
    of whose unknowns are keys. *)
Definition subs_series (x0 : Q) (Y : Poly) (G : Expr yatom) : Poly :=
  subs [x0; 1%Q] (y_derivs Y) G.

(** What pass [n] of the first-order loop writes, from the entries
    [pre] below [n + 1]. *)
Definition first_order_next (F : Expr yatom) (x0 : Q)
    (n : nat) (pre : list (option Q)) : option Q :=
  let Yn := or_zero <$> pre in
  let F_sub := expand (subs_series x0 Yn F) in
  Some (simplify (coeff (expand (series_removeO F_sub (n + 1))) n
                  / inject_Z (Z.of_nat (n + 1)))).

Definition first_order_start (y0 : Q) (N : nat) : list (option Q) :=
  <[0 := Some (sympify y0)]> (replicate (N + 1) None).

(** The list of the first-order loop as a causal recurrence, and the
    expression made of it. *)
Definition first_order_run (F : Expr yatom) (y0 : Q) (N : nat) (x0 : Q)
    : list (option Q) :=
  rec_run 1 (first_order_next F x0) (first_order_start y0 N) N.

Definition first_order_poly (F : Expr yatom) (y0 : Q) (N : nat) (x0 : Q)
    : Poly :=
  expand (compose (or_zero <$> take (N + 1) (first_order_run F y0 N x0))
            [(- x0)%Q; 1%Q]).

(** The list the m-th-order initialisation produces when no key is out
    of range. *)
Definition ics_list (ics : gmap nat Q) (order : nat) : list Q :=
  (λ i, default 0%Q (sympify <$> ics !! i)) <$> seq 0 (order + 1).

(** Every supplied derivative order is an index of the list. *)
Definition keys_within (order : nat) (ics : gmap nat Q) : Prop :=
  map_Forall (λ k _, k ≤ order) ics.

(** What pass [n] of the m-th-order loop writes, from the entries [Y]
    below [n + m]. *)
Definition nth_order_next (m : nat) (G : Expr yatom) (x0 : Q)
    (n : nat) (Y : list Q) : Q :=
  let G_sub := expand (subs_series x0 Y G) in
  simplify (coeff (expand (series_removeO G_sub (n + 1))) n
            / (factorial (n + m) / factorial n)).

(** The list of the m-th-order loop as a causal recurrence, when the
    initialisation does not fail, and the expression made of it. *)
Definition nth_order_run (m : nat) (G : Expr yatom) (ics : gmap nat Q)
    (N : nat) (x0 : Q) : option (list Q) :=
  if decide (keys_within N ics)
  then Some (rec_run m (nth_order_next m G x0) (ics_list ics N) (N + 1 - m))
  else None.

Definition nth_order_poly (m : nat) (G : Expr yatom) (ics : gmap nat Q)
    (N : nat) (x0 : Q) : option Poly :=
  a ← nth_order_run m G ics N x0;
  Some (expand (compose (take (N + 1) a) [(- x0)%Q; 1%Q])).

(** What pass [n] of the system loop writes for one equation. *)
Definition system_next_of (x0 : Q) (E : Expr fgatom) (n : nat)
    (pf pg : list (option Q)) : option Q :=
  let Fn := or_zero <$> pf in
  let Gn := or_zero <$> pg in
  let E_sub := expand (system_subs x0 Fn Gn E) in
  Some (simplify (coeff (expand (series_removeO E_sub (n + 1))) n
                  / inject_Z (Z.of_nat (n + 1)))).

(** The two lists of the system loop, read as one list of pairs. *)
Definition system_next (F G : Expr fgatom) (x0 : Q) (n : nat)
    (pre : list (option Q * option Q)) : option Q * option Q :=
  (system_next_of x0 F n (fst <$> pre) (snd <$> pre),
   system_next_of x0 G n (fst <$> pre) (snd <$> pre)).

Definition system_start (f0 g0 : Q) (N : nat)
    : list (option Q * option Q) :=
  <[0 := (Some (sympify f0), Some (sympify g0))]>
    (replicate (N + 1) (None, None)).

(** The same right-hand side with every bare [y] written [y(x)], and
    with every [y(x)] written as the bare [y]. *)
Fixpoint bare_to_applied (e : Expr yatom) : Expr yatom :=
  match e with
  | Atom SymY => Atom (Dy 0)
  | Add e1 e2 => Add (bare_to_applied e1) (bare_to_applied e2)
  | Mul e1 e2 => Mul (bare_to_applied e1) (bare_to_applied e2)
  | Pow e1 n => Pow (bare_to_applied e1) n
  | _ => e
  end.

Fixpoint applied_to_bare (e : Expr yatom) : Expr yatom :=
  match e with
  | Atom (Dy 0) => Atom SymY
  | Add e1 e2 => Add (applied_to_bare e1) (applied_to_bare e2)
  | Mul e1 e2 => Mul (applied_to_bare e1) (applied_to_bare e2)
  | Pow e1 n => Pow (applied_to_bare e1) n
  | _ => e
  end.

(** A dictionary that replaces [y(x)] and the bare [y] alike. *)
Definition same_unknown (s : SubsMap) : Prop :=
  sm_der s !! 0 = Some (sm_sym s).

(** Right-hand sides of the test cases. *)
Definition yx : Expr yatom := Atom (Dy 0).
Definition fx : Expr fgatom := Atom FnF.
Definition gx : Expr fgatom := Atom FnG.
Definition neg {A} (e : Expr A) : Expr A := Mul (Num (-1)) e.

(** ** Definitions used by the further properties *)

(** Two polynomials with the same coefficients up to degree [n]. *)
Definition peq_upto (n : nat) (p q : Poly) : Prop :=
  ∀ i, i ≤ n → (coeff p i == coeff q i)%Q.

(** The right-hand side does not mention an unknown. *)
Fixpoint unknown_free {A} (e : Expr A) : bool :=
  match e with
  | Num _ | X => true
  | Atom _ => false
  | Add e1 e2 | Mul e1 e2 => unknown_free e1 && unknown_free e2
  | Pow e1 _ => unknown_free e1
  end.

(** The unknown occurs only as the applied function [y(x)]. *)
Fixpoint applied_only (e : Expr yatom) : bool :=
  match e with
  | Num _ | X => true
  | Atom (Dy 0) => true
  | Atom _ => false
  | Add e1 e2 | Mul e1 e2 => applied_only e1 && applied_only e2
  | Pow e1 _ => applied_only e1
  end.

(** A scalar right-hand side as the first equation of a system: the
    unknown is named [f(x)]. *)
Fixpoint as_f (e : Expr yatom) : Expr fgatom :=
  match e with
  | Num c => Num c
  | X => X
  | Atom _ => Atom FnF
  | Add e1 e2 => Add (as_f e1) (as_f e2)
  | Mul e1 e2 => Mul (as_f e1) (as_f e2)
  | Pow e1 n => Pow (as_f e1) n
  end.

(** ** The comparison and the runners of the cross-check *)

(** [compare_polys]: the difference, expanded, and whether it is the
    zero expression.  ([sp.simplify] does not change the value of an
    expanded polynomial, nor whether it is zero.) *)
Definition compare_polys (got expect : Poly) : bool * Poly :=
  let diff := expand (padd got (pscale (-1) expect)) in
  (match diff with [] => true | _ => false end, diff).

(** The fields of [SystemCase]. *)
Record SystemCase : Type := mkSystemCase {
  sys_label : string;
  sys_F : Expr fgatom;
  sys_G : Expr fgatom;
  sys_x0 : Q;
  sys_f0 : Q;
  sys_g0 : Q;
  sys_order : nat;
  sys_expected_f : option Poly;
  sys_expected_g : option Poly
}.

(** The fields of [ScalarCase]. *)
Record ScalarCase : Type := mkScalarCase {
  sc_label : string;
  sc_ode_type : string;
  sc_F : option (Expr yatom);
  sc_m : option nat;
  sc_G : option (Expr yatom);
  sc_x0 : Q;
  sc_ics_first : option Q;
  sc_ics_nth : option (gmap nat Q);
  sc_order : nat;
  sc_expected : option Poly
}.

(** [run_scalar_case].  [exact] is what [series_from_exact] returned:
    the series of the closed form, or nothing.  A first-order case
    without [F] fails where its equation is built ([sp.Eq] of [None]);
    a missing [ics_first] reaches the recurrence as [None], which
    [sp.sympify] returns unchanged and the solver reads as zero. *)
Definition run_scalar_case (exact : option Poly) (c : ScalarCase)
    : outcome (bool * Poly * option Poly) :=
  let verdict (got : Poly) :=
    match sc_expected c with
    | None => Returned (true, got, None)
    | Some expect =>
        let '(ok, diff) := compare_polys got expect in
        Returned (ok, got, Some diff)
    end in
  if String.eqb (sc_ode_type c) "first" then
    match sc_F c with
    | None => Raised SympifyError
    | Some F =>
        match exact with
        | Some got => verdict got
        | None =>
            got ← series_first_order F (default 0%Q (sc_ics_first c))
                    (sc_order c) (sc_x0 c);
            verdict got
        end
    end
  else
    match sc_m c, sc_G c, sc_ics_nth c with
    | Some m, Some G, Some ics =>
        match exact with
        | Some got => verdict got
        | None =>
            got ← series_nth_order m G ics (sc_order c) (sc_x0 c);
            verdict got
        end
    | _, _, _ => Raised ValueError
    end.

(** [run_system_case].  [exact] is what [series_from_exact] returned: the
    list of the closed forms' series, or nothing. *)
Definition run_system_case (exact : option (list Poly)) (sc : SystemCase)
    : failure + (bool * (Poly * Poly) * (option Poly * option Poly)) :=
  let got :=
    match exact with
    | Some l =>
        match l !! 0, l !! 1 with
        | Some got_f, Some got_g => inr (got_f, got_g)
        | _, _ => inl IndexError
        end
    | None =>
        inr (series_system_2x2 (sys_F sc) (sys_G sc) (sys_f0 sc) (sys_g0 sc)
               (sys_order sc) (sys_x0 sc))
    end in
  match got with
  | inl e => inl e
  | inr (got_f, got_g) =>
      let '(ok_f, diff_f) :=
        match sys_expected_f sc with
        | Some e => let '(ok, d) := compare_polys got_f e in (ok, Some d)
        | None => (true, None)
        end in
      let '(ok_g, diff_g) :=
        match sys_expected_g sc with
        | Some e => let '(ok, d) := compare_polys got_g e in (ok, Some d)
        | None => (true, None)
        end in
      inr (ok_f && ok_g, (got_f, got_g), (diff_f, diff_g))
  end.

(** ** Strings for Maxima *)

(** [s.replace("**", "^")]: left to right, without overlap. *)
Fixpoint replace_pow (s : string) : string :=
  match s with
  | EmptyString => EmptyString
  | String c rest =>
      match rest with
      | String c' rest' =>
          if (Ascii.eqb c "*"%char && Ascii.eqb c' "*"%char)%bool
          then String "^"%char (replace_pow rest')
          else String c (replace_pow rest)
      | EmptyString => String c EmptyString
      end
  end.

(** [format_for_maxima], on the text [str(expr)] of an expression, or on
    [None]. *)
Definition format_for_maxima (expr : option string) : string :=
  match expr with
  | None => "UNKNOWN"
  | Some s => replace_pow s
  end.

(** [poly_to_maxima_str], on the text of the simplified, expanded
    expression. *)
Definition poly_to_maxima_str (s : string) : string := replace_pow s.

(** ["**" in s]. *)
Fixpoint has_pow (s : string) : bool :=
  match s with
  | EmptyString => false
  | String c rest =>
      match rest with
      | String c' _ =>
          (Ascii.eqb c "*"%char && Ascii.eqb c' "*"%char) || has_pow rest
      | EmptyString => false
      end
  end.

Definition first_is_star (s : string) : bool :=
  match s with
  | String c _ => Ascii.eqb c "*"%char
  | EmptyString => false
  end.

(** ** The legacy routine [compute_derivatives_manually] *)

(** The unknown of a right-hand side [f(x, y)] of the routine: [y(x)] in
    [ode_rhs], the symbol [y_var] once the first line has renamed it.
    The routine is modelled on right-hand sides in [x] and this one
    unknown. *)
Inductive yvar : Type := y_var.

(** The symbols the routine differentiates by. *)
Inductive symbol : Type := sym_x | sym_y.

(** [sp.diff(e, v)] on the polynomial fragment.  SymPy returns some
    expression for the partial derivative; the routine only evaluates
    it and differentiates it again, so it is modelled by the sum,
    product and power rules. *)
Fixpoint sp_diff (e : Expr yvar) (v : symbol) : Expr yvar :=
  match e with
  | Num _ => Num 0
  | X => Num (match v with sym_x => 1 | sym_y => 0 end)
  | Atom _ => Num (match v with sym_x => 0 | sym_y => 1 end)
  | Add e1 e2 => Add (sp_diff e1 v) (sp_diff e2 v)
  | Mul e1 e2 => Add (Mul (sp_diff e1 v) e2) (Mul e1 (sp_diff e2 v))
  | Pow e1 n =>
      match n with
      | O => Num 0
      | S n' =>
          Mul (Mul (Num (inject_Z (Z.of_nat n))) (Pow e1 n')) (sp_diff e1 v)
      end
  end.

(** [e.subs([(x, vx), (y_var, vy)])]: a number. *)
Definition subs_at (e : Expr yvar) (vx vy : Q) : Q :=
  Qred (coeff (subs [vx] (λ _, [vy]) e) 0).

(** The dictionary [ic_values]: the entry under the string ["y"] and
    the entries under integer keys. *)
Record IcValues : Type := mkIcValues {
  ic_y : option Q;
  ic_int : gmap nat Q
}.

(** One pass of the loop [for k in range(2, order + 1)], on the pair of
    [current_f] and the dictionary [derivatives], whose keys are
    [0 .. k-1], as a list. *)
Definition manual_step (ic_values : IcValues) (d0 d1 : Q)
    (st : Expr yvar * list Q) (k : nat) : Expr yvar * list Q :=
  let '(current_f, derivatives) := st in
  match ic_int ic_values !! k with
  | Some v => (current_f, derivatives ++ [v])
  | None =>
      let df_dx := sp_diff current_f sym_x in
      let df_dy := sp_diff current_f sym_y in
      let next_f := Add df_dx (Mul df_dy (Num d1)) in
      (next_f, derivatives ++ [subs_at next_f 0 d0])
  end.

Definition manual_derivatives (ode_rhs : Expr yvar) (ic_values : IcValues)
    (order : nat) : list Q :=
  let f := ode_rhs in
  let d0 := default 0%Q (ic_y ic_values) in
  let d1 :=
    match ic_int ic_values !! 1%nat with
    | None => subs_at f 0 d0
    | Some v => v
    end in
  (foldl (manual_step ic_values d0 d1) (f, [d0; d1]) (seq 2 (order - 1))).2.

(** [compute_derivatives_manually]: the expanded polynomial
    [sum(derivatives[k] * x**k / factorial(k))] and the dictionary. *)
Definition compute_derivatives_manually (ode_rhs : Expr yvar)
    (ic_values : IcValues) (order : nat) : Poly * list Q :=
  let derivatives := manual_derivatives ode_rhs ic_values order in
  let polynomial :=
    (λ k, (default 0 (derivatives !! k) / factorial k)%Q)
      <$> seq 0 (order + 1) in
  (expand polynomial, derivatives).

(** The right-hand side as the solvers take it, with [y(x)] for the
    unknown. *)
Fixpoint as_applied (e : Expr yvar) : Expr yatom :=
  match e with
  | Num c => Num c
  | X => X
  | Atom _ => Atom (Dy 0)
  | Add e1 e2 => Add (as_applied e1) (as_applied e2)
  | Mul e1 e2 => Mul (as_applied e1) (as_applied e2)
  | Pow e1 n => Pow (as_applied e1) n
  end.

(** All coefficients agree. *)
Definition peq (p q : Poly) : Prop := ∀ n, (coeff p n == coeff q n)%Q.

(** The right-hand side does not mention [x]: an autonomous equation. *)
Fixpoint x_free {A} (e : Expr A) : bool :=
  match e with
  | Num _ | Atom _ => true
  | X => false
  | Add e1 e2 | Mul e1 e2 => x_free e1 && x_free e2
  | Pow e1 _ => x_free e1
  end.

(** [c^n]. *)
Fixpoint qpow (c : Q) (n : nat) : Q :=
  match n with
  | O => 1%Q
  | S n' => (c * qpow c n')%Q
  end.

(** How many of the passes [2 .. k] of the legacy routine found no
    value under their key, and differentiated. *)
Definition unsupplied (ic_values : IcValues) (k : nat) : nat :=
  length (filter (λ j, ic_int ic_values !! j = None) (seq 2 (k - 1))).

(** * Part II: lemmas *)

(** ** Coefficients survive normalisation and truncation *)

Section Coefficients.
Implicit Types (p q : Poly) (n k : nat) (c : Q).
Local Open Scope Q_scope.

Lemma coeff_nil n : coeff [] n = 0.
Proof. unfold coeff. by rewrite lookup_nil. Qed.

Lemma coeff_cons_0 c p : coeff (c :: p) 0 = c.
Proof. reflexivity. Qed.

Lemma coeff_cons_S c p n : coeff (c :: p) (S n) = coeff p n.
Proof. reflexivity. Qed.

Lemma coeff_take p n k : (n < k)%nat → coeff (take k p) n = coeff p n.
Proof. intros Hn. unfold coeff. by rewrite lookup_take_lt. Qed.

Lemma coeff_Qred p n : coeff (Qred <$> p) n == coeff p n.
Proof.
  unfold coeff. rewrite list_lookup_fmap.
  destruct (p !! n); simpl; [apply Qred_correct | reflexivity].
Qed.

Lemma coeff_strip p n : coeff (strip p) n == coeff p n.
Proof.
  revert n. induction p as [|c p IH]; intros n; [reflexivity|].
  simpl. destruct (strip p) as [|d r] eqn:Hs.
  - destruct n as [|n].
    + destruct (Qeq_bool c 0) eqn:Hc; [|reflexivity].
      apply Qeq_bool_eq in Hc. unfold coeff; simpl. by symmetry.
    + rewrite coeff_cons_S, <- IH.
      destruct (Qeq_bool c 0); reflexivity.
  - destruct n as [|n]; [reflexivity|].
    by rewrite !coeff_cons_S.
Qed.

Lemma coeff_expand p n : coeff (expand p) n == coeff p n.
Proof. unfold expand. by rewrite coeff_strip, coeff_Qred. Qed.

(** Truncating to degree [n] before extracting the coefficient of
    [t^n] does not change it. *)
Lemma coeff_truncated p n :
  coeff (expand (series_removeO (expand p) (n + 1))) n == coeff p n.
Proof.
  unfold series_removeO.
  rewrite coeff_expand, coeff_take by lia. apply coeff_expand.
Qed.

Lemma coeff_padd p q n : coeff (padd p q) n == coeff p n + coeff q n.
Proof.
  revert q n. induction p as [|a p IH]; intros [|b q] n; simpl padd.
  - rewrite coeff_nil. ring.
  - rewrite coeff_nil. ring.
  - rewrite coeff_nil. ring.
  - destruct n as [|n]; [rewrite !coeff_cons_0; ring|].
    rewrite !coeff_cons_S. apply IH.
Qed.

Lemma coeff_pscale c p n : coeff (pscale c p) n == c * coeff p n.
Proof.
  unfold pscale, coeff. rewrite list_lookup_fmap.
  destruct (p !! n); simpl; ring.
Qed.

(** Multiplying by [c0 + t] with [c0 = 0] shifts the coefficients. *)
Lemma coeff_pmul_t c0 p n :
  c0 == 0 →
  coeff (pmul [c0; 1] p) n
  == match n with O => 0 | S n' => coeff p n' end.
Proof.
  intros Hc. simpl pmul. rewrite coeff_padd, coeff_pscale, Hc.
  destruct n as [|n]; [rewrite coeff_cons_0; ring|].
  rewrite coeff_cons_S, coeff_padd, coeff_pscale.
  destruct n as [|n]; [rewrite coeff_cons_0; ring|].
  rewrite coeff_cons_S, coeff_nil. ring.
Qed.

Lemma coeff_compose_t c0 p n : c0 == 0 → coeff (compose p [c0; 1]) n == coeff p n.
Proof.
  intros Hc. revert n. induction p as [|a p IH]; intros n; [reflexivity|].
  change (compose (a :: p) [c0; 1])
    with (padd [a] (pmul [c0; 1] (compose p [c0; 1]))).
  rewrite coeff_padd, coeff_pmul_t by done.
  destruct n as [|n].
  - rewrite !coeff_cons_0. ring.
  - rewrite !coeff_cons_S, coeff_nil, IH. ring.
Qed.

(** About the expansion point 0 the returned expression has the
    coefficients of [poly_t]. *)
Lemma coeff_returned_at_0 p n :
  coeff (expand (compose p [- 0; 1])) n == coeff p n.
Proof. rewrite coeff_expand. by apply coeff_compose_t. Qed.

Lemma simplify_Qeq (c c' d d' : Q) :
  c == c' → d == d' → simplify (c / d) = simplify (c' / d').
Proof.
  intros Hc Hd. unfold simplify. apply Qred_complete.
  by rewrite Hc, Hd.
Qed.

Lemma sympify_Qeq c : sympify c == c.
Proof. apply Qred_correct. Qed.

End Coefficients.

(** ** The value of a polynomial *)

Section Evaluation.
Implicit Types (p q : Poly) (v c : Q).
Local Open Scope Q_scope.

Lemma peval_cons c p v : peval (c :: p) v = c + v * peval p v.
Proof. reflexivity. Qed.

Lemma peval_Qeq p v v' : v == v' → peval p v == peval p v'.
Proof.
  intros Hv. induction p as [|c p IH]; [reflexivity|].
  rewrite !peval_cons. by rewrite IH, Hv.
Qed.

Lemma peval_padd p q v : peval (padd p q) v == peval p v + peval q v.
Proof.
  revert q. induction p as [|a p IH]; intros [|b q]; simpl padd.
  - cbn. ring.
  - cbn [peval foldr]. ring.
  - cbn [peval foldr]. ring.
  - rewrite !peval_cons, IH. ring.
Qed.

Lemma peval_pscale c p v : peval (pscale c p) v == c * peval p v.
Proof.
  induction p as [|a p IH]; [cbn; ring|].
  change (pscale c (a :: p)) with ((c * a) :: pscale c p).
  rewrite !peval_cons, IH. ring.
Qed.

Lemma peval_pmul p q v : peval (pmul p q) v == peval p v * peval q v.
Proof.
  induction p as [|a p IH]; [cbn; ring|].
  simpl pmul. rewrite peval_padd, peval_pscale, !peval_cons, IH. ring.
Qed.

Lemma peval_compose p q v : peval (compose p q) v == peval p (peval q v).
Proof.
  induction p as [|a p IH]; [reflexivity|].
  change (compose (a :: p) q) with (padd [a] (pmul q (compose p q))).
  rewrite peval_padd, peval_pmul, IH, !peval_cons. cbn. ring.
Qed.

Lemma peval_Qred p v : peval (Qred <$> p) v == peval p v.
Proof.
  induction p as [|a p IH]; [reflexivity|].
  change (Qred <$> a :: p) with (Qred a :: (Qred <$> p)).
  by rewrite !peval_cons, IH, Qred_correct.
Qed.

Lemma peval_strip p v : peval (strip p) v == peval p v.
Proof.
  induction p as [|a p IH]; [reflexivity|].
  simpl strip. destruct (strip p) as [|d r].
  - rewrite peval_cons, <- IH.
    destruct (Qeq_bool a 0) eqn:Ha.
    + apply Qeq_bool_eq in Ha. rewrite Ha. cbn. ring.
    + cbn. ring.
  - by rewrite !peval_cons, IH.
Qed.

Lemma peval_expand p v : peval (expand p) v == peval p v.
Proof. unfold expand. by rewrite peval_strip, peval_Qred. Qed.

(** The returned expression [expand(poly_t.subs(t, x - x0))] has the
    value of [poly_t] at [t = x - x0]. *)
Lemma peval_shifted p x0 v :
  peval (expand (compose p [- x0; 1])) v == peval p (v - x0).
Proof.
  rewrite peval_expand, peval_compose. apply peval_Qeq. cbn. ring.
Qed.

Lemma peval_at_0 p : peval p 0 == coeff p 0.
Proof. destruct p as [|a p]; [reflexivity|]. cbn. ring. Qed.

Lemma returned_value_at_x0 p x0 c :
  coeff p 0 == c → peval (expand (compose p [- x0; 1])) x0 == c.
Proof.
  intros Hc. rewrite peval_shifted, <- Hc, <- peval_at_0.
  apply peval_Qeq. ring.
Qed.

End Evaluation.

(** ** A causal recurrence on a list *)

Section Recurrence.
Context {T : Type}.
Variable m : nat.
Variable g : nat → list T → T.
Implicit Types (a : list T) (n cnt L : nat).

Lemma rec_run_S a cnt :
  rec_run m g a (S cnt) = rec_step m g (rec_run m g a cnt) cnt.
Proof. unfold rec_run. by rewrite seq_S, foldl_app. Qed.

Lemma rec_run_length a cnt : length (rec_run m g a cnt) = length a.
Proof.
  induction cnt as [|cnt IH]; [done|].
  rewrite rec_run_S. unfold rec_step. by rewrite length_insert.
Qed.

Lemma rec_step_take L a n :
  take L (rec_step m g a n) = rec_step m g (take L a) n.
Proof.
  unfold rec_step. destruct (decide (n + m < L)) as [Hlt|Hge].
  - rewrite take_insert_lt by done. rewrite take_take.
    by replace (min (n + m) L) with (n + m) by lia.
  - rewrite take_insert_ge by lia.
    rewrite (list_insert_ge (take L a)); [done|].
    rewrite length_take. lia.
Qed.

Lemma rec_run_take L a cnt :
  take L (rec_run m g a cnt) = rec_run m g (take L a) cnt.
Proof.
  induction cnt as [|cnt IH]; [done|].
  by rewrite !rec_run_S, rec_step_take, IH.
Qed.

(** Passes that would write beyond the end of the list change nothing. *)
Lemma rec_run_short a cnt cnt' :
  cnt' ≤ cnt → length a ≤ cnt' + m → rec_run m g a cnt = rec_run m g a cnt'.
Proof.
  intros Hle Hlen. induction cnt as [|cnt IH].
  - by replace cnt' with 0 by lia.
  - destruct (decide (cnt' = S cnt)) as [->|Hne]; [done|].
    rewrite rec_run_S, <- IH by lia. unfold rec_step.
    apply list_insert_ge. rewrite rec_run_length. lia.
Qed.

(** A shorter list and fewer passes give a prefix of the result. *)
Lemma rec_run_causal L a cnt cnt' :
  cnt' ≤ cnt → L ≤ cnt' + m →
  take L (rec_run m g a cnt) = rec_run m g (take L a) cnt'.
Proof.
  intros Hle HL. rewrite rec_run_take.
  apply rec_run_short; [done|]. rewrite length_take. lia.
Qed.

(** The entries below [m] are never written. *)
Lemma rec_run_low a cnt i : i < m → rec_run m g a cnt !! i = a !! i.
Proof.
  intros Hi. induction cnt as [|cnt IH]; [done|].
  rewrite rec_run_S. unfold rec_step.
  rewrite list_lookup_insert_ne by lia. done.
Qed.

(** Entry [n + m] of the result is what pass [n] computes from the
    entries of the result below it. *)
Lemma rec_run_lookup a cnt n :
  n < cnt → n + m < length a →
  rec_run m g a cnt !! (n + m)
  = Some (g n (take (n + m) (rec_run m g a cnt))).
Proof.
  intros Hn Hlen. induction cnt as [|cnt IH]; [lia|].
  rewrite rec_run_S. unfold rec_step.
  rewrite take_insert_ge by lia.
  destruct (decide (n = cnt)) as [->|Hne].
  - rewrite list_lookup_insert_eq; [done|]. by rewrite rec_run_length.
  - rewrite list_lookup_insert_ne by lia. apply IH. lia.
Qed.

End Recurrence.

Lemma foldl_ext_in {A B} (f g : A → B → A) (l : list B) (a : A) :
  (∀ a x, x ∈ l → f a x = g a x) → foldl f a l = foldl g a l.
Proof.
  revert a. induction l as [|x l IH]; intros a Hfg; [done|].
  simpl. rewrite Hfg by left. apply IH.
  intros a' y Hy. apply Hfg. by right.
Qed.

Lemma rec_run_fmap {T U} (h : T → U) (m : nat)
    (g : nat → list T → T) (g' : nat → list U → U) (a : list T) (cnt : nat) :
  (∀ n pre, h (g n pre) = g' n (h <$> pre)) →
  h <$> rec_run m g a cnt = rec_run m g' (h <$> a) cnt.
Proof.
  intros Hg. induction cnt as [|cnt IH]; [done|].
  rewrite !rec_run_S, <- IH. unfold rec_step.
  by rewrite list_fmap_insert, Hg, fmap_take.
Qed.

(** ** The first-order loop as a causal recurrence *)

Section FirstOrderFacts.
Variable F : Expr yatom.
Variable x0 : Q.

Lemma first_order_run_rec y0 N :
  first_order_run F y0 N x0
  = rec_run 1 (first_order_next F x0) (first_order_start y0 N) N.
Proof. reflexivity. Qed.

Lemma first_order_start_length y0 N : length (first_order_start y0 N) = N + 1.
Proof. unfold first_order_start. by rewrite length_insert, length_replicate. Qed.

Lemma first_order_start_take y0 N N' :
  N' ≤ N → take (N' + 1) (first_order_start y0 N) = first_order_start y0 N'.
Proof.
  intros Hle. unfold first_order_start.
  rewrite take_insert_lt by lia. rewrite take_replicate.
  by replace (min (N' + 1) (N + 1)) with (N' + 1) by lia.
Qed.

Lemma first_order_run_length y0 N :
  length (first_order_run F y0 N x0) = N + 1.
Proof.
  by rewrite first_order_run_rec, rec_run_length, first_order_start_length.
Qed.

Lemma first_order_run_0 y0 N :
  first_order_run F y0 N x0 !! 0 = Some (Some (sympify y0)).
Proof.
  rewrite first_order_run_rec, rec_run_low by lia.
  unfold first_order_start. apply list_lookup_insert_eq.
  rewrite length_replicate. lia.
Qed.

Lemma first_order_run_next y0 N n :
  n < N →
  first_order_run F y0 N x0 !! (n + 1)
  = Some (first_order_next F x0 n
            (take (n + 1) (first_order_run F y0 N x0))).
Proof.
  intros Hn. rewrite first_order_run_rec.
  apply rec_run_lookup; [done|]. rewrite first_order_start_length. lia.
Qed.

Lemma first_order_run_take y0 N N' :
  N' ≤ N →
  take (N' + 1) (first_order_run F y0 N x0) = first_order_run F y0 N' x0.
Proof.
  intros Hle. rewrite !first_order_run_rec.
  rewrite (rec_run_causal 1 _ (N' + 1) _ N N') by lia.
  by rewrite first_order_start_take.
Qed.

(** The returned expression is the series in powers of [x - x0]. *)
Lemma first_order_returned y0 N v :
  (peval (first_order_poly F y0 N x0) v
   == peval (or_zero <$> first_order_run F y0 N x0) (v - x0))%Q.
Proof.
  unfold first_order_poly. cbn zeta.
  rewrite take_ge by (rewrite first_order_run_length; lia).
  apply peval_shifted.
Qed.

End FirstOrderFacts.

(** ** The m-th-order loop as a causal recurrence *)

Lemma factorial_nonzero n : ¬ (factorial n == 0)%Q.
Proof.
  unfold factorial, Qeq. simpl. pose proof (lt_O_fact n). lia.
Qed.

Lemma factorial_ratio_1 n :
  (inject_Z (Z.of_nat (n + 1)) == factorial (n + 1) / factorial n)%Q.
Proof.
  assert (factorial (n + 1) == inject_Z (Z.of_nat (n + 1)) * factorial n)%Q
    as ->.
  { unfold factorial. rewrite <- inject_Z_mult, <- Nat2Z.inj_mul.
    by replace (n + 1) with (S n) by lia. }
  field. apply factorial_nonzero.
Qed.

Lemma ics_list_length ics order : length (ics_list ics order) = order + 1.
Proof. unfold ics_list. by rewrite length_fmap, length_seq. Qed.

Lemma ics_list_lookup ics order i :
  i ≤ order →
  ics_list ics order !! i = Some (default 0%Q (sympify <$> ics !! i)).
Proof.
  intros Hi. unfold ics_list.
  rewrite list_lookup_fmap, lookup_seq_lt by lia. done.
Qed.

Lemma ics_list_take ics N N' :
  N' ≤ N → take (N' + 1) (ics_list ics N) = ics_list ics N'.
Proof.
  intros Hle. apply list_eq. intros i.
  destruct (decide (i ≤ N')) as [Hi|Hi].
  - rewrite lookup_take_lt by lia. by rewrite !ics_list_lookup by lia.
  - rewrite lookup_take_ge by lia. symmetry. apply lookup_ge_None_2.
    rewrite ics_list_length. lia.
Qed.

(** The initialisation: the list [ics_list] when every key is an index,
    [IndexError] otherwise. *)
Lemma nth_order_init_spec ics order :
  (keys_within order ics → nth_order_init ics order = Some (ics_list ics order))
  ∧ (¬ keys_within order ics → nth_order_init ics order = None).
Proof.
  unfold nth_order_init, keys_within.
  apply (map_fold_weak_ind (λ r (mp : gmap nat Q),
     (map_Forall (λ k _, k ≤ order) mp → r = Some (ics_list mp order))
     ∧ (¬ map_Forall (λ k _, k ≤ order) mp → r = None))).
  - split; [intros _ | intros []; apply map_Forall_empty].
    f_equal. apply list_eq. intros i.
    destruct (decide (i ≤ order)) as [Hi|Hi].
    + rewrite ics_list_lookup, lookup_empty by done.
      by rewrite lookup_replicate_2 by lia.
    + rewrite !(lookup_ge_None_2 _ i); [done | |].
      * rewrite ics_list_length. lia.
      * rewrite length_replicate. lia.
  - intros k v mp r Hk [IH1 IH2]. split.
    + intros [Hkv Hall]%map_Forall_insert; [|done].
      rewrite (IH1 Hall). simpl. rewrite ics_list_length.
      rewrite decide_True by lia. f_equal. apply list_eq. intros i.
      destruct (decide (i = k)) as [->|Hne].
      * rewrite list_lookup_insert_eq by (rewrite ics_list_length; lia).
        by rewrite ics_list_lookup, lookup_insert_eq by done.
      * rewrite list_lookup_insert_ne by done.
        destruct (decide (i ≤ order)) as [Hi|Hi].
        -- rewrite !ics_list_lookup by done.
           by rewrite lookup_insert_ne by done.
        -- rewrite !(lookup_ge_None_2 _ i); [done | |];
             rewrite ics_list_length; lia.
    + intros Hnot.
      destruct (decide (map_Forall (λ k _, k ≤ order) mp)) as [Hall|Hall].
      * rewrite (IH1 Hall). simpl. rewrite ics_list_length.
        rewrite decide_False; [done|]. intros Hlt. apply Hnot.
        apply map_Forall_insert_2; [lia | done].
      * by rewrite (IH2 Hall).
Qed.

(** The entries of the dictionary of one pass: the derivative keys are
    the orders [0 .. m-2]. *)
Lemma nth_order_subs_map_spec m x0 Y :
  let s := nth_order_subs_map m x0 Y in
  sm_x s = [x0; 1%Q] ∧ sm_sym s = Y ∧
  ∀ j, sm_der s !! j =
       if decide (j = 0) then Some Y
       else if decide (j < m - 1) then Some (diff Y j) else None.
Proof.
  unfold nth_order_subs_map.
  set (derivs := diff Y <$> seq 0 m).
  set (s0 := mkSubsMap [x0; 1%Q] Y {[ 0 := Y ]}).
  set (f := λ (s : SubsMap) (k : nat), sm_set (k - 1) (derivs !!! (k - 1)) s).
  assert (∀ c, c ≤ m - 1 →
            let s := foldl f s0 (seq 1 c) in
            sm_x s = [x0; 1%Q] ∧ sm_sym s = Y ∧
            ∀ j, sm_der s !! j =
                 if decide (j = 0) then Some Y
                 else if decide (j < c) then Some (diff Y j) else None) as H.
  { induction c as [|c IH]; intros Hc.
    - simpl. repeat split. intros j. destruct (decide (j = 0)) as [->|Hj].
      + apply lookup_singleton_eq.
      + by apply lookup_singleton_ne.
    - destruct (IH ltac:(lia)) as (Hx & Hsym & Hder).
      rewrite seq_S, foldl_snoc. cbn zeta. unfold f at 1 3 5, sm_set. simpl.
      rewrite Nat.sub_0_r.
      assert (derivs !!! c = diff Y c) as ->.
      { apply list_lookup_total_correct. unfold derivs.
        rewrite list_lookup_fmap, lookup_seq_lt by lia. done. }
      repeat split; [done..|]. intros j.
      destruct (decide (j = c)) as [->|Hjc].
      + rewrite lookup_insert_eq. destruct (decide (c = 0)) as [->|Hc0]; [done|].
        by rewrite decide_True by lia.
      + rewrite lookup_insert_ne by done. rewrite Hder.
        destruct (decide (j = 0)); [done|].
        destruct (decide (j < c)); [by rewrite decide_True by lia|].
        by rewrite decide_False by lia. }
  apply H. lia.
Qed.

Lemma Y_upto_take (a : list Q) order n m :
  n + m ≤ order + 1 →
  Y_upto a order (Z.of_nat n + Z.of_nat m - 1) = take (n + m) a.
Proof. intros Hle. unfold Y_upto. f_equal. lia. Qed.

Lemma nth_order_run_rec m G x0 ics order :
  nth_order_run m G ics order x0
  = if decide (keys_within order ics)
    then Some (rec_run m (nth_order_next m G x0) (ics_list ics order)
                 (order + 1 - m))
    else None.
Proof. reflexivity. Qed.

(** A complete set of initial conditions fits the list when [m - 1 <= N]. *)
Lemma complete_keys_within (ics : gmap nat Q) m N :
  (∀ k, is_Some (ics !! k) ↔ k < m) → m ≤ N + 1 → keys_within N ics.
Proof.
  intros Hdom Hm k v Hkv.
  assert (k < m) by (apply Hdom; eauto). simpl. lia.
Qed.

Lemma keys_within_insert_fresh (ics : gmap nat Q) N k v :
  ics !! k = None → k ≤ N →
  keys_within N (<[k := v]> ics) ↔ keys_within N ics.
Proof.
  intros Hk Hle. unfold keys_within.
  rewrite map_Forall_insert by done. tauto.
Qed.

Lemma ics_list_insert_zero (ics : gmap nat Q) N k :
  ics !! k = None → ics_list (<[k := 0%Q]> ics) N = ics_list ics N.
Proof.
  intros Hk. apply list_eq. intros i.
  destruct (decide (i ≤ N)) as [Hi|Hi].
  - rewrite !ics_list_lookup by done. f_equal.
    destruct (decide (i = k)) as [->|Hne].
    + by rewrite lookup_insert_eq, Hk.
    + by rewrite lookup_insert_ne by done.
  - rewrite !(lookup_ge_None_2 _ i); [done | |]; rewrite ics_list_length; lia.
Qed.

(** ** The system loop, through the list of coefficient pairs *)

Section SystemFacts.
Variables F G : Expr fgatom.
Variable x0 : Q.

Lemma system_step_zip z n :
  system_step F G x0 (fst <$> z, snd <$> z) n
  = (fst <$> rec_step 1 (system_next F G x0) z n,
     snd <$> rec_step 1 (system_next F G x0) z n).
Proof.
  unfold system_step, rec_step, system_next, system_next_of.
  by rewrite !list_fmap_insert, !fmap_take.
Qed.

Lemma system_loop_zip z l :
  foldl (system_step F G x0) (fst <$> z, snd <$> z) l
  = (fst <$> foldl (rec_step 1 (system_next F G x0)) z l,
     snd <$> foldl (rec_step 1 (system_next F G x0)) z l).
Proof.
  revert z. induction l as [|n l IH]; intros z; [done|].
  cbn [foldl]. by rewrite system_step_zip, IH.
Qed.

Lemma system_coeffs_zip f0 g0 N :
  system_coeffs F G f0 g0 N x0
  = (fst <$> rec_run 1 (system_next F G x0) (system_start f0 g0 N) N,
     snd <$> rec_run 1 (system_next F G x0) (system_start f0 g0 N) N).
Proof.
  unfold system_coeffs, rec_run. cbn zeta. rewrite <- system_loop_zip.
  unfold system_start. by rewrite !list_fmap_insert, !fmap_replicate.
Qed.

Lemma system_start_length f0 g0 N : length (system_start f0 g0 N) = N + 1.
Proof. unfold system_start. by rewrite length_insert, length_replicate. Qed.

Lemma system_start_take f0 g0 N N' :
  N' ≤ N → take (N' + 1) (system_start f0 g0 N) = system_start f0 g0 N'.
Proof.
  intros Hle. unfold system_start.
  rewrite take_insert_lt by lia. rewrite take_replicate.
  by replace (min (N' + 1) (N + 1)) with (N' + 1) by lia.
Qed.

Lemma system_coeffs_0 f0 g0 N :
  (system_coeffs F G f0 g0 N x0).1 !! 0 = Some (Some (sympify f0))
  ∧ (system_coeffs F G f0 g0 N x0).2 !! 0 = Some (Some (sympify g0)).
Proof.
  rewrite system_coeffs_zip. cbn [fst snd].
  rewrite !list_lookup_fmap, rec_run_low by lia.
  unfold system_start.
  rewrite list_lookup_insert_eq by (rewrite length_replicate; lia). done.
Qed.

Lemma system_coeffs_length f0 g0 N :
  length (system_coeffs F G f0 g0 N x0).1 = N + 1
  ∧ length (system_coeffs F G f0 g0 N x0).2 = N + 1.
Proof.
  rewrite system_coeffs_zip. cbn [fst snd].
  by rewrite !length_fmap, rec_run_length, system_start_length.
Qed.

End SystemFacts.

Lemma first_order_next_as_nth F x0 n pre :
  or_zero (first_order_next F x0 n pre)
  = nth_order_next 1 F x0 n (or_zero <$> pre).
Proof.
  unfold first_order_next, nth_order_next. simpl or_zero.
  apply simplify_Qeq; [reflexivity | apply factorial_ratio_1].
Qed.

Lemma first_order_start_as_nth y0 N :
  or_zero <$> first_order_start y0 N = ics_list {[ 0 := y0 ]} N.
Proof.
  unfold first_order_start. rewrite list_fmap_insert, fmap_replicate.
  apply list_eq. intros i.
  destruct (decide (i ≤ N)) as [Hi|Hi].
  - rewrite ics_list_lookup by done.
    destruct (decide (i = 0)) as [->|Hne].
    + rewrite list_lookup_insert_eq by (rewrite length_replicate; lia).
      by rewrite lookup_singleton_eq.
    + rewrite list_lookup_insert_ne, lookup_singleton_ne by done.
      by rewrite lookup_replicate_2 by lia.
  - rewrite !(lookup_ge_None_2 _ i); [done | |].
    + rewrite ics_list_length. lia.
    + rewrite length_insert, length_replicate. lia.
Qed.

(** ** The returned expressions about the expansion point 0 *)

Lemma first_order_returned_coeff F y0 N k :
  (coeff (first_order_poly F y0 N 0) k
   == coeff (or_zero <$> first_order_run F y0 N 0) k)%Q.
Proof.
  unfold first_order_poly. cbn zeta.
  rewrite take_ge by (rewrite first_order_run_length; lia).
  apply coeff_returned_at_0.
Qed.

Lemma system_returned_coeff F G f0 g0 N k :
  (coeff (series_system_2x2 F G f0 g0 N 0).1 k
   == coeff (or_zero <$> (system_coeffs F G f0 g0 N 0).1) k)%Q
  ∧ (coeff (series_system_2x2 F G f0 g0 N 0).2 k
     == coeff (or_zero <$> (system_coeffs F G f0 g0 N 0).2) k)%Q.
Proof.
  unfold series_system_2x2.
  destruct (system_coeffs_length F G 0 f0 g0 N) as [Hf Hg].
  destruct (system_coeffs F G f0 g0 N 0) as [af ag]. cbn [fst snd] in *.
  rewrite !take_ge by lia. split; apply coeff_returned_at_0.
Qed.

Lemma nth_order_returned_coeff m G ics N a :
  nth_order_run m G ics N 0 = Some a → length a = N + 1 →
  ∃ r, nth_order_poly m G ics N 0 = Some r
       ∧ ∀ k, (coeff r k == coeff a k)%Q.
Proof.
  intros Ha Hlen. unfold nth_order_poly. rewrite Ha. simpl.
  eexists. split; [done|]. intros k.
  rewrite take_ge by lia. apply coeff_returned_at_0.
Qed.

Lemma coeff_or_zero_lookup (a b : list (option Q)) k :
  a !! k = b !! k → coeff (or_zero <$> a) k = coeff (or_zero <$> b) k.
Proof. intros H. unfold coeff. by rewrite !list_lookup_fmap, H. Qed.

(** ** The code on right-hand sides whose unknowns are keys *)

Lemma outcome_fold_Returned {A B} (f : A → B → outcome A) (g : A → B → A)
    (l : list B) (a : A) :
  (∀ a n, n ∈ l → f a n = Returned (g a n)) →
  foldl (λ acc n, a ← acc; f a n) (Returned a) l = Returned (foldl g a l).
Proof.
  revert a. induction l as [|n l IH]; intros a Hf; [done|].
  cbn [foldl mbind outcome_bind]. rewrite Hf by left.
  apply IH. intros a' n' Hn'. apply Hf. by right.
Qed.

Lemma outcome_fold_NotModelled {A B} (f : A → B → outcome A) (l : list B) :
  foldl (λ acc n, a ← acc; f a n) NotModelled l = NotModelled.
Proof. induction l as [|n l IH]; [done|]. exact IH. Qed.

Lemma outcome_fold_first_NotModelled {A B} (f : A → B → outcome A)
    (l : list B) (a : A) :
  l ≠ [] → (∀ a n, f a n = NotModelled) →
  foldl (λ acc n, a ← acc; f a n) (Returned a) l = NotModelled.
Proof.
  intros Hl Hf. destruct l as [|n l]; [done|].
  cbn [foldl mbind outcome_bind]. rewrite Hf.
  apply outcome_fold_NotModelled.
Qed.

(** A dictionary that holds the partial series for the unknown and its
    derivatives under every key replaces a right-hand side all of whose
    unknowns are keys by the polynomial [subs_series]; it leaves any
    other right-hand side with an unevaluated derivative. *)
Lemma subs_with_keyed m s (Y : Poly) G :
  sm_sym s = Y →
  (∀ k, k = 0 ∨ k + 1 < m → sm_der s !! k = Some (diff Y k)) →
  keyed m G = true →
  subs_with s G = Some (subs (sm_x s) (y_derivs Y) G).
Proof.
  intros Hsym Hder. unfold subs_with.
  induction G as [c| |[|k]|e1 IH1 e2 IH2|e1 IH1 e2 IH2|e1 IH1 n];
    cbn [keyed subs_opt subs subs_atom y_derivs]; intros HG.
  - done.
  - done.
  - by rewrite Hsym.
  - apply bool_decide_eq_true in HG. by apply Hder.
  - apply andb_prop in HG as [H1 H2]. by rewrite IH1, IH2.
  - apply andb_prop in HG as [H1 H2]. by rewrite IH1, IH2.
  - by rewrite IH1.
Qed.

Lemma subs_with_unkeyed m s G :
  (∀ k, ¬ (k = 0 ∨ k + 1 < m) → sm_der s !! k = None) →
  keyed m G = false → subs_with s G = None.
Proof.
  intros Hder. unfold subs_with.
  induction G as [c| |[|k]|e1 IH1 e2 IH2|e1 IH1 e2 IH2|e1 IH1 n];
    cbn [keyed subs_opt subs_atom]; intros HG; try done.
  - apply bool_decide_eq_false in HG. by apply Hder.
  - apply andb_false_iff in HG as [H1|H2].
    + by rewrite IH1.
    + rewrite IH2 by done.
      by destruct (subs_opt (sm_x s) (subs_atom s) e1).
  - apply andb_false_iff in HG as [H1|H2].
    + by rewrite IH1.
    + rewrite IH2 by done.
      by destruct (subs_opt (sm_x s) (subs_atom s) e1).
  - by rewrite IH1.
Qed.

Lemma first_order_subs_keyed x0 (Y : Poly) F :
  keyed 1 F = true →
  subs_with (mkSubsMap [x0; 1%Q] Y {[ 0 := Y ]}) F
  = Some (subs_series x0 Y F).
Proof.
  intros HF. apply (subs_with_keyed 1); [done | | done].
  intros k [->|Hk]; [|lia]. apply lookup_singleton_eq.
Qed.

Lemma first_order_subs_unkeyed x0 (Y : Poly) F :
  keyed 1 F = false →
  subs_with (mkSubsMap [x0; 1%Q] Y {[ 0 := Y ]}) F = None.
Proof.
  intros HF. apply (subs_with_unkeyed 1); [|done].
  intros k Hk. apply lookup_singleton_ne. intros <-. apply Hk. by left.
Qed.

Lemma nth_order_subs_keyed m x0 (Y : Poly) G :
  keyed m G = true →
  subs_with (nth_order_subs_map m x0 Y) G = Some (subs_series x0 Y G).
Proof.
  intros HG.
  destruct (nth_order_subs_map_spec m x0 Y) as (Hx & Hsym & Hder).
  unfold subs_series. rewrite <- Hx.
  apply (subs_with_keyed m); [done | | done].
  intros k Hk. rewrite Hder.
  destruct (decide (k = 0)) as [->|Hk0]; [done|].
  rewrite decide_True by lia. done.
Qed.

Lemma nth_order_subs_unkeyed m x0 (Y : Poly) G :
  keyed m G = false → subs_with (nth_order_subs_map m x0 Y) G = None.
Proof.
  intros HG.
  destruct (nth_order_subs_map_spec m x0 Y) as (_ & _ & Hder).
  apply (subs_with_unkeyed m); [|done].
  intros k Hk. rewrite Hder. rewrite !decide_False by lia. done.
Qed.

Lemma first_order_step_keyed F x0 a n :
  keyed 1 F = true →
  first_order_step F x0 a n
  = Returned (rec_step 1 (first_order_next F x0) a n).
Proof.
  intros HF. unfold first_order_step.
  by rewrite first_order_subs_keyed by done.
Qed.

Lemma first_order_step_unkeyed F x0 a n :
  keyed 1 F = false → first_order_step F x0 a n = NotModelled.
Proof.
  intros HF. unfold first_order_step.
  by rewrite first_order_subs_unkeyed by done.
Qed.

Lemma nth_order_step_keyed m G order x0 a n :
  keyed m G = true → n + m ≤ order + 1 →
  nth_order_step m G order x0 a n
  = Returned (rec_step m (nth_order_next m G x0) a n).
Proof.
  intros HG Hn. unfold nth_order_step.
  by rewrite Y_upto_take, nth_order_subs_keyed by done.
Qed.

Lemma nth_order_step_unkeyed m G order x0 a n :
  keyed m G = false → nth_order_step m G order x0 a n = NotModelled.
Proof.
  intros HG. unfold nth_order_step.
  by rewrite nth_order_subs_unkeyed by done.
Qed.

(** How a call of the first-order solver ends: it returns the list of
    its causal recurrence when [y(x)] and [y] are the only unknowns in
    [F], and also when no pass runs. *)
Lemma first_order_coeffs_cases F y0 N x0 :
  first_order_coeffs F y0 N x0
  = if keyed 1 F || bool_decide (N = 0)
    then Returned (first_order_run F y0 N x0)
    else NotModelled.
Proof.
  unfold first_order_coeffs, first_order_run, rec_run. cbn zeta.
  fold (first_order_start y0 N).
  destruct (keyed 1 F) eqn:HF; cbn [orb].
  - apply outcome_fold_Returned. intros a n _.
    by apply first_order_step_keyed.
  - case_bool_decide as HN.
    + subst N. reflexivity.
    + apply outcome_fold_first_NotModelled.
      * destruct N; [done|]. by rewrite seq_S; intros ?%app_eq_nil%proj2.
      * intros a n. by apply first_order_step_unkeyed.
Qed.

Lemma series_first_order_cases F y0 N x0 :
  series_first_order F y0 N x0
  = if keyed 1 F || bool_decide (N = 0)
    then Returned (first_order_poly F y0 N x0)
    else NotModelled.
Proof.
  unfold series_first_order. rewrite first_order_coeffs_cases.
  by destruct (keyed 1 F || bool_decide (N = 0)).
Qed.

Lemma first_order_coeffs_keyed F y0 N x0 :
  keyed 1 F = true →
  first_order_coeffs F y0 N x0 = Returned (first_order_run F y0 N x0).
Proof. intros HF. by rewrite first_order_coeffs_cases, HF. Qed.

Lemma series_first_order_keyed F y0 N x0 :
  keyed 1 F = true →
  series_first_order F y0 N x0 = Returned (first_order_poly F y0 N x0).
Proof. intros HF. by rewrite series_first_order_cases, HF. Qed.

(** How a call of the m-th-order solver ends: [IndexError] when a
    supplied derivative order is no index of the list; else the list of
    its causal recurrence when every unknown in [G] is a key, and also
    when no pass runs. *)
Lemma nth_order_coeffs_cases m G ics N x0 :
  nth_order_coeffs m G ics N x0
  = match nth_order_run m G ics N x0 with
    | None => Raised IndexError
    | Some a =>
        if keyed m G || bool_decide (N + 1 ≤ m) then Returned a
        else NotModelled
    end.
Proof.
  unfold nth_order_coeffs, nth_order_run, rec_run.
  destruct (nth_order_init_spec ics N) as [H1 H2].
  case_decide as Hk; [rewrite (H1 Hk) | by rewrite (H2 Hk)].
  destruct (keyed m G) eqn:HG; cbn [orb].
  - apply outcome_fold_Returned. intros a n Hn%elem_of_seq.
    apply nth_order_step_keyed; [done | lia].
  - case_bool_decide as HN.
    + by replace (N + 1 - m) with 0 by lia.
    + apply outcome_fold_first_NotModelled.
      * destruct (N + 1 - m) as [|c] eqn:Hc; [lia|].
        by rewrite seq_S; intros ?%app_eq_nil%proj2.
      * intros a n. by apply nth_order_step_unkeyed.
Qed.

Lemma series_nth_order_cases m G ics N x0 :
  series_nth_order m G ics N x0
  = match nth_order_poly m G ics N x0 with
    | None => Raised IndexError
    | Some r =>
        if keyed m G || bool_decide (N + 1 ≤ m) then Returned r
        else NotModelled
    end.
Proof.
  unfold series_nth_order, nth_order_poly. rewrite nth_order_coeffs_cases.
  destruct (nth_order_run m G ics N x0) as [a|]; [|done].
  by destruct (keyed m G || bool_decide (N + 1 ≤ m)).
Qed.

Lemma nth_order_coeffs_keyed m G ics N x0 :
  keyed m G = true →
  nth_order_coeffs m G ics N x0
  = match nth_order_run m G ics N x0 with
    | None => Raised IndexError
    | Some a => Returned a
    end.
Proof. intros HG. by rewrite nth_order_coeffs_cases, HG. Qed.

Lemma series_nth_order_keyed m G ics N x0 :
  keyed m G = true →
  series_nth_order m G ics N x0
  = match nth_order_poly m G ics N x0 with
    | None => Raised IndexError
    | Some r => Returned r
    end.
Proof. intros HG. by rewrite series_nth_order_cases, HG. Qed.

(** Right-hand sides that are keyed whatever [m] is. *)
Lemma unknown_free_keyed m (e : Expr yatom) :
  unknown_free e = true → keyed m e = true.
Proof.
  induction e as [c| |a|e1 IH1 e2 IH2|e1 IH1 e2 IH2|e1 IH1 n];
    cbn [unknown_free keyed]; try done.
  - intros [H1 H2]%andb_prop. by rewrite IH1, IH2.
  - intros [H1 H2]%andb_prop. by rewrite IH1, IH2.
Qed.

Lemma applied_only_keyed m (e : Expr yatom) :
  applied_only e = true → keyed m e = true.
Proof.
  induction e as [c| |[|[|k]]|e1 IH1 e2 IH2|e1 IH1 e2 IH2|e1 IH1 n];
    cbn [applied_only keyed]; try done;
    intros [H1 H2]%andb_prop; by rewrite IH1, IH2.
Qed.

Lemma as_applied_keyed m (e : Expr yvar) : keyed m (as_applied e) = true.
Proof.
  induction e as [c| |a|e1 IH1 e2 IH2|e1 IH1 e2 IH2|e1 IH1 n];
    cbn [as_applied keyed]; try done; by rewrite IH1, IH2.
Qed.

Lemma keyed_le m m' (e : Expr yatom) :
  m ≤ m' → keyed m e = true → keyed m' e = true.
Proof.
  intros Hm.
  induction e as [c| |[|k]|e1 IH1 e2 IH2|e1 IH1 e2 IH2|e1 IH1 n];
    cbn [keyed]; try done.
  - intros H%bool_decide_eq_true. apply bool_decide_eq_true.
    destruct H; [by left | right; lia].
  - intros [H1 H2]%andb_prop. by rewrite IH1, IH2.
  - intros [H1 H2]%andb_prop. by rewrite IH1, IH2.
Qed.

(** ** One unknown, two spellings *)

Lemma subs_series_bare_to_applied x0 (Y : Poly) e :
  subs_series x0 Y (bare_to_applied e) = subs_series x0 Y e.
Proof.
  unfold subs_series.
  induction e as [c| |[|k]|e1 IH1 e2 IH2|e1 IH1 e2 IH2|e1 IH1 n]; simpl;
    try done; congruence.
Qed.

Lemma subs_series_applied_to_bare x0 (Y : Poly) e :
  subs_series x0 Y (applied_to_bare e) = subs_series x0 Y e.
Proof.
  unfold subs_series.
  induction e as [c| |[|[|k]]|e1 IH1 e2 IH2|e1 IH1 e2 IH2|e1 IH1 n]; simpl;
    try done; congruence.
Qed.

Lemma keyed_bare_to_applied m e : keyed m (bare_to_applied e) = keyed m e.
Proof.
  induction e as [c| |[|k]|e1 IH1 e2 IH2|e1 IH1 e2 IH2|e1 IH1 n]; simpl;
    try done; congruence.
Qed.

Lemma keyed_applied_to_bare m e : keyed m (applied_to_bare e) = keyed m e.
Proof.
  induction e as [c| |[|[|k]]|e1 IH1 e2 IH2|e1 IH1 e2 IH2|e1 IH1 n]; simpl;
    try done; congruence.
Qed.

Lemma rec_run_ext {T} m (g g' : nat → list T → T) (a : list T) cnt :
  (∀ n pre, g n pre = g' n pre) → rec_run m g a cnt = rec_run m g' a cnt.
Proof.
  intros Hg. unfold rec_run. apply foldl_ext_in. intros a' n _.
  unfold rec_step. by rewrite Hg.
Qed.

Lemma first_order_run_ext F F' y0 N x0 :
  (∀ Y, subs_series x0 Y F' = subs_series x0 Y F) →
  first_order_run F' y0 N x0 = first_order_run F y0 N x0.
Proof.
  intros Hs. unfold first_order_run. apply rec_run_ext. intros n pre.
  unfold first_order_next. by rewrite Hs.
Qed.

Lemma nth_order_run_ext m G G' ics N x0 :
  (∀ Y, subs_series x0 Y G' = subs_series x0 Y G) →
  nth_order_run m G' ics N x0 = nth_order_run m G ics N x0.
Proof.
  intros Hs. unfold nth_order_run. case_decide; [|done]. f_equal.
  apply rec_run_ext. intros n pre. unfold nth_order_next. by rewrite Hs.
Qed.


(** ** What a returned result is *)

Lemma first_order_coeffs_Returned F y0 N x0 a :
  first_order_coeffs F y0 N x0 = Returned a → a = first_order_run F y0 N x0.
Proof.
  rewrite first_order_coeffs_cases.
  destruct (keyed 1 F || bool_decide (N = 0)); [|done]. by intros [= <-].
Qed.

Lemma series_first_order_Returned F y0 N x0 r :
  series_first_order F y0 N x0 = Returned r → r = first_order_poly F y0 N x0.
Proof.
  rewrite series_first_order_cases.
  destruct (keyed 1 F || bool_decide (N = 0)); [|done]. by intros [= <-].
Qed.

Lemma nth_order_coeffs_Returned m G ics N x0 a :
  nth_order_coeffs m G ics N x0 = Returned a →
  nth_order_run m G ics N x0 = Some a.
Proof.
  rewrite nth_order_coeffs_cases.
  destruct (nth_order_run m G ics N x0) as [a'|]; [|done].
  destruct (keyed m G || bool_decide (N + 1 ≤ m)); [|done]. by intros [= <-].
Qed.

Lemma series_nth_order_Returned m G ics N x0 r :
  series_nth_order m G ics N x0 = Returned r →
  nth_order_poly m G ics N x0 = Some r.
Proof.
  rewrite series_nth_order_cases.
  destruct (nth_order_poly m G ics N x0) as [r'|]; [|done].
  destruct (keyed m G || bool_decide (N + 1 ≤ m)); [|done]. by intros [= <-].
Qed.

Lemma nth_order_run_Some m G ics N x0 :
  keys_within N ics →
  nth_order_run m G ics N x0
  = Some (rec_run m (nth_order_next m G x0) (ics_list ics N) (N + 1 - m)).
Proof. intros Hk. unfold nth_order_run. by rewrite decide_True. Qed.

Lemma nth_order_run_None m G ics N x0 :
  ¬ keys_within N ics → nth_order_run m G ics N x0 = None.
Proof. intros Hk. unfold nth_order_run. by rewrite decide_False. Qed.

Lemma nth_order_run_inv m G ics N x0 a :
  nth_order_run m G ics N x0 = Some a →
  keys_within N ics
  ∧ a = rec_run m (nth_order_next m G x0) (ics_list ics N) (N + 1 - m).
Proof.
  unfold nth_order_run. case_decide; [|done]. by intros [= <-].
Qed.

Lemma nth_order_run_length m G ics N x0 a :
  nth_order_run m G ics N x0 = Some a → length a = N + 1.
Proof.
  intros [_ ->]%nth_order_run_inv.
  by rewrite rec_run_length, ics_list_length.
Qed.

(** A supplied derivative order that is no index of the list makes the
    call raise [IndexError], whatever the right-hand side. *)
Lemma nth_order_coeffs_IndexError m G ics N x0 :
  ¬ keys_within N ics → nth_order_coeffs m G ics N x0 = Raised IndexError.
Proof.
  intros Hk. by rewrite nth_order_coeffs_cases, nth_order_run_None.
Qed.

Lemma series_nth_order_IndexError m G ics N x0 :
  ¬ keys_within N ics → series_nth_order m G ics N x0 = Raised IndexError.
Proof.
  intros Hk. unfold series_nth_order.
  by rewrite nth_order_coeffs_IndexError.
Qed.

Lemma keys_within_le (ics : gmap nat Q) N N' :
  N' ≤ N → keys_within N' ics → keys_within N ics.
Proof.
  intros Hle Hk k v Hkv. specialize (Hk k v Hkv). simpl in *. lia.
Qed.

Lemma keys_within_not_iff (ics : gmap nat Q) N :
  ¬ keys_within N ics ↔ ∃ k, is_Some (ics !! k) ∧ N < k.
Proof.
  split.
  - intros Hn. apply map_not_Forall in Hn; [|apply _].
    destruct Hn as (k & v & Hkv & Hgt). exists k. split; [by eexists | lia].
  - intros (k & [v Hkv] & Hgt) Hk. specialize (Hk k v Hkv). simpl in Hk. lia.
Qed.
(** ** The solvers on the cases of [build_cases] *)

Example case_linear_2y :
  series_first_order (Mul (Num 2) yx) 3 4 0 = Returned [3; 6; 6; 4; 2]%Q.
Proof. vm_compute. reflexivity. Qed.

Example case_polynomial_source :
  series_first_order (Pow X 2) 0 5 0 = Returned [0; 0; 0; 1 # 3]%Q.
Proof. vm_compute. reflexivity. Qed.

Example case_separable :
  series_first_order (Pow yx 2) 1 5 0 = Returned [1; 1; 1; 1; 1; 1]%Q.
Proof. vm_compute. reflexivity. Qed.

Example case_riccati :
  series_first_order (Add (Num 1) (Pow yx 2)) 0 5 0
  = Returned [0; 1; 0; 1 # 3; 0; 2 # 15]%Q.
Proof. vm_compute. reflexivity. Qed.

(** [2 + (x-1) + (x-1)^2 + (x-1)^3/3], expanded. *)
Example case_nonzero_point :
  series_first_order (Pow X 2) 2 4 1 = Returned [5 # 3; 0; 0; 1 # 3]%Q.
Proof. vm_compute. reflexivity. Qed.

Example case_order_0 :
  series_first_order (Add X (Pow yx 2)) 5 0 0 = Returned [5]%Q.
Proof. vm_compute. reflexivity. Qed.

Example case_sine :
  series_nth_order 2 (neg yx) {[ 0 := 0%Q; 1 := 1%Q ]} 5 0
  = Returned [0; 1; 0; -1 # 6; 0; 1 # 120]%Q.
Proof. vm_compute. reflexivity. Qed.

Example case_fourth_order :
  series_nth_order 4 yx {[ 0 := 1%Q; 1 := 0%Q; 2 := 0%Q; 3 := 0%Q ]} 8 0
  = Returned [1; 0; 0; 0; 1 # 24; 0; 0; 0; 1 # 40320]%Q.
Proof. vm_compute. reflexivity. Qed.

Example case_third_order_coupling :
  series_nth_order 3 (Add X yx) {[ 0 := 1%Q; 1 := 0%Q; 2 := 0%Q ]} 5 0
  = Returned [1; 0; 0; 1 # 6; 1 # 24]%Q.
Proof. vm_compute. reflexivity. Qed.

(** [(x - 2)^3], expanded. *)
Example case_constant_third_derivative :
  series_nth_order 3 (Num 6) {[ 0 := 0%Q; 1 := 0%Q; 2 := 0%Q ]} 4 2
  = Returned [-8; 12; -6; 1]%Q.
Proof. vm_compute. reflexivity. Qed.

Example case_simple_oscillator :
  series_system_2x2 gx (neg fx) 0 1 5 0
  = ([0; 1; 0; -1 # 6; 0; 1 # 120]%Q, [1; 0; -1 # 2; 0; 1 # 24]%Q).
Proof. vm_compute. reflexivity. Qed.

Example case_mixed_poly :
  series_system_2x2 X (Add fx gx) 0 1 4 0
  = ([0; 0; 1 # 2]%Q, [1; 1; 1 # 2; 1 # 3; 1 # 12]%Q).
Proof. vm_compute. reflexivity. Qed.

(** The entries of [ics] are written as coefficients as they are: for
    [y''' = 0] with [y(0) = 1], [y'(0) = 2], [y''(0) = 3] the recurrence
    gives [1 + 2x + 3x^2] (the table of expected series lists [3/2] for
    [x^2]). *)
Example case_third_order_polynomial :
  series_nth_order 3 (Num 0) {[ 0 := 1%Q; 1 := 2%Q; 2 := 3%Q ]} 3 0
  = Returned [1; 2; 3]%Q.
Proof. vm_compute. reflexivity. Qed.


(** * Part III: the claims *)

(** C1. For every right-hand side [F(x, y)] (the unknown is the only
    unknown function [F] mentions: [y(x)] or the symbol [y]), initial
    value [y0], expansion point [x0] and order [N], the first-order
    solver returns; the list it builds has [a_0 = y0] and, for each
    [n < N], [a_{n+1} = c_n / (n + 1)], where [c_n] is the coefficient
    of [t^n] in [F] after [x] is replaced by [x0 + t] and the unknown by
    the partial series of [a_0 .. a_n]; the returned expression is that
    series in powers of [x - x0].  For [y' = y], [y(0) = 1] and order 6
    it returns [1 + x + x^2/2 + x^3/6 + x^4/24 + x^5/120 + x^6/720]. *)
Theorem C1_first_order_recurrence (F : Expr yatom) (y0 x0 : Q) (N : nat) :
  keyed 1 F = true →
  (∃ a, first_order_coeffs F y0 N x0 = Returned a ∧
        (a !! 0 = Some (Some (sympify y0)) ∧ (sympify y0 == y0)%Q) ∧
        (∀ n, n < N →
           let Yn := or_zero <$> take (n + 1) a in
           ∃ F_sub,
             subs_with (mkSubsMap [x0; 1%Q] Yn {[ 0 := Yn ]}) F = Some F_sub
             ∧ a !! (n + 1)
               = Some (Some (simplify (coeff F_sub n
                                       / inject_Z (Z.of_nat (n + 1)))))) ∧
        length a = N + 1 ∧
        ∃ r, series_first_order F y0 N x0 = Returned r
             ∧ ∀ v, (peval r v == peval (or_zero <$> a) (v - x0))%Q) ∧
  series_first_order yx 1 6 0
  = Returned [1; 1; 1 # 2; 1 # 6; 1 # 24; 1 # 120; 1 # 720]%Q.
Proof.
  intros HF. split; [|vm_compute; reflexivity].
  exists (first_order_run F y0 N x0).
  split; [by apply first_order_coeffs_keyed|].
  split; [split; [apply first_order_run_0 | apply sympify_Qeq]|].
  split; [|split; [apply first_order_run_length|]].
  - intros n Hn. cbn zeta. eexists.
    split; [by apply first_order_subs_keyed|].
    rewrite first_order_run_next by done.
    unfold first_order_next. do 2 f_equal.
    apply simplify_Qeq; [apply coeff_truncated | reflexivity].
  - eexists. split; [by apply series_first_order_keyed|].
    intros v. apply first_order_returned.
Qed.

Lemma C1_first_order_recurrence_witness :
  keyed 1 yx = true
  ∧ ∃ a, first_order_coeffs yx 1 6 0 = Returned a
         ∧ a !! (2 + 1) = Some (Some (1 # 6)%Q).
Proof.
  split; [reflexivity|].
  destruct (C1_first_order_recurrence yx 1 0 6)
    as [(a & Ha & _ & Hrec & _) _]; [reflexivity|].
  exists a. split; [done|].
  destruct (Hrec 2) as (F_sub & Hs & ->); [lia|].
  assert (Returned a
          = Returned [Some 1; Some 1; Some (1 # 2); Some (1 # 6);
                      Some (1 # 24); Some (1 # 120); Some (1 # 720)]%Q)
    as [= ->] by (rewrite <- Ha; vm_compute; reflexivity).
  vm_compute in Hs. injection Hs as <-. vm_compute. reflexivity.
Defined.

(** C2, on the code.  For [m >= 1], complete initial conditions on
    [0 .. m-1], an expansion point, an order [N >= m - 1] and a
    right-hand side [G] whose unknowns are keys of the dictionary
    ([y], [y(x)] and the derivatives of order below [m - 1]), the
    m-th-order solver returns, and each pass [n] of its recurrence sets
    [a_{n+m} = c_n * n! / (n+m)!], where [c_n] is the coefficient of
    [t^n] of the substituted, truncated [G]; for [y'' = -y],
    [y(0) = 1], [y'(0) = 0] and order 6 it returns
    [1 - x^2/2 + x^4/24 - x^6/720].  A right-hand side that mentions
    [y^(m-1)], which the solver allows, is not among these: for
    [y'' = (y')^2] the dictionary of a pass has no entry for [y'], and
    the substituted [G] is no polynomial from which [c_n] could be
    read. *)
Theorem C2_nth_order_recurrence (m N : nat) (G : Expr yatom)
    (ics : gmap nat Q) (x0 : Q) :
  1 ≤ m → m - 1 ≤ N → (∀ k, is_Some (ics !! k) ↔ k < m) →
  keyed m G = true →
  (∃ a, nth_order_coeffs m G ics N x0 = Returned a ∧ length a = N + 1 ∧
        (∀ n, n + m ≤ N →
           let Y := take (n + m) a in
           ∃ G_sub,
             subs_with (nth_order_subs_map m x0 Y) G = Some G_sub
             ∧ let c_n := coeff (series_removeO G_sub (n + 1)) n in
               a !! (n + m)
               = Some (simplify (c_n * factorial n / factorial (n + m)))) ∧
        series_nth_order m G ics N x0
        = Returned (expand (compose a [(- x0)%Q; 1%Q]))) ∧
  series_nth_order 2 (neg yx) {[ 0 := 1%Q; 1 := 0%Q ]} 6 0
  = Returned [1; 0; -1 # 2; 0; 1 # 24; 0; -1 # 720]%Q ∧
  keyed 2 (Pow (Atom (Dy 1)) 2) = false ∧
  subs_atom (nth_order_subs_map 2 0 [1; 1]%Q) (Dy 1) = None.
Proof.
  intros Hm HN Hdom HG.
  split; [|split; [vm_compute; reflexivity | split; reflexivity]].
  assert (keys_within N ics) as Hk
    by (apply (complete_keys_within ics m); [done | lia]).
  pose proof (nth_order_coeffs_keyed m G ics N x0 HG) as Hc.
  rewrite nth_order_run_Some in Hc by done.
  set (a := rec_run m (nth_order_next m G x0) (ics_list ics N) (N + 1 - m))
    in Hc.
  assert (length a = N + 1) as Hlen
    by (unfold a; by rewrite rec_run_length, ics_list_length).
  exists a. split; [done|]. split; [done|]. split.
  - intros n Hn. cbn zeta. eexists.
    split; [by apply nth_order_subs_keyed|]. unfold a.
    rewrite rec_run_lookup by (rewrite ?ics_list_length; lia).
    fold a. unfold nth_order_next, simplify. f_equal.
    apply Qred_complete.
    rewrite coeff_truncated. unfold series_removeO.
    rewrite coeff_take by lia.
    field. split; apply factorial_nonzero.
  - unfold series_nth_order. rewrite Hc. simpl.
    by rewrite take_ge by lia.
Qed.

Lemma C2_nth_order_recurrence_witness :
  ∃ a, nth_order_coeffs 2 (neg yx) {[ 0 := 1%Q; 1 := 0%Q ]} 6 0 = Returned a
       ∧ a !! (2 + 2) = Some (1 # 24)%Q.
Proof.
  destruct (C2_nth_order_recurrence 2 6 (neg yx) {[ 0 := 1%Q; 1 := 0%Q ]} 0)
    as [(a & Ha & _ & Hrec & _) _].
  - lia.
  - simpl. lia.
  - intros [|[|k]]; (split; [intros [v Hv] | intros Hlt]);
      try lia; try (by eexists).
    rewrite lookup_insert_ne, lookup_singleton_ne in Hv by lia. discriminate.
  - reflexivity.
  - exists a. split; [done|].
    destruct (Hrec 2) as (G_sub & Hs & ->); [lia|].
    assert (Returned a = Returned [1; 0; -1 # 2; 0; 1 # 24; 0; -1 # 720]%Q)
      as [= ->] by (rewrite <- Ha; vm_compute; reflexivity).
    vm_compute in Hs. injection Hs as <-. vm_compute. reflexivity.
Defined.

(** C3. The 2x2 system solver computes, at each pass [n], the next
    coefficients [af_{n+1}] and [ag_{n+1}] as the coefficients of [t^n]
    of the substituted [F] and [G], each divided by [n + 1], from the
    coefficients of degree at most [n] of both partial series.  For
    [f' = f + g], [g' = f + g], [f(0) = 1], [g(0) = 0] and order 5 it
    returns [f = 1 + x + x^2 + 2x^3/3 + x^4/3 + 2x^5/15] and
    [g = x + x^2 + 2x^3/3 + x^4/3 + 2x^5/15]: the coefficient of [x^5]
    is [2/15], not [1/15]. *)
Theorem C3_system_recurrence (F G : Expr fgatom) (f0 g0 x0 : Q) (N : nat) :
  let af := (system_coeffs F G f0 g0 N x0).1 in
  let ag := (system_coeffs F G f0 g0 N x0).2 in
  (af !! 0 = Some (Some (sympify f0)) ∧ ag !! 0 = Some (Some (sympify g0))) ∧
  (∀ n, n < N →
     let Fn := or_zero <$> take (n + 1) af in
     let Gn := or_zero <$> take (n + 1) ag in
     let cF := coeff (system_subs x0 Fn Gn F) n in
     let cG := coeff (system_subs x0 Fn Gn G) n in
     af !! (n + 1) = Some (Some (simplify (cF / inject_Z (Z.of_nat (n + 1)))))
     ∧ ag !! (n + 1)
       = Some (Some (simplify (cG / inject_Z (Z.of_nat (n + 1)))))) ∧
  series_system_2x2 (Add fx gx) (Add fx gx) 1 0 5 0
  = ([1; 1; 1; 2 # 3; 1 # 3; 2 # 15]%Q, [0; 1; 1; 2 # 3; 1 # 3; 2 # 15]%Q) ∧
  coeff (series_system_2x2 (Add fx gx) (Add fx gx) 1 0 5 0).1 5 = (2 # 15)%Q ∧
  coeff (series_system_2x2 (Add fx gx) (Add fx gx) 1 0 5 0).2 5 = (2 # 15)%Q.
Proof.
  cbn zeta. split; [apply system_coeffs_0|].
  split; [|repeat split; vm_compute; reflexivity].
  rewrite system_coeffs_zip. cbn [fst snd].
  set (z := rec_run 1 (system_next F G x0) (system_start f0 g0 N) N).
  intros n Hn. rewrite !list_lookup_fmap. unfold z.
  rewrite rec_run_lookup by (rewrite ?system_start_length; lia).
  fold z. rewrite <- !fmap_take. unfold system_next, system_next_of. simpl.
  split; do 2 f_equal; (apply simplify_Qeq;
    [apply coeff_truncated | reflexivity]).
Qed.

Lemma C3_system_recurrence_witness :
  (system_coeffs (Add fx gx) (Add fx gx) 1 0 5 0).1 !! (4 + 1)
  = Some (Some (2 # 15)%Q).
Proof.
  destruct (C3_system_recurrence (Add fx gx) (Add fx gx) 1 0 0 5)
    as (_ & Hrec & _).
  destruct (Hrec 4) as [Hf _]; [lia|].
  rewrite Hf. vm_compute. reflexivity.
Defined.

(** C4, on the code.  The dictionary of a pass gets the keys
    [y(x).diff(x, k - 1)] for [k] in [range(1, m)], that is the orders
    [0 .. m-2]: for [m >= 2] the list [derivs] holds the derivative of
    order [m - 1] of the partial series, every derivative of order below
    [m - 1] is replaced by the derivative of that order of the partial
    series, but the highest derivative the right-hand side may mention,
    [y^(m-1)], is no key: the dictionary has no entry that would replace
    its occurrences. *)
Theorem C4_top_derivative_not_substituted (m : nat) (x0 : Q) (Y : Poly) :
  2 ≤ m →
  (diff Y <$> seq 0 m) !! (m - 1) = Some (diff Y (m - 1))
  ∧ sm_der (nth_order_subs_map m x0 Y) !! (m - 1) = None
  ∧ subs_atom (nth_order_subs_map m x0 Y) (Dy (m - 1)) = None
  ∧ (∀ k, k + 1 < m →
       subs_atom (nth_order_subs_map m x0 Y) (Dy k) = Some (diff Y k))
  ∧ keyed m (Atom (Dy (m - 1))) = false.
Proof.
  intros Hm.
  destruct (nth_order_subs_map_spec m x0 Y) as (_ & _ & Hder).
  assert (sm_der (nth_order_subs_map m x0 Y) !! (m - 1) = None) as Hnone.
  { rewrite Hder. rewrite !decide_False by lia. done. }
  split; [|split; [done|split; [done|split]]].
  - rewrite list_lookup_fmap, lookup_seq_lt by lia. done.
  - intros k Hk. cbn [subs_atom]. rewrite Hder.
    destruct (decide (k = 0)) as [->|Hk0]; [done|].
    by rewrite decide_True by lia.
  - cbn [keyed]. apply bool_decide_eq_false. lia.
Qed.

Lemma C4_top_derivative_not_substituted_witness :
  subs_atom (nth_order_subs_map 2 0 [0; 1]%Q) (Dy (2 - 1)) = None
  ∧ subs_atom (nth_order_subs_map 2 0 [0; 1]%Q) (Dy 0) = Some [0; 1]%Q.
Proof.
  destruct (C4_top_derivative_not_substituted 2 0 [0; 1]%Q)
    as (_ & _ & H & Hlow & _).
  - lia.
  - split; [exact H|]. apply (Hlow 0). lia.
Defined.

(** C5, on the code.  Causality: for the first-order solver and the
    system solver, and for the m-th-order solver when no supplied
    derivative order exceeds [N'], every coefficient of degree
    [k <= N'] computed at order [N'] is the coefficient of degree [k]
    computed at order [N > N'], in the series in powers of [x - x0]
    and, about the expansion point 0, in the returned expressions (the
    scalar right-hand sides being those whose unknowns are keys of the
    dictionary).  But when a supplied derivative order exceeds [N'],
    as with a complete set of initial conditions and [N' < m - 1], the
    m-th-order solver has nothing to compare at order [N']: the call
    raises [IndexError], whatever the right-hand side.  For
    [y''' = x + y], [y(0) = 1], [y'(0) = 0], [y''(0) = 0] the call at
    order 5 returns [1 + x^3/6 + x^4/24] and the call at order 1
    raises. *)
Theorem C5_causality (N' N : nat) :
  N' < N →
  (∀ F y0 x0, keyed 1 F = true →
     ∃ a' a, first_order_coeffs F y0 N' x0 = Returned a'
             ∧ first_order_coeffs F y0 N x0 = Returned a
             ∧ ∀ k, k ≤ N' → a' !! k = a !! k) ∧
  (∀ m G ics x0, keyed m G = true → keys_within N' ics →
     ∃ a' a, nth_order_coeffs m G ics N' x0 = Returned a'
             ∧ nth_order_coeffs m G ics N x0 = Returned a
             ∧ ∀ k, k ≤ N' → a' !! k = a !! k) ∧
  (∀ m G ics x0, (∃ k, is_Some (ics !! k) ∧ N' < k) →
     nth_order_coeffs m G ics N' x0 = Raised IndexError
     ∧ series_nth_order m G ics N' x0 = Raised IndexError) ∧
  (∀ F G f0 g0 x0 k, k ≤ N' →
     (system_coeffs F G f0 g0 N' x0).1 !! k
     = (system_coeffs F G f0 g0 N x0).1 !! k
     ∧ (system_coeffs F G f0 g0 N' x0).2 !! k
       = (system_coeffs F G f0 g0 N x0).2 !! k) ∧
  (∀ F y0, keyed 1 F = true →
     ∃ r' r, series_first_order F y0 N' 0 = Returned r'
             ∧ series_first_order F y0 N 0 = Returned r
             ∧ ∀ k, k ≤ N' → (coeff r' k == coeff r k)%Q) ∧
  (∀ m G ics, keyed m G = true → keys_within N' ics →
     ∃ r' r, series_nth_order m G ics N' 0 = Returned r'
             ∧ series_nth_order m G ics N 0 = Returned r
             ∧ ∀ k, k ≤ N' → (coeff r' k == coeff r k)%Q) ∧
  (∀ F G f0 g0 k, k ≤ N' →
     (coeff (series_system_2x2 F G f0 g0 N' 0).1 k
      == coeff (series_system_2x2 F G f0 g0 N 0).1 k)%Q
     ∧ (coeff (series_system_2x2 F G f0 g0 N' 0).2 k
        == coeff (series_system_2x2 F G f0 g0 N 0).2 k)%Q) ∧
  series_nth_order 3 (Add X yx) {[ 0 := 1%Q; 1 := 0%Q; 2 := 0%Q ]} 5 0
  = Returned [1; 0; 0; 1 # 6; 1 # 24]%Q ∧
  series_nth_order 3 (Add X yx) {[ 0 := 1%Q; 1 := 0%Q; 2 := 0%Q ]} 1 0
  = Raised IndexError.
Proof.
  intros Hlt.
  assert (∀ F y0 x0 k, k ≤ N' →
            first_order_run F y0 N' x0 !! k
            = first_order_run F y0 N x0 !! k) as Hfirst.
  { intros F y0 x0 k Hk.
    rewrite <- (first_order_run_take F x0 y0 N N') by lia.
    by rewrite lookup_take_lt by lia. }
  assert (∀ m G ics x0, keys_within N' ics →
            ∃ a' a, nth_order_run m G ics N' x0 = Some a'
                    ∧ nth_order_run m G ics N x0 = Some a
                    ∧ length a' = N' + 1 ∧ length a = N + 1
                    ∧ ∀ k, k ≤ N' → a' !! k = a !! k) as Hnth.
  { intros m G ics x0 Hkeys.
    assert (keys_within N ics) as Hkeys'
      by (apply (keys_within_le ics N N'); [lia | done]).
    rewrite !nth_order_run_Some by done.
    eexists _, _. split; [done|]. split; [done|].
    rewrite !rec_run_length, !ics_list_length.
    split; [done|]. split; [done|]. intros k Hk.
    rewrite <- (ics_list_take ics N N') by lia.
    rewrite <- (rec_run_causal m _ (N' + 1) _ (N + 1 - m) (N' + 1 - m))
      by lia.
    by rewrite lookup_take_lt by lia. }
  assert (∀ F G f0 g0 x0 k, k ≤ N' →
            (system_coeffs F G f0 g0 N' x0).1 !! k
            = (system_coeffs F G f0 g0 N x0).1 !! k
            ∧ (system_coeffs F G f0 g0 N' x0).2 !! k
              = (system_coeffs F G f0 g0 N x0).2 !! k) as Hsys.
  { intros F G f0 g0 x0 k Hk. rewrite !system_coeffs_zip. cbn [fst snd].
    rewrite <- (system_start_take f0 g0 N N') by lia.
    rewrite <- (rec_run_causal 1 _ (N' + 1) _ N N') by lia.
    by rewrite !list_lookup_fmap, lookup_take_lt by lia. }
  split; [|split; [|split; [|split; [done|split; [|split; [|split; [|split]]]]]]].
  - intros F y0 x0 HF. rewrite !first_order_coeffs_keyed by done.
    eexists _, _. split; [done|]. split; [done|]. intros k Hk.
    by apply Hfirst.
  - intros m G ics x0 HG Hkeys. rewrite !nth_order_coeffs_keyed by done.
    destruct (Hnth m G ics x0 Hkeys) as (a' & a & -> & -> & _ & _ & Hk).
    by exists a', a.
  - intros m G ics x0 Hk%keys_within_not_iff.
    split; [by apply nth_order_coeffs_IndexError
           | by apply series_nth_order_IndexError].
  - intros F y0 HF. rewrite !series_first_order_keyed by done.
    eexists _, _. split; [done|]. split; [done|]. intros k Hk.
    rewrite !first_order_returned_coeff.
    by rewrite (coeff_or_zero_lookup _ _ k (Hfirst F y0 0%Q k Hk)).
  - intros m G ics HG Hkeys. rewrite !series_nth_order_keyed by done.
    destruct (Hnth m G ics 0%Q Hkeys) as (a' & a & Ha' & Ha & Hl' & Hl & Hk).
    destruct (nth_order_returned_coeff m G ics N' a' Ha' Hl')
      as (r' & -> & Hc').
    destruct (nth_order_returned_coeff m G ics N a Ha Hl) as (r & -> & Hc).
    exists r', r. split; [done|]. split; [done|].
    intros k Hle. rewrite Hc', Hc. unfold coeff. by rewrite Hk.
  - intros F G f0 g0 k Hk.
    destruct (system_returned_coeff F G f0 g0 N' k) as [-> ->].
    destruct (system_returned_coeff F G f0 g0 N k) as [-> ->].
    destruct (Hsys F G f0 g0 0%Q k Hk) as [Hf Hg].
    by rewrite (coeff_or_zero_lookup _ _ k Hf), (coeff_or_zero_lookup _ _ k Hg).
  - vm_compute. reflexivity.
  - vm_compute. reflexivity.
Qed.

Lemma C5_causality_witness :
  (∃ a' a, first_order_coeffs yx 1 2 0 = Returned a'
           ∧ first_order_coeffs yx 1 6 0 = Returned a
           ∧ a' !! 2 = a !! 2)
  ∧ nth_order_coeffs 3 (Add X yx) {[ 0 := 1%Q; 1 := 0%Q; 2 := 0%Q ]} 1 0
    = Raised IndexError.
Proof.
  destruct (C5_causality 1 5) as (_ & _ & Hraise & _); [lia|].
  destruct (C5_causality 2 6) as (H1 & _); [lia|].
  split.
  - destruct (H1 yx 1%Q 0%Q) as (a' & a & Ha' & Ha & Hk); [reflexivity|].
    exists a', a. split; [done|]. split; [done|]. apply Hk. lia.
  - apply Hraise. exists 2. split; [by eexists | lia].
Defined.

(** C6, as the code has it.  The solver has no check of the initial
    conditions: when [ics] omits a derivative order [k < m] (with
    [m - 1 <= N]) the call does not fail for that; it ends as it ends
    when [ics] maps [k] to zero, with the same list of coefficients and
    the same returned series. *)
Theorem C6_missing_entry_is_zero (m N : nat) (G : Expr yatom)
    (ics : gmap nat Q) (x0 : Q) (k : nat) :
  k < m → m - 1 ≤ N → ics !! k = None →
  nth_order_coeffs m G ics N x0
  = nth_order_coeffs m G (<[k := 0%Q]> ics) N x0
  ∧ series_nth_order m G ics N x0
    = series_nth_order m G (<[k := 0%Q]> ics) N x0.
Proof.
  intros Hk HN Hnone.
  assert (nth_order_coeffs m G ics N x0
          = nth_order_coeffs m G (<[k := 0%Q]> ics) N x0) as Hc.
  { rewrite !nth_order_coeffs_cases. unfold nth_order_run.
    rewrite ics_list_insert_zero by done.
    destruct (decide (keys_within N ics)) as [Hin|Hout].
    - rewrite decide_True; [done|].
      apply keys_within_insert_fresh; [done | lia | done].
    - rewrite decide_False; [done|].
      intros Hin. apply Hout.
      apply keys_within_insert_fresh in Hin; [done | done | lia]. }
  split; [done|]. unfold series_nth_order. by rewrite Hc.
Qed.

Lemma C6_missing_entry_is_zero_witness :
  series_nth_order 2 (neg yx) (<[1 := 0%Q]> {[ 0 := 1%Q ]}) 2 0
  = Returned [1; 0; -1 # 2]%Q.
Proof.
  destruct (C6_missing_entry_is_zero 2 2 (neg yx) {[ 0 := 1%Q ]} 0 1)
    as [_ <-].
  - lia.
  - simpl. lia.
  - reflexivity.
  - vm_compute. reflexivity.
Defined.

(** C6, as stated, fails: with [m = 2] and [ics = {0: 1}] (the entry for
    [y'(0)] missing) the call for [y'' = -y] at order 2 raises nothing;
    it returns [1 - x^2/2], the series of [y(0) = 1], [y'(0) = 0]. *)
Lemma C6_counterexample :
  ¬ (∀ (m N : nat) (G : Expr yatom) (ics : gmap nat Q) (x0 : Q) (k : nat),
       k < m → ics !! k = None →
       ∃ e, series_nth_order m G ics N x0 = Raised e).
Proof.
  intros H.
  destruct (H 2 2 (neg yx) {[ 0 := 1%Q ]} 0%Q 1) as [e He];
    [lia | reflexivity |].
  assert (series_nth_order 2 (neg yx) {[ 0 := 1%Q ]} 2 0
          = Returned [1; 0; -1 # 2]%Q) as Hrun by (vm_compute; reflexivity).
  rewrite He in Hrun. discriminate.
Qed.

(** C7, on the code.  With a complete set of initial conditions and
    [N < m - 1], the initialisation writes [a[m - 1]] in a list of
    [N + 1 < m] entries: the call raises [IndexError] instead of
    returning the initial conditions as a shorter polynomial. *)
Theorem C7_short_order_raises (m N : nat) (G : Expr yatom)
    (ics : gmap nat Q) (x0 : Q) :
  N + 1 < m → (∀ k, k < m → is_Some (ics !! k)) →
  series_nth_order m G ics N x0 = Raised IndexError.
Proof.
  intros HN Hdom. apply series_nth_order_IndexError.
  intros Hin. destruct (Hdom (m - 1)) as [v Hv]; [lia|].
  specialize (Hin (m - 1) v Hv). simpl in Hin. lia.
Qed.

Lemma C7_short_order_raises_witness :
  series_nth_order 3 (Num 0) {[ 0 := 1%Q; 1 := 2%Q; 2 := 3%Q ]} 1 0
  = Raised IndexError.
Proof.
  apply (C7_short_order_raises 3 1).
  - lia.
  - intros [|[|[|k]]] Hk; [by eexists.. | lia].
Defined.

(** C8. Initial values.  For every solver the coefficient of degree 0
    of the series a call returns is the supplied initial value (so the
    returned expression takes that value at [x0]), and for the
    m-th-order solver, on a complete set of initial conditions with
    [m - 1 <= N], each coefficient of degree [k < m] is the supplied
    [ics[k]]; no pass of a recurrence writes these entries: a pass
    writes the index [n + 1], respectively [n + m].  This holds of
    whatever list a scalar solver returns; and it returns one when the
    unknowns of the right-hand side are keys of its dictionary. *)
Theorem C8_initial_values :
  (∀ F y0 N x0,
     (sympify y0 == y0)%Q
     ∧ (∀ a, first_order_coeffs F y0 N x0 = Returned a →
          a !! 0 = Some (Some (sympify y0)))
     ∧ (keyed 1 F = true →
        ∃ a r, first_order_coeffs F y0 N x0 = Returned a
               ∧ series_first_order F y0 N x0 = Returned r
               ∧ a !! 0 = Some (Some (sympify y0))
               ∧ (peval r x0 == y0)%Q)
     ∧ ∀ a n a', first_order_step F x0 a n = Returned a' →
                 a' !! 0 = a !! 0) ∧
  (∀ F G f0 g0 N x0,
     (system_coeffs F G f0 g0 N x0).1 !! 0 = Some (Some (sympify f0))
     ∧ (system_coeffs F G f0 g0 N x0).2 !! 0 = Some (Some (sympify g0))
     ∧ (peval (series_system_2x2 F G f0 g0 N x0).1 x0 == f0)%Q
     ∧ (peval (series_system_2x2 F G f0 g0 N x0).2 x0 == g0)%Q
     ∧ ∀ s n, (system_step F G x0 s n).1 !! 0 = s.1 !! 0
              ∧ (system_step F G x0 s n).2 !! 0 = s.2 !! 0) ∧
  (∀ m G (ics : gmap nat Q) N x0,
     1 ≤ m → m - 1 ≤ N → (∀ k, is_Some (ics !! k) ↔ k < m) →
     (∀ a, nth_order_coeffs m G ics N x0 = Returned a →
        ∀ k v, ics !! k = Some v →
               a !! k = Some (sympify v) ∧ (sympify v == v)%Q)
     ∧ (keyed m G = true →
        ∃ a r, nth_order_coeffs m G ics N x0 = Returned a
               ∧ series_nth_order m G ics N x0 = Returned r
               ∧ (∀ k v, ics !! k = Some v →
                    a !! k = Some (sympify v) ∧ (sympify v == v)%Q)
               ∧ (∀ v, ics !! 0 = Some v → (peval r x0 == v)%Q))
     ∧ ∀ a n a' k, k < m →
         nth_order_step m G N x0 a n = Returned a' → a' !! k = a !! k).
Proof.
  split; [|split].
  - intros F y0 N x0.
    pose proof (first_order_run_0 F x0 y0 N) as H0.
    split; [apply sympify_Qeq|]. split; [|split].
    + by intros a ->%first_order_coeffs_Returned.
    + intros HF. eexists _, _.
      split; [by apply first_order_coeffs_keyed|].
      split; [by apply series_first_order_keyed|]. split; [done|].
      unfold first_order_poly. apply returned_value_at_x0.
      unfold coeff. rewrite list_lookup_fmap, lookup_take_lt, H0 by lia.
      apply sympify_Qeq.
    + intros a n a'. unfold first_order_step.
      destruct (subs_with _ F); [|done]. intros [= <-].
      by rewrite list_lookup_insert_ne by lia.
  - intros F G f0 g0 N x0.
    destruct (system_coeffs_0 F G x0 f0 g0 N) as [Hf Hg].
    split; [done|]. split; [done|].
    unfold series_system_2x2.
    destruct (system_coeffs F G f0 g0 N x0) as [af ag]. cbn [fst snd] in *.
    split; [|split].
    + apply returned_value_at_x0. unfold coeff.
      rewrite list_lookup_fmap, lookup_take_lt, Hf by lia. apply sympify_Qeq.
    + apply returned_value_at_x0. unfold coeff.
      rewrite list_lookup_fmap, lookup_take_lt, Hg by lia. apply sympify_Qeq.
    + intros [bf bg] n. unfold system_step. cbn [fst snd].
      by rewrite !list_lookup_insert_ne by lia.
  - intros m G ics N x0 Hm HN Hdom.
    assert (keys_within N ics) as Hk
      by (apply (complete_keys_within ics m); [done | lia]).
    assert (∀ k v, ics !! k = Some v →
              rec_run m (nth_order_next m G x0) (ics_list ics N)
                (N + 1 - m) !! k = Some (sympify v)) as Hlow.
    { intros k v Hkv. assert (k < m) by (apply Hdom; eauto).
      rewrite rec_run_low, ics_list_lookup by lia. by rewrite Hkv. }
    split; [|split].
    + intros a [_ ->]%nth_order_coeffs_Returned%nth_order_run_inv k v Hkv.
      split; [by apply Hlow | apply sympify_Qeq].
    + intros HG. rewrite series_nth_order_keyed, nth_order_coeffs_keyed
        by done.
      unfold nth_order_poly. rewrite nth_order_run_Some by done. simpl.
      eexists _, _. split; [done|]. split; [done|]. split.
      * intros k v Hkv. split; [by apply Hlow | apply sympify_Qeq].
      * intros v Hv. apply returned_value_at_x0. unfold coeff.
        rewrite lookup_take_lt, (Hlow 0 v) by (done || lia).
        apply sympify_Qeq.
    + intros a n a' k Hk'. unfold nth_order_step.
      destruct (subs_with _ G); [|done]. intros [= <-].
      by rewrite list_lookup_insert_ne by lia.
Qed.

Lemma C8_initial_values_witness :
  ∃ a, nth_order_coeffs 2 (neg yx) {[ 0 := 1%Q; 1 := 2%Q ]} 6 0 = Returned a
       ∧ a !! 1 = Some 2%Q.
Proof.
  destruct C8_initial_values as (_ & _ & Hnth).
  destruct (Hnth 2 (neg yx) {[ 0 := 1%Q; 1 := 2%Q ]} 6 0%Q)
    as (_ & Hret & _).
  - lia.
  - simpl. lia.
  - intros [|[|k]]; (split; [intros [v Hv] | intros Hlt]);
      try lia; try (by eexists).
    rewrite lookup_insert_ne, lookup_singleton_ne in Hv by lia. discriminate.
  - destruct Hret as (a & r & Ha & _ & Hlow & _); [reflexivity|].
    exists a. split; [done|].
    destruct (Hlow 1 2%Q) as [H1 _]; [reflexivity|]. exact H1.
Defined.

(** C9. With [m = 1] and the single initial condition [{0: y0}], the
    m-th-order solver ends exactly as the first-order solver on the
    same [F], [y0], [N] and [x0]: it returns the same series. *)
Theorem C9_order_one_is_first_order (F : Expr yatom) (y0 x0 : Q) (N : nat) :
  series_nth_order 1 F {[ 0 := y0 ]} N x0 = series_first_order F y0 N x0.
Proof.
  rewrite series_nth_order_cases, series_first_order_cases.
  assert (nth_order_poly 1 F {[ 0 := y0 ]} N x0
          = Some (first_order_poly F y0 N x0)) as ->.
  { unfold nth_order_poly, first_order_poly.
    rewrite nth_order_run_Some by (apply map_Forall_singleton; lia).
    simpl. rewrite fmap_take, first_order_run_rec.
    rewrite (rec_run_fmap or_zero 1 _ (nth_order_next 1 F x0))
      by apply first_order_next_as_nth.
    rewrite first_order_start_as_nth.
    by replace (N + 1 - 1) with N by lia. }
  by rewrite (bool_decide_ext (N + 1 ≤ 1) (N = 0)) by lia.
Qed.

(** C10. In the first-order solver the unknown may be written as the
    applied function [y(x)] or as the bare symbol [y]: both are replaced
    by the same partial series at every pass, so rewriting [F] from one
    form to the other leaves the returned series unchanged.  The
    m-th-order solver has the same two entries in its dictionary. *)
Theorem C10_bare_symbol_is_unknown (F : Expr yatom) (y0 x0 : Q) (N : nat) :
  series_first_order (bare_to_applied F) y0 N x0 = series_first_order F y0 N x0
  ∧ series_first_order (applied_to_bare F) y0 N x0
    = series_first_order F y0 N x0
  ∧ ∀ m ics,
      series_nth_order m (bare_to_applied F) ics N x0
      = series_nth_order m F ics N x0
      ∧ series_nth_order m (applied_to_bare F) ics N x0
        = series_nth_order m F ics N x0.
Proof.
  rewrite !series_first_order_cases.
  rewrite keyed_bare_to_applied, keyed_applied_to_bare.
  unfold first_order_poly. split; [|split].
  - by rewrite (first_order_run_ext F (bare_to_applied F))
      by (intros; apply subs_series_bare_to_applied).
  - by rewrite (first_order_run_ext F (applied_to_bare F))
      by (intros; apply subs_series_applied_to_bare).
  - intros m ics. rewrite !series_nth_order_cases.
    rewrite keyed_bare_to_applied, keyed_applied_to_bare.
    unfold nth_order_poly. split.
    + by rewrite (nth_order_run_ext m F (bare_to_applied F))
        by (intros; apply subs_series_bare_to_applied).
    + by rewrite (nth_order_run_ext m F (applied_to_bare F))
        by (intros; apply subs_series_applied_to_bare).
Qed.
(** * Part IV: further properties of the code *)

(** ** Coefficients up to a degree *)

Section Prefix.
Implicit Types (p q : Poly) (n i k : nat).
Local Open Scope Q_scope.

Lemma peq_upto_refl n p : peq_upto n p p.
Proof. intros i _. reflexivity. Qed.

Lemma peq_upto_le n n' p q : (n' ≤ n)%nat → peq_upto n p q → peq_upto n' p q.
Proof. intros Hle H i Hi. apply H. lia. Qed.

Lemma peq_upto_take n k p : (n < k)%nat → peq_upto n (take k p) p.
Proof. intros Hk i Hi. rewrite coeff_take by lia. reflexivity. Qed.

Lemma coeff_tail p i : coeff (tail p) i = coeff p (S i).
Proof. by destruct p. Qed.

Lemma peq_upto_tail n p q : peq_upto (S n) p q → peq_upto n (tail p) (tail q).
Proof. intros H i Hi. rewrite !coeff_tail. apply H. lia. Qed.

Lemma coeff_pmul_step p q i :
  coeff (pmul p q) i
  == coeff p 0 * coeff q i
     + match i with O => 0 | S j => coeff (pmul (tail p) q) j end.
Proof.
  destruct p as [|a p].
  - simpl. rewrite !coeff_nil. destruct i; [|rewrite coeff_nil]; ring.
  - simpl pmul. rewrite coeff_padd, coeff_pscale, coeff_cons_0.
    destruct i as [|j]; [rewrite coeff_cons_0 | rewrite coeff_cons_S];
      reflexivity.
Qed.

Lemma coeff_pmul_peq_l i p p' q :
  peq_upto i p p' → coeff (pmul p q) i == coeff (pmul p' q) i.
Proof.
  revert p p'. induction i as [|j IH]; intros p p' Hp.
  - rewrite (coeff_pmul_step p), (coeff_pmul_step p').
    by rewrite (Hp 0%nat) by lia.
  - rewrite (coeff_pmul_step p), (coeff_pmul_step p').
    rewrite (Hp 0%nat) by lia.
    by rewrite (IH (tail p) (tail p')) by by apply peq_upto_tail.
Qed.

Lemma coeff_pmul_peq_r p i q q' :
  peq_upto i q q' → coeff (pmul p q) i == coeff (pmul p q') i.
Proof.
  revert i. induction p as [|a p IH]; intros i Hq; [reflexivity|].
  simpl pmul. rewrite !coeff_padd, !coeff_pscale.
  rewrite (Hq i) by lia.
  destruct i as [|j]; [reflexivity|].
  rewrite !coeff_cons_S.
  by rewrite (IH j) by (eapply peq_upto_le; [|done]; lia).
Qed.

Lemma pmul_peq n p p' q q' :
  peq_upto n p p' → peq_upto n q q' → peq_upto n (pmul p q) (pmul p' q').
Proof.
  intros Hp Hq i Hi.
  rewrite (coeff_pmul_peq_l i p p' q) by (eapply peq_upto_le; [|done]; lia).
  apply coeff_pmul_peq_r. eapply peq_upto_le; [|done]. lia.
Qed.

Lemma padd_peq n p p' q q' :
  peq_upto n p p' → peq_upto n q q' → peq_upto n (padd p q) (padd p' q').
Proof.
  intros Hp Hq i Hi. rewrite !coeff_padd. by rewrite (Hp i), (Hq i).
Qed.

Lemma ppow_peq n p p' k : peq_upto n p p' → peq_upto n (ppow p k) (ppow p' k).
Proof.
  intros Hp. induction k as [|k IH]; [apply peq_upto_refl|].
  simpl. by apply pmul_peq.
Qed.

(** The coefficient of [t^n] of a substituted right-hand side depends on
    the replacements up to degree [n] only. *)
Lemma subs_peq {A} n (on_x on_x' : Poly) (f f' : A → Poly) (e : Expr A) :
  peq_upto n on_x on_x' → (∀ a, peq_upto n (f a) (f' a)) →
  peq_upto n (subs on_x f e) (subs on_x' f' e).
Proof.
  intros Hx Hf.
  induction e as [c| |a|e1 IH1 e2 IH2|e1 IH1 e2 IH2|e1 IH1 k]; simpl.
  - apply peq_upto_refl.
  - done.
  - apply Hf.
  - by apply padd_peq.
  - by apply pmul_peq.
  - by apply ppow_peq.
Qed.

Lemma coeff_diff1 p i : coeff (diff1 p) i == inject_Z (Z.of_nat (S i)) * coeff p (S i).
Proof.
  unfold diff1. rewrite <- coeff_tail. unfold coeff.
  rewrite list_lookup_imap. destruct (tail p !! i); simpl; [reflexivity | ring].
Qed.

Lemma factorial_S n : factorial (S n) == inject_Z (Z.of_nat (S n)) * factorial n.
Proof.
  unfold factorial. rewrite <- inject_Z_mult, <- Nat2Z.inj_mul. reflexivity.
Qed.

Lemma coeff_diff p k i :
  coeff (diff p k) i == factorial (i + k) / factorial i * coeff p (i + k).
Proof.
  revert i. induction k as [|k IH]; intros i.
  - unfold diff. simpl. rewrite Nat.add_0_r. field. apply factorial_nonzero.
  - change (diff p (S k)) with (diff1 (diff p k)).
    rewrite coeff_diff1, IH.
    replace (i + S k)%nat with (S i + k)%nat by lia.
    rewrite (factorial_S i). field.
    split; [apply factorial_nonzero|].
    unfold Qeq. simpl. lia.
Qed.

Lemma diff_peq n k p q : peq_upto (n + k) p q → peq_upto n (diff p k) (diff q k).
Proof.
  intros H i Hi. rewrite !coeff_diff. by rewrite (H (i + k)%nat) by lia.
Qed.

End Prefix.

(** ** The returned series satisfy their equations *)

Lemma y_derivs_peq n m (Y Y' : Poly) (a : yatom) :
  keyed m (Atom a) = true → peq_upto (n + (m - 1)) Y Y' →
  peq_upto n (y_derivs Y a) (y_derivs Y' a).
Proof.
  intros Ha HY. destruct a as [|k]; cbn [y_derivs keyed] in *.
  - eapply peq_upto_le; [|done]. lia.
  - apply bool_decide_eq_true in Ha.
    apply diff_peq. eapply peq_upto_le; [|done]. lia.
Qed.

(** The coefficient of [t^n] of a substituted right-hand side whose
    unknowns are keys depends on the partial series up to degree
    [n + m - 1] only. *)
Lemma subs_series_peq n m x0 (Y Y' : Poly) G :
  keyed m G = true → peq_upto (n + (m - 1)) Y Y' →
  peq_upto n (subs_series x0 Y G) (subs_series x0 Y' G).
Proof.
  intros HG HY. unfold subs_series.
  induction G as [c| |a|e1 IH1 e2 IH2|e1 IH1 e2 IH2|e1 IH1 k];
    cbn [subs]; cbn [keyed] in HG.
  - apply peq_upto_refl.
  - apply peq_upto_refl.
  - by apply (y_derivs_peq n m).
  - apply andb_prop in HG as [H1 H2]. apply padd_peq; auto.
  - apply andb_prop in HG as [H1 H2]. apply pmul_peq; auto.
  - apply ppow_peq; auto.
Qed.

Lemma inject_succ_nonzero n : ¬ (inject_Z (Z.of_nat (n + 1)) == 0)%Q.
Proof. unfold Qeq. simpl. lia. Qed.

Lemma system_coeffs_next F G f0 g0 x0 N n :
  n < N →
  let af := (system_coeffs F G f0 g0 N x0).1 in
  let ag := (system_coeffs F G f0 g0 N x0).2 in
  af !! (n + 1)
  = Some (system_next_of x0 F n (take (n + 1) af) (take (n + 1) ag))
  ∧ ag !! (n + 1)
    = Some (system_next_of x0 G n (take (n + 1) af) (take (n + 1) ag)).
Proof.
  intros Hn. cbn zeta. rewrite system_coeffs_zip. cbn [fst snd].
  rewrite !list_lookup_fmap.
  rewrite rec_run_lookup by (rewrite ?system_start_length; lia).
  rewrite <- !fmap_take. done.
Qed.

Lemma first_order_coeff_next F y0 x0 N n :
  n < N →
  let Y := or_zero <$> first_order_run F y0 N x0 in
  (coeff Y (n + 1)
   == coeff (subs_series x0 (take (n + 1) Y) F) n
      / inject_Z (Z.of_nat (n + 1)))%Q.
Proof.
  intros Hn Y. unfold Y at 1, coeff at 1.
  rewrite list_lookup_fmap, first_order_run_next by done.
  unfold first_order_next. cbn [fmap option_fmap option_map default or_zero].
  unfold simplify. rewrite Qred_correct, coeff_truncated.
  rewrite fmap_take. reflexivity.
Qed.

Lemma first_order_run_solves F y0 x0 N n :
  keyed 1 F = true → n < N →
  let Y := or_zero <$> first_order_run F y0 N x0 in
  (coeff (diff Y 1) n == coeff (subs_series x0 Y F) n)%Q.
Proof.
  intros HF Hn Y. rewrite coeff_diff.
  unfold Y at 1. rewrite first_order_coeff_next by done. fold Y.
  rewrite (subs_series_peq n 1 x0 (take (n + 1) Y) Y F HF
             ltac:(apply peq_upto_take; lia) n) by lia.
  rewrite <- factorial_ratio_1. field. apply inject_succ_nonzero.
Qed.

(** X1. The series of the first-order solver satisfies [y' = F(x, y)]
    up to the order it was asked for: for [n < N] the coefficient of
    [t^n] of the derivative of the series is the coefficient of [t^n] of
    [F] with [x0 + t] for [x] and the whole series for the unknown. *)
Theorem X1_first_order_solves (F : Expr yatom) (y0 x0 : Q) (N n : nat) :
  keyed 1 F = true → n < N →
  ∃ a, first_order_coeffs F y0 N x0 = Returned a
       ∧ let Y := or_zero <$> a in
         ∃ F_Y,
           subs_with (mkSubsMap [x0; 1%Q] Y {[ 0%nat := Y ]}) F = Some F_Y
           ∧ (coeff (diff Y 1) n == coeff F_Y n)%Q.
Proof.
  intros HF Hn. eexists. split; [by apply first_order_coeffs_keyed|].
  cbn zeta. eexists. split; [by apply first_order_subs_keyed|].
  by apply first_order_run_solves.
Qed.

Lemma X1_first_order_solves_witness :
  ∃ a, first_order_coeffs (Add X (Pow yx 2)) 1 3 0 = Returned a
       ∧ let Y := or_zero <$> a in
         ∃ F_Y,
           subs_with (mkSubsMap [0%Q; 1%Q] Y {[ 0%nat := Y ]})
             (Add X (Pow yx 2)) = Some F_Y
           ∧ (coeff (diff Y 1) 2 == coeff F_Y 2)%Q.
Proof.
  apply (X1_first_order_solves (Add X (Pow yx 2)) 1 0 3 2);
    [reflexivity | lia].
Defined.

Lemma nth_order_coeff_next m G ics x0 N a n :
  nth_order_run m G ics N x0 = Some a → n + m ≤ N →
  (coeff a (n + m)
   == coeff (subs_series x0 (take (n + m) a) G) n
      / (factorial (n + m) / factorial n))%Q.
Proof.
  intros [_ Ha]%nth_order_run_inv Hn.
  unfold coeff at 1. rewrite Ha at 1.
  rewrite rec_run_lookup by (rewrite ?ics_list_length; lia).
  rewrite <- Ha. unfold nth_order_next, simplify. cbn [default].
  by rewrite Qred_correct, coeff_truncated.
Qed.

Lemma nth_order_run_solves m G ics x0 N a n :
  1 ≤ m → keyed m G = true →
  nth_order_run m G ics N x0 = Some a → n + m ≤ N →
  (coeff (diff a m) n == coeff (subs_series x0 a G) n)%Q.
Proof.
  intros Hm HG Ha Hn. rewrite coeff_diff.
  rewrite (nth_order_coeff_next m G ics x0 N a n) by done.
  rewrite (subs_series_peq n m x0 (take (n + m) a) a G HG
             ltac:(apply peq_upto_take; lia) n) by lia.
  field. split; apply factorial_nonzero.
Qed.

(** X2. When the m-th-order solver returns ([m >= 1], the unknowns of
    [G] keys of its dictionary), its series satisfies the equation up
    to the order asked for: for [n + m <= N] the coefficient of [t^n]
    of the m-th derivative of the series is the coefficient of [t^n] of
    [G] under the dictionary the code builds, taken on the whole
    series. *)
Theorem X2_nth_order_solves (m N n : nat) (G : Expr yatom)
    (ics : gmap nat Q) (x0 : Q) (a : list Q) :
  1 ≤ m → keyed m G = true →
  nth_order_coeffs m G ics N x0 = Returned a → n + m ≤ N →
  ∃ G_a, subs_with (nth_order_subs_map m x0 a) G = Some G_a
         ∧ (coeff (diff a m) n == coeff G_a n)%Q.
Proof.
  intros Hm HG Ha%nth_order_coeffs_Returned Hn. eexists.
  split; [by apply nth_order_subs_keyed|].
  by apply (nth_order_run_solves m G ics x0 N).
Qed.

Lemma X2_nth_order_solves_witness :
  ∃ G_a, subs_with (nth_order_subs_map 3 0 [1; 0; 0; 1 # 6; 1 # 24; 0]%Q)
           (Add X yx) = Some G_a
         ∧ (coeff (diff [1; 0; 0; 1 # 6; 1 # 24; 0] 3) 1 == coeff G_a 1)%Q.
Proof.
  apply (X2_nth_order_solves 3 5 1 (Add X yx)
           {[ 0%nat := 1%Q; 1%nat := 0%Q; 2%nat := 0%Q ]} 0).
  - lia.
  - reflexivity.
  - vm_compute. reflexivity.
  - lia.
Defined.
Lemma system_coeff_next F G f0 g0 x0 N n :
  n < N →
  let Ff := or_zero <$> (system_coeffs F G f0 g0 N x0).1 in
  let Gf := or_zero <$> (system_coeffs F G f0 g0 N x0).2 in
  (coeff Ff (n + 1)
   == coeff (system_subs x0 (take (n + 1) Ff) (take (n + 1) Gf) F) n
      / inject_Z (Z.of_nat (n + 1)))%Q
  ∧ (coeff Gf (n + 1)
     == coeff (system_subs x0 (take (n + 1) Ff) (take (n + 1) Gf) G) n
        / inject_Z (Z.of_nat (n + 1)))%Q.
Proof.
  intros Hn Ff Gf.
  destruct (system_coeffs_next F G f0 g0 x0 N n Hn) as [Hf Hg].
  split.
  - unfold Ff at 1, coeff at 1. rewrite list_lookup_fmap, Hf.
    unfold system_next_of, simplify.
    cbn [fmap option_fmap option_map default or_zero].
    by rewrite Qred_correct, coeff_truncated, !fmap_take.
  - unfold Gf at 1, coeff at 1. rewrite list_lookup_fmap, Hg.
    unfold system_next_of, simplify.
    cbn [fmap option_fmap option_map default or_zero].
    by rewrite Qred_correct, coeff_truncated, !fmap_take.
Qed.

Lemma system_subs_peq n x0 (Fn Fn' Gn Gn' : Poly) E :
  peq_upto n Fn Fn' → peq_upto n Gn Gn' →
  (coeff (system_subs x0 Fn Gn E) n == coeff (system_subs x0 Fn' Gn' E) n)%Q.
Proof.
  intros HF HG. unfold system_subs.
  apply (subs_peq n); [apply peq_upto_refl | | lia].
  by intros [|].
Qed.

(** X3. The two series of the system solver satisfy [f' = F(x, f, g)]
    and [g' = G(x, f, g)] up to the order asked for. *)
Theorem X3_system_solves (F G : Expr fgatom) (f0 g0 x0 : Q) (N n : nat) :
  n < N →
  let Ff := or_zero <$> (system_coeffs F G f0 g0 N x0).1 in
  let Gf := or_zero <$> (system_coeffs F G f0 g0 N x0).2 in
  (coeff (diff Ff 1) n == coeff (system_subs x0 Ff Gf F) n)%Q
  ∧ (coeff (diff Gf 1) n == coeff (system_subs x0 Ff Gf G) n)%Q.
Proof.
  intros Hn Ff Gf.
  destruct (system_coeff_next F G f0 g0 x0 N n Hn) as [Hf Hg].
  fold Ff Gf in Hf, Hg.
  assert (∀ E, coeff (system_subs x0 (take (n + 1) Ff) (take (n + 1) Gf) E) n
               == coeff (system_subs x0 Ff Gf E) n)%Q as Hsub.
  { intros E. apply system_subs_peq; apply peq_upto_take; lia. }
  rewrite !coeff_diff, Hf, Hg, !Hsub, <- !factorial_ratio_1.
  split; field; apply inject_succ_nonzero.
Qed.

Lemma X3_system_solves_witness :
  let Ff := or_zero <$> (system_coeffs (Mul fx gx) (neg fx) 1 1 4 0).1 in
  let Gf := or_zero <$> (system_coeffs (Mul fx gx) (neg fx) 1 1 4 0).2 in
  (coeff (diff Ff 1) 3 == coeff (system_subs 0 Ff Gf (Mul fx gx)) 3)%Q
  ∧ (coeff (diff Gf 1) 3 == coeff (system_subs 0 Ff Gf (neg fx)) 3)%Q.
Proof. apply (X3_system_solves (Mul fx gx) (neg fx) 1 1 0 4 3). lia. Defined.

(** ** The initial conditions of the m-th-order solver *)

Section Overwrite.
Context {T : Type}.
Variable m : nat.
Variable g : nat → list T → T.
Implicit Types (a : list T) (k cnt : nat) (w : T).

(** An entry beyond the indices the passes write stays as it is. *)
Lemma rec_run_insert_high a cnt k w :
  m + cnt ≤ k → rec_run m g (<[k := w]> a) cnt = <[k := w]> (rec_run m g a cnt).
Proof.
  intros Hk. induction cnt as [|cnt IH]; [done|].
  rewrite !rec_run_S, IH by lia. unfold rec_step.
  rewrite take_insert_ge by lia.
  by rewrite list_insert_insert_ne by lia.
Qed.

(** An entry at an index some pass writes is never read before it is
    overwritten. *)
Lemma rec_run_overwrite a cnt k w :
  m ≤ k < m + cnt → rec_run m g (<[k := w]> a) cnt = rec_run m g a cnt.
Proof.
  intros Hk. induction cnt as [|cnt IH]; [lia|].
  rewrite !rec_run_S.
  destruct (decide (k < m + cnt)) as [Hlt|Hge]; [by rewrite IH by lia|].
  rewrite rec_run_insert_high by lia. unfold rec_step.
  replace (cnt + m) with k by lia.
  rewrite take_insert_ge by lia.
  by rewrite list_insert_insert_eq.
Qed.

End Overwrite.
Lemma ics_list_insert (ics : gmap nat Q) N k v :
  ics_list (<[k := v]> ics) N = <[k := sympify v]> (ics_list ics N).
Proof.
  apply list_eq. intros i.
  destruct (decide (i ≤ N)) as [Hi|Hi].
  - rewrite ics_list_lookup by done.
    destruct (decide (i = k)) as [->|Hne].
    + rewrite lookup_insert_eq.
      by rewrite list_lookup_insert_eq by (rewrite ics_list_length; lia).
    + rewrite lookup_insert_ne by done.
      rewrite list_lookup_insert_ne by done.
      by rewrite ics_list_lookup by done.
  - rewrite !(lookup_ge_None_2 _ i); [done | |];
      rewrite ?length_insert, ics_list_length; lia.
Qed.

Lemma keys_within_insert (ics : gmap nat Q) N k v :
  k ≤ N → keys_within N (<[k := v]> ics) ↔ keys_within N ics.
Proof.
  intros Hk. unfold keys_within. split.
  - intros H i x Hix. destruct (decide (i = k)) as [->|Hne]; [done|].
    apply (H i x). by rewrite lookup_insert_ne.
  - intros H i x Hix. destruct (decide (i = k)) as [->|Hne]; [done|].
    apply (H i x). by rewrite lookup_insert_ne in Hix.
Qed.

(** X4. The m-th-order solver raises the [IndexError] of the
    initialisation whenever some supplied derivative order exceeds the
    truncation order, whatever [m] and [G] are; on a right-hand side
    whose unknowns are keys of the dictionary that is the only way it
    fails: in every other case it returns a series. *)
Theorem X4_nth_order_fails_iff (m N : nat) (G : Expr yatom)
    (ics : gmap nat Q) (x0 : Q) :
  ((∃ k, is_Some (ics !! k) ∧ N < k) →
   series_nth_order m G ics N x0 = Raised IndexError)
  ∧ (keyed m G = true →
     (series_nth_order m G ics N x0 = Raised IndexError
      ↔ ∃ k, is_Some (ics !! k) ∧ N < k)
     ∧ ((∀ k, is_Some (ics !! k) → k ≤ N) →
        ∃ r, series_nth_order m G ics N x0 = Returned r)).
Proof.
  split.
  - intros Hk%keys_within_not_iff. by apply series_nth_order_IndexError.
  - intros HG. rewrite series_nth_order_keyed by done.
    unfold nth_order_poly, nth_order_run.
    destruct (decide (keys_within N ics)) as [Hin|Hout]; simpl.
    + split; [|by eexists]. split; [done|].
      intros Hk%keys_within_not_iff. done.
    + split; [split; [by rewrite <- keys_within_not_iff | done]|].
      intros Hall. exfalso. apply Hout. intros k v Hv. apply Hall. eauto.
Qed.

(** X5. An initial condition for a derivative order [k] with
    [m <= k <= N] has no effect: the entry it writes is overwritten by
    pass [k - m] before any pass reads it, so the call ends as it ends
    without it. *)
Theorem X5_extra_condition_ignored (m N : nat) (G : Expr yatom)
    (ics : gmap nat Q) (x0 : Q) (k : nat) (v : Q) :
  m ≤ k → k ≤ N →
  series_nth_order m G (<[k := v]> ics) N x0 = series_nth_order m G ics N x0.
Proof.
  intros Hm HN. rewrite !series_nth_order_cases.
  unfold nth_order_poly, nth_order_run.
  rewrite ics_list_insert, rec_run_overwrite by lia.
  destruct (decide (keys_within N ics)) as [Hin|Hout].
  - by rewrite decide_True by by apply keys_within_insert.
  - rewrite decide_False; [done|]. by rewrite keys_within_insert.
Qed.

Lemma X5_extra_condition_ignored_witness :
  series_nth_order 2 (neg yx) (<[3 := 7%Q]> {[ 0 := 1%Q; 1 := 0%Q ]}) 6 0
  = Returned [1; 0; -1 # 2; 0; 1 # 24; 0; -1 # 720]%Q.
Proof.
  rewrite X5_extra_condition_ignored; [|lia..].
  vm_compute. reflexivity.
Defined.

(** X6. When the truncation order is below [m] no pass of the
    recurrence runs: if every supplied derivative order is at most [N],
    the call returns, and the coefficients are the supplied values,
    zero where none was supplied, whatever the right-hand side is. *)
Theorem X6_short_order_returns_ics (m N : nat) (G : Expr yatom)
    (ics : gmap nat Q) (x0 : Q) :
  N < m → (∀ k, is_Some (ics !! k) → k ≤ N) →
  ∃ a, nth_order_coeffs m G ics N x0 = Returned a
       ∧ length a = N + 1
       ∧ (∀ i, i ≤ N → a !! i = Some (default 0%Q (sympify <$> ics !! i)))
       ∧ series_nth_order m G ics N x0
         = Returned (expand (compose a [(- x0)%Q; 1%Q])).
Proof.
  intros Hm Hkeys.
  assert (keys_within N ics) as Hk by (intros k v Hv; apply Hkeys; eauto).
  assert (nth_order_coeffs m G ics N x0 = Returned (ics_list ics N)) as Hc.
  { rewrite nth_order_coeffs_cases, nth_order_run_Some by done.
    replace (N + 1 - m) with 0 by lia.
    rewrite bool_decide_eq_true_2 by lia.
    by rewrite orb_true_r. }
  exists (ics_list ics N). split; [done|].
  split; [apply ics_list_length|]. split; [apply ics_list_lookup|].
  unfold series_nth_order. rewrite Hc. cbn [mbind outcome_bind].
  by rewrite take_ge by (rewrite ics_list_length; lia).
Qed.

Lemma X6_short_order_returns_ics_witness :
  ∃ a, nth_order_coeffs 3 (Add X yx) {[ 0 := 1 # 2; 1 := 2%Q ]} 1 0
       = Returned a
       ∧ length a = 1 + 1
       ∧ (∀ i, i ≤ 1 →
            a !! i = Some (default 0%Q
                             (sympify <$> ({[ 0 := 1 # 2; 1 := 2%Q ]}
                                             : gmap nat Q) !! i)))
       ∧ series_nth_order 3 (Add X yx) {[ 0 := 1 # 2; 1 := 2%Q ]} 1 0
         = Returned (expand (compose a [(- 0)%Q; 1%Q])).
Proof.
  apply X6_short_order_returns_ics; [lia|].
  intros [|[|k]] [v Hv]; [lia | lia |].
  rewrite lookup_insert_ne, lookup_singleton_ne in Hv by lia. discriminate.
Defined.

(** ** The series is determined by the equation *)

Lemma first_order_determined (F : Expr yatom) (y0 x0 : Q) (N : nat)
    (b : Poly) :
  keyed 1 F = true →
  (coeff b 0 == y0)%Q →
  (∀ n, n < N →
     (coeff (diff b 1) n == coeff (subs_series x0 b F) n)%Q) →
  ∀ k, k ≤ N →
    (coeff b k == coeff (or_zero <$> first_order_run F y0 N x0) k)%Q.
Proof.
  intros HF H0 Hode.
  set (Y := or_zero <$> first_order_run F y0 N x0).
  intros k. induction k as [k IH] using lt_wf_ind. intros Hk.
  destruct k as [|n].
  - rewrite H0. unfold Y, coeff.
    rewrite list_lookup_fmap, first_order_run_0. simpl.
    symmetry. apply sympify_Qeq.
  - assert (peq_upto (n + (1 - 1)) b (take (n + 1) Y)) as Hpre.
    { intros i Hi. rewrite coeff_take by lia. apply IH; lia. }
    pose proof (Hode n ltac:(lia)) as Hn.
    rewrite coeff_diff, (subs_series_peq n 1 x0 b (take (n + 1) Y) F HF Hpre n)
      in Hn by lia.
    replace (S n) with (n + 1) by lia.
    unfold Y. rewrite first_order_coeff_next by lia. fold Y.
    rewrite <- Hn, <- factorial_ratio_1. field. apply inject_succ_nonzero.
Qed.

(** X7. The first-order solver computes the only truncated series there
    is: a polynomial [b] with the initial value as its constant term
    that satisfies [y' = F(x, y)] up to order [N] ([F_b] being [F] with
    [x0 + t] for [x] and [b] for the unknown) has the coefficients of
    the solver's series up to degree [N]. *)
Theorem X7_first_order_unique (F : Expr yatom) (y0 x0 : Q) (N : nat)
    (b F_b : Poly) :
  keyed 1 F = true →
  (coeff b 0 == y0)%Q →
  subs_with (mkSubsMap [x0; 1%Q] b {[ 0%nat := b ]}) F = Some F_b →
  (∀ n, n < N → (coeff (diff b 1) n == coeff F_b n)%Q) →
  ∃ a, first_order_coeffs F y0 N x0 = Returned a
       ∧ ∀ k, k ≤ N → (coeff b k == coeff (or_zero <$> a) k)%Q.
Proof.
  intros HF H0 Hs Hode. rewrite first_order_subs_keyed in Hs by done.
  injection Hs as <-.
  eexists. split; [by apply first_order_coeffs_keyed|]. intros k Hk.
  by apply (first_order_determined F y0 x0 N b).
Qed.

Lemma X7_first_order_unique_witness :
  ∃ a, first_order_coeffs yx 1 2 0 = Returned a
       ∧ ∀ k, k ≤ 2 → (coeff [1; 1; 1 # 2] k == coeff (or_zero <$> a) k)%Q.
Proof.
  apply (X7_first_order_unique yx 1 0 2 [1; 1; 1 # 2]%Q [1; 1; 1 # 2]%Q).
  - reflexivity.
  - reflexivity.
  - vm_compute. reflexivity.
  - intros [|[|n]] Hn; [vm_compute; reflexivity.. | lia].
Defined.

(** X8. The m-th-order solver computes the only truncated series there
    is ([m >= 1], the unknowns of [G] keys of the dictionary): a
    polynomial [b] with the solver's first [m] coefficients that
    satisfies the equation, as the code substitutes it, up to order [N]
    has the coefficients of the solver's series up to degree [N]. *)
Theorem X8_nth_order_unique (m N : nat) (G : Expr yatom) (ics : gmap nat Q)
    (x0 : Q) (a : list Q) (b G_b : Poly) :
  1 ≤ m → keyed m G = true →
  nth_order_coeffs m G ics N x0 = Returned a →
  (∀ k, k < m → (coeff b k == coeff a k)%Q) →
  subs_with (nth_order_subs_map m x0 b) G = Some G_b →
  (∀ n, n + m ≤ N → (coeff (diff b m) n == coeff G_b n)%Q) →
  ∀ k, k ≤ N → (coeff b k == coeff a k)%Q.
Proof.
  intros Hm HG Ha%nth_order_coeffs_Returned Hlow Hs Hode k.
  rewrite nth_order_subs_keyed in Hs by done. injection Hs as <-.
  induction k as [k IH] using lt_wf_ind. intros Hk.
  destruct (decide (k < m)) as [Hlt|Hge]; [by apply Hlow|].
  assert (∃ n, k = n + m) as [n ->] by (exists (k - m); lia).
  assert (peq_upto (n + (m - 1)) b (take (n + m) a)) as Hpre.
  { intros i Hi. rewrite coeff_take by lia. apply IH; lia. }
  pose proof (Hode n ltac:(lia)) as Hn.
  rewrite coeff_diff, (subs_series_peq n m x0 b (take (n + m) a) G HG Hpre n)
    in Hn by lia.
  rewrite (nth_order_coeff_next m G ics x0 N a n) by (done || lia).
  rewrite <- Hn. field. split; apply factorial_nonzero.
Qed.

Lemma X8_nth_order_unique_witness :
  (coeff [1; 0; -2 # 4; 0; 3 # 72; 5] 4 == coeff [1; 0; -1 # 2; 0; 1 # 24] 4)%Q.
Proof.
  apply (X8_nth_order_unique 2 4 (neg yx) {[ 0%nat := 1%Q; 1%nat := 0%Q ]} 0
           [1; 0; -1 # 2; 0; 1 # 24]%Q [1; 0; -2 # 4; 0; 3 # 72; 5]%Q
           (subs_series 0 [1; 0; -2 # 4; 0; 3 # 72; 5]%Q (neg yx))).
  - lia.
  - reflexivity.
  - vm_compute. reflexivity.
  - intros [|[|k]] Hk; [reflexivity.. | lia].
  - vm_compute. reflexivity.
  - intros [|[|[|n]]] Hn; [vm_compute; reflexivity.. | lia].
  - lia.
Defined.
(** X9. The system solver computes the only pair of truncated series
    there is: two polynomials with the initial values as constant terms
    that satisfy both equations up to order [N] have the coefficients of
    the solver's series up to degree [N]. *)
Theorem X9_system_unique (F G : Expr fgatom) (f0 g0 x0 : Q) (N : nat)
    (bf bg : Poly) :
  (coeff bf 0 == f0)%Q → (coeff bg 0 == g0)%Q →
  (∀ n, n < N →
     (coeff (diff bf 1) n == coeff (system_subs x0 bf bg F) n)%Q
     ∧ (coeff (diff bg 1) n == coeff (system_subs x0 bf bg G) n)%Q) →
  ∀ k, k ≤ N →
    (coeff bf k == coeff (or_zero <$> (system_coeffs F G f0 g0 N x0).1) k)%Q
    ∧ (coeff bg k
       == coeff (or_zero <$> (system_coeffs F G f0 g0 N x0).2) k)%Q.
Proof.
  intros Hf0 Hg0 Hode.
  set (Ff := or_zero <$> (system_coeffs F G f0 g0 N x0).1).
  set (Gf := or_zero <$> (system_coeffs F G f0 g0 N x0).2).
  intros k. induction k as [k IH] using lt_wf_ind. intros Hk.
  destruct k as [|n].
  - destruct (system_coeffs_0 F G x0 f0 g0 N) as [H1 H2].
    rewrite Hf0, Hg0. unfold Ff, Gf, coeff.
    rewrite !list_lookup_fmap, H1, H2. simpl.
    split; symmetry; apply sympify_Qeq.
  - assert (peq_upto n bf (take (n + 1) Ff)) as Hpf.
    { intros i Hi. rewrite coeff_take by lia. apply IH; lia. }
    assert (peq_upto n bg (take (n + 1) Gf)) as Hpg.
    { intros i Hi. rewrite coeff_take by lia. apply IH; lia. }
    destruct (Hode n ltac:(lia)) as [Hnf Hng].
    rewrite coeff_diff,
      (system_subs_peq n x0 bf (take (n + 1) Ff) bg (take (n + 1) Gf))
      in Hnf, Hng by done.
    destruct (system_coeff_next F G f0 g0 x0 N n ltac:(lia)) as [Hf Hg].
    fold Ff Gf in Hf, Hg.
    replace (S n) with (n + 1) by lia.
    rewrite Hf, Hg, <- Hnf, <- Hng, <- !factorial_ratio_1.
    split; field; apply inject_succ_nonzero.
Qed.

Lemma X9_system_unique_witness :
  (coeff [0; 1] 1
   == coeff (or_zero <$> (system_coeffs gx (neg fx) 0 1 1 0).1) 1)%Q
  ∧ (coeff [1; 0] 1
     == coeff (or_zero <$> (system_coeffs gx (neg fx) 0 1 1 0).2) 1)%Q.
Proof.
  apply (X9_system_unique gx (neg fx) 0 1 0 1 [0; 1]%Q [1; 0]%Q).
  - reflexivity.
  - reflexivity.
  - intros [|n] Hn; [split; vm_compute; reflexivity | lia].
  - lia.
Defined.

(** ** Right-hand sides that leave the unknown out, or one of two *)

Lemma subs_unknown_free {A} (on_x : Poly) (f f' : A → Poly) (e : Expr A) :
  unknown_free e = true → subs on_x f e = subs on_x f' e.
Proof.
  induction e as [c| |a|e1 IH1 e2 IH2|e1 IH1 e2 IH2|e1 IH1 k]; simpl;
    try done.
  - intros [H1 H2]%andb_prop. by rewrite IH1, IH2.
  - intros [H1 H2]%andb_prop. by rewrite IH1, IH2.
  - intros H. by rewrite IH1.
Qed.

(** X10. Quadrature.  When the right-hand side does not mention the
    unknown, each coefficient the first-order solver computes is the
    Taylor coefficient of [F] about [x0] divided by its new degree,
    [a_{n+1} = F_n / (n + 1)], whatever the initial value; the
    m-th-order solver likewise has [a_{n+m} = G_n * n! / (n+m)!]. *)
Theorem X10_quadrature (F : Expr yatom) (x0 : Q) (N n : nat) :
  unknown_free F = true →
  let F_t := subs [x0; 1%Q] (λ _, []) F in
  (∀ y0, n < N →
     ∃ a, first_order_coeffs F y0 N x0 = Returned a
          ∧ a !! (n + 1)
            = Some (Some (simplify (coeff F_t n
                                    / inject_Z (Z.of_nat (n + 1))))))
  ∧ (∀ m ics a, nth_order_coeffs m F ics N x0 = Returned a → n + m ≤ N →
       a !! (n + m)
       = Some (simplify (coeff F_t n * factorial n / factorial (n + m)))).
Proof.
  intros HF F_t. split.
  - intros y0 Hn. eexists.
    split; [by apply first_order_coeffs_keyed, unknown_free_keyed|].
    rewrite first_order_run_next by done.
    unfold first_order_next, subs_series. do 2 f_equal.
    apply simplify_Qeq; [|reflexivity]. rewrite coeff_truncated.
    unfold F_t. by rewrite (subs_unknown_free _ _ (λ _, [])).
  - intros m ics a [_ Ha]%nth_order_coeffs_Returned%nth_order_run_inv Hn.
    rewrite Ha at 1.
    rewrite rec_run_lookup by (rewrite ?ics_list_length; lia).
    rewrite <- Ha. f_equal. unfold nth_order_next, simplify.
    apply Qred_complete. rewrite coeff_truncated. unfold subs_series.
    rewrite (subs_unknown_free _ _ (λ _, [])) by done. fold F_t.
    field. split; apply factorial_nonzero.
Qed.

Lemma X10_quadrature_witness :
  let F_t := subs [1%Q; 1%Q] (λ _ : yatom, []) (Pow X 2) in
  (∀ y0, 1 < 4 →
     ∃ a, first_order_coeffs (Pow X 2) y0 4 1 = Returned a
          ∧ a !! (1 + 1)
            = Some (Some (simplify (coeff F_t 1
                                    / inject_Z (Z.of_nat (1 + 1))))))
  ∧ (∀ m ics a, nth_order_coeffs m (Pow X 2) ics 4 1 = Returned a →
       1 + m ≤ 4 →
       a !! (1 + m)
       = Some (simplify (coeff F_t 1 * factorial 1 / factorial (1 + m)))).
Proof. apply (X10_quadrature (Pow X 2) 1 4 1). reflexivity. Defined.

Lemma system_subs_as_f x0 (Fn Gn : Poly) (F : Expr yatom) :
  applied_only F = true →
  system_subs x0 Fn Gn (as_f F) = subs_series x0 Fn F.
Proof.
  unfold system_subs, subs_series.
  induction F as [c| |[|[|k]]|e1 IH1 e2 IH2|e1 IH1 e2 IH2|e1 IH1 k]; simpl;
    try done.
  - intros [H1 H2]%andb_prop. by rewrite IH1, IH2.
  - intros [H1 H2]%andb_prop. by rewrite IH1, IH2.
  - intros H. by rewrite IH1.
Qed.

(** X11. A decoupled system.  When the first equation of a system
    mentions only its own unknown, [f' = F(x, f)], the series the system
    solver returns for [f] is the series the first-order solver returns
    for [y' = F(x, y)] with the same initial value, whatever the second
    equation is. *)
Theorem X11_decoupled_system (F : Expr yatom) (G : Expr fgatom)
    (f0 g0 x0 : Q) (N : nat) :
  applied_only F = true →
  series_first_order F f0 N x0
  = Returned (series_system_2x2 (as_f F) G f0 g0 N x0).1.
Proof.
  intros HF. rewrite series_first_order_keyed by by apply applied_only_keyed.
  f_equal. unfold series_system_2x2, first_order_poly.
  assert ((system_coeffs (as_f F) G f0 g0 N x0).1
          = first_order_run F f0 N x0) as Hco.
  { rewrite system_coeffs_zip, first_order_run_rec. cbn [fst].
    rewrite (rec_run_fmap fst 1 _ (first_order_next F x0)).
    - f_equal. unfold system_start, first_order_start.
      by rewrite list_fmap_insert, fmap_replicate.
    - intros n pre. unfold system_next, system_next_of, first_order_next.
      cbn [fst]. by rewrite system_subs_as_f. }
  destruct (system_coeffs (as_f F) G f0 g0 N x0) as [af ag].
  cbn [fst] in *. by rewrite Hco.
Qed.

Lemma X11_decoupled_system_witness :
  series_first_order (Add X (Pow yx 2)) 1 4 0
  = Returned (series_system_2x2 (as_f (Add X (Pow yx 2))) (Mul fx gx)
                1 2 4 0).1.
Proof. apply X11_decoupled_system. reflexivity. Defined.
(** ** The comparison and the runners *)

Section Comparison.
Implicit Types (p got expect : Poly) (n : nat).
Local Open Scope Q_scope.

Lemma strip_nil_iff p : strip p = [] ↔ ∀ n, coeff p n == 0.
Proof.
  split.
  - intros Hs n. rewrite <- (coeff_strip p n), Hs, coeff_nil. reflexivity.
  - induction p as [|c p IH]; intros Hz; [done|].
    simpl. rewrite IH by (intros n; apply (Hz (S n))).
    pose proof (Hz 0%nat) as H0. rewrite coeff_cons_0 in H0.
    apply Qeq_eq_bool in H0. by rewrite H0.
Qed.

Lemma expand_nil_iff p : expand p = [] ↔ ∀ n, coeff p n == 0.
Proof.
  unfold expand. rewrite strip_nil_iff.
  split; intros H n; [rewrite <- coeff_Qred | rewrite coeff_Qred]; apply H.
Qed.

Lemma compare_polys_ok got expect :
  (compare_polys got expect).1 = true ↔ ∀ n, coeff got n == coeff expect n.
Proof.
  unfold compare_polys. cbn [fst].
  destruct (expand (padd got (pscale (-1) expect))) as [|d r] eqn:Hd.
  - split; [intros _ | done]. intros n.
    apply expand_nil_iff with (n := n) in Hd.
    rewrite coeff_padd, coeff_pscale in Hd.
    rewrite <- (Qplus_0_r (coeff expect n)), <- Hd. ring.
  - split; [done|]. intros Heq. exfalso.
    assert (expand (padd got (pscale (-1) expect)) = []) as Hnil.
    { apply expand_nil_iff. intros n.
      rewrite coeff_padd, coeff_pscale, (Heq n). ring. }
    by rewrite Hnil in Hd.
Qed.

Lemma compare_polys_diff got expect n :
  coeff (compare_polys got expect).2 n == coeff got n - coeff expect n.
Proof.
  unfold compare_polys. cbn [snd].
  rewrite coeff_expand, coeff_padd, coeff_pscale. ring.
Qed.

End Comparison.

(** X12. [compare_polys] judges the value, not the form: it answers
    [True] exactly when the two polynomials have the same coefficient at
    every degree (fractions not in lowest terms and trailing zero terms
    make no difference), and the difference it returns has, at every
    degree, the difference of the two coefficients. *)
Theorem X12_compare_polys (got expect : Poly) :
  ((compare_polys got expect).1 = true
   ↔ ∀ n, (coeff got n == coeff expect n)%Q)
  ∧ (∀ n, (coeff (compare_polys got expect).2 n
           == coeff got n - coeff expect n)%Q)
  ∧ (compare_polys got expect).1 = (compare_polys expect got).1.
Proof.
  split; [apply compare_polys_ok|]. split; [apply compare_polys_diff|].
  assert (∀ p q, (compare_polys p q).1 = true → (compare_polys q p).1 = true)
    as Hsym.
  { intros p q H. apply compare_polys_ok. intros n. symmetry.
    by apply compare_polys_ok. }
  destruct (compare_polys got expect).1 eqn:H1.
  - symmetry. by apply Hsym.
  - destruct (compare_polys expect got).1 eqn:H2; [|done].
    apply Hsym in H2. congruence.
Qed.


(** X13. The failures of [run_scalar_case].  An m-th-order case that
    lacks [m], [G] or [ics_nth] raises [ValueError], before the exact
    path is tried.  An m-th-order case with all three present, for
    which the exact path returned nothing and some supplied derivative
    order exceeds the case's order, raises the [IndexError] of the
    recurrence; when the unknowns of [G] are keys of the dictionary,
    that is the only way the fallback raises it. *)
Theorem X13_run_scalar_case_failures (exact : option Poly) (c : ScalarCase) :
  (String.eqb (sc_ode_type c) "first" = false →
   sc_m c = None ∨ sc_G c = None ∨ sc_ics_nth c = None →
   run_scalar_case exact c = Raised ValueError)
  ∧ (∀ m G ics,
       String.eqb (sc_ode_type c) "first" = false →
       sc_m c = Some m → sc_G c = Some G → sc_ics_nth c = Some ics →
       ((∃ k, is_Some (ics !! k) ∧ sc_order c < k) →
        run_scalar_case None c = Raised IndexError)
       ∧ (keyed m G = true →
          run_scalar_case None c = Raised IndexError →
          ∃ k, is_Some (ics !! k) ∧ sc_order c < k)).
Proof.
  unfold run_scalar_case. split.
  - intros -> Hmiss.
    destruct (sc_m c), (sc_G c), (sc_ics_nth c); try done.
    by destruct Hmiss as [?|[?|?]].
  - intros m G ics -> -> -> ->. split.
    + intros Hk%keys_within_not_iff.
      by rewrite series_nth_order_IndexError.
    + intros HG. rewrite series_nth_order_keyed by done.
      unfold nth_order_poly, nth_order_run.
      destruct (decide (keys_within (sc_order c) ics)) as [Hin|Hout].
      * simpl. by destruct (sc_expected c) as [e|].
      * intros _. by apply keys_within_not_iff.
Qed.

Lemma X13_run_scalar_case_failures_witness :
  run_scalar_case None
    (mkScalarCase "no right-hand side" "nth" None (Some 2) None 0 None
       (Some {[ 0 := 1%Q; 1 := 0%Q ]}) 4 None)
  = Raised ValueError.
Proof.
  apply X13_run_scalar_case_failures; [reflexivity|].
  right. left. reflexivity.
Defined.

Lemma coeff_beyond (p : Poly) k : length p ≤ k → coeff p k = 0%Q.
Proof. intros Hk. unfold coeff. by rewrite lookup_ge_None_2. Qed.

(** X14. What [run_scalar_case] reports.  When it returns, the series
    it reports is the exact path's whenever that path returned one; and
    with an expected series it reports [True] exactly when the series it
    obtained and the expected one have the same coefficient at every
    degree, without one it reports [True]. *)
Theorem X14_run_scalar_case_verdict (exact : option Poly) (c : ScalarCase)
    (ok : bool) (got : Poly) (diff : option Poly) :
  run_scalar_case exact c = Returned (ok, got, diff) →
  (∀ g, exact = Some g → got = g)
  ∧ match sc_expected c with
    | None => ok = true ∧ diff = None
    | Some e =>
        (ok = true ↔ ∀ n, (coeff got n == coeff e n)%Q)
        ∧ ∃ d, diff = Some d
               ∧ ∀ n, (coeff d n == coeff got n - coeff e n)%Q
    end.
Proof.
  assert (∀ g,
            match sc_expected c with
            | None => Returned (true, g, None)
            | Some expect =>
                let '(ok, diff) := compare_polys g expect in
                Returned (ok, g, Some diff)
            end = Returned (ok, got, diff) →
            got = g
            ∧ match sc_expected c with
              | None => ok = true ∧ diff = None
              | Some e =>
                  (ok = true ↔ ∀ n, (coeff got n == coeff e n)%Q)
                  ∧ ∃ d, diff = Some d
                         ∧ ∀ n, (coeff d n == coeff got n - coeff e n)%Q
              end) as Hv.
  { intros g. destruct (sc_expected c) as [e|].
    - pose proof (compare_polys_ok g e) as Hok.
      pose proof (compare_polys_diff g e) as Hd.
      destruct (compare_polys g e) as [o d]. cbn [fst snd] in *.
      intros [= <- <- <-]. split; [done|]. split; [done|]. by exists d.
    - by intros [= <- <- <-]. }
  unfold run_scalar_case.
  destruct (String.eqb (sc_ode_type c) "first").
  - destruct (sc_F c) as [F|]; [|done].
    destruct exact as [g|].
    + intros [Hg H]%Hv. split; [|done]. by intros ? [= <-].
    + destruct (series_first_order F _ (sc_order c) (sc_x0 c)); [|done..].
      intros [Hg H]%Hv. by split.
  - destruct (sc_m c) as [m|], (sc_G c) as [G|], (sc_ics_nth c) as [ics|];
      try done.
    destruct exact as [g|].
    + intros [Hg H]%Hv. split; [|done]. by intros ? [= <-].
    + destruct (series_nth_order m G ics (sc_order c) (sc_x0 c)); [|done..].
      intros [Hg H]%Hv. by split.
Qed.

Lemma X14_run_scalar_case_verdict_witness :
  (∀ g, Some [1; 1; 2 # 4]%Q = Some g → [1; 1; 2 # 4]%Q = g)
  ∧ ((true = true ↔ ∀ n, (coeff [1; 1; 2 # 4] n == coeff [1; 1; 1 # 2; 0] n)%Q)
     ∧ ∃ d, Some [] = Some d
            ∧ ∀ n, (coeff d n
                    == coeff [1; 1; 2 # 4] n - coeff [1; 1; 1 # 2; 0] n)%Q).
Proof.
  apply (X14_run_scalar_case_verdict (Some [1; 1; 2 # 4]%Q)
           (mkScalarCase "exp" "first" (Some yx) None None 0 (Some 1%Q) None 2
              (Some [1; 1; 1 # 2; 0]%Q))
           true [1; 1; 2 # 4]%Q (Some [])).
  vm_compute. reflexivity.
Defined.

(** X15. What [run_system_case] reports.  When it returns, it reports
    [True] exactly when, for each of the two unknowns that has an
    expected series, the series obtained and the expected one have the
    same coefficient at every degree; and when the exact path returned
    nothing the two series are the recurrence's. *)
Theorem X15_run_system_case_verdict (exact : option (list Poly))
    (sc : SystemCase) (ok : bool) (got_f got_g : Poly)
    (diffs : option Poly * option Poly) :
  run_system_case exact sc = inr (ok, (got_f, got_g), diffs) →
  (ok = true
   ↔ (∀ e, sys_expected_f sc = Some e →
        ∀ n, (coeff got_f n == coeff e n)%Q)
     ∧ (∀ e, sys_expected_g sc = Some e →
          ∀ n, (coeff got_g n == coeff e n)%Q))
  ∧ (exact = None →
     (got_f, got_g)
     = series_system_2x2 (sys_F sc) (sys_G sc) (sys_f0 sc) (sys_g0 sc)
         (sys_order sc) (sys_x0 sc)).
Proof.
  unfold run_system_case.
  set (rec := series_system_2x2 (sys_F sc) (sys_G sc) (sys_f0 sc)
                (sys_g0 sc) (sys_order sc) (sys_x0 sc)).
  assert (∀ gf gg,
            (let '(ok_f, diff_f) :=
               match sys_expected_f sc with
               | Some e => let '(ok, d) := compare_polys gf e in (ok, Some d)
               | None => (true, None)
               end in
             let '(ok_g, diff_g) :=
               match sys_expected_g sc with
               | Some e => let '(ok, d) := compare_polys gg e in (ok, Some d)
               | None => (true, None)
               end in
             (inr (ok_f && ok_g, (gf, gg), (diff_f, diff_g))
              : failure + (bool * (Poly * Poly) * (option Poly * option Poly))))
            = inr (ok, (got_f, got_g), diffs) →
            (gf, gg) = (got_f, got_g)
            ∧ (ok = true
               ↔ (∀ e, sys_expected_f sc = Some e →
                    ∀ n, (coeff got_f n == coeff e n)%Q)
                 ∧ (∀ e, sys_expected_g sc = Some e →
                      ∀ n, (coeff got_g n == coeff e n)%Q))) as Hv.
  { intros gf gg.
    destruct (sys_expected_f sc) as [ef|], (sys_expected_g sc) as [eg|].
    - pose proof (compare_polys_ok gf ef) as Hf.
      pose proof (compare_polys_ok gg eg) as Hg.
      destruct (compare_polys gf ef) as [okf df].
      destruct (compare_polys gg eg) as [okg dg]. cbn [fst snd] in *.
      intros [= <- <- <- _]. split; [done|].
      rewrite andb_true_iff, Hf, Hg. split.
      + intros [H1 H2]. split; intros e [= <-]; done.
      + intros [H1 H2]. split; [by apply H1 | by apply H2].
    - pose proof (compare_polys_ok gf ef) as Hf.
      destruct (compare_polys gf ef) as [okf df]. cbn [fst snd] in *.
      intros [= <- <- <- _]. split; [done|].
      rewrite andb_true_r, Hf. split.
      + intros H1. split; [by intros e [= <-] | done].
      + intros [H1 _]. by apply H1.
    - pose proof (compare_polys_ok gg eg) as Hg.
      destruct (compare_polys gg eg) as [okg dg]. cbn [fst snd] in *.
      intros [= <- <- <- _]. split; [done|].
      cbn [andb]. rewrite Hg. split.
      + intros H2. split; [done | by intros e [= <-]].
      + intros [_ H2]. by apply H2.
    - intros [= <- <- <- _]. split; [done|]. by split. }
  destruct exact as [l|].
  - destruct (l !! 0) as [gf|]; [|done]. destruct (l !! 1) as [gg|]; [|done].
    intros [_ H]%Hv. by split.
  - destruct rec as [gf gg] eqn:Hrec. intros [Hg H]%Hv. split; [done|].
    by intros _.
Qed.

Lemma X15_run_system_case_verdict_witness :
  (false = true
   ↔ (∀ e, Some [1; 1; 1; 2 # 3; 1 # 3; 1 # 15]%Q = Some e →
        ∀ n, (coeff [1; 1; 1; 2 # 3; 1 # 3; 2 # 15] n == coeff e n)%Q)
     ∧ (∀ e, Some [0; 1; 1; 2 # 3; 1 # 3; 1 # 15]%Q = Some e →
          ∀ n, (coeff [0; 1; 1; 2 # 3; 1 # 3; 2 # 15] n == coeff e n)%Q))
  ∧ ((None : option (list Poly)) = None →
     ([1; 1; 1; 2 # 3; 1 # 3; 2 # 15]%Q, [0; 1; 1; 2 # 3; 1 # 3; 2 # 15]%Q)
     = series_system_2x2 (Add fx gx) (Add fx gx) 1 0 5 0).
Proof.
  apply (X15_run_system_case_verdict None
           (mkSystemCase "Exp system f/g" (Add fx gx) (Add fx gx) 0 1 0 5
              (Some [1; 1; 1; 2 # 3; 1 # 3; 1 # 15]%Q)
              (Some [0; 1; 1; 2 # 3; 1 # 3; 1 # 15]%Q))
           false _ _ (Some [0; 0; 0; 0; 0; 1 # 15]%Q,
                      Some [0; 0; 0; 0; 0; 1 # 15]%Q)).
  vm_compute. reflexivity.
Defined.


(** X16. The cross-check without a closed form.  For a first-order case
    [y' = F(x, y)] about the point 0 on which the exact path returns
    nothing, the runner returns, and it reports [True] exactly when the
    expected series is the truncated solution: its constant term is the
    initial value, it satisfies [y' = F(x, y)] up to order [N] ([F_e]
    being [F] with [t] for [x] and the expected series for the
    unknown), and it has no term above degree [N]. *)
Theorem X16_fallback_passes_iff_solution (label : string) (F : Expr yatom)
    (y0 : Q) (N : nat) (e : Poly) (m : option nat) (G : option (Expr yatom))
    (ics : option (gmap nat Q)) :
  keyed 1 F = true →
  let c := mkScalarCase label "first" (Some F) m G 0 (Some y0) ics N (Some e) in
  ∃ ok got diff F_e,
    run_scalar_case None c = Returned (ok, got, diff)
    ∧ series_first_order F y0 N 0 = Returned got
    ∧ subs_with (mkSubsMap [0%Q; 1%Q] e {[ 0%nat := e ]}) F = Some F_e
    ∧ (ok = true
       ↔ (coeff e 0 == y0)%Q
         ∧ (∀ n, n < N → (coeff (Poly.diff e 1) n == coeff F_e n)%Q)
         ∧ (∀ k, N < k → (coeff e k == 0)%Q)).
Proof.
  intros HF c. unfold run_scalar_case, c. cbn [sc_ode_type sc_F sc_expected
    sc_ics_first sc_order sc_x0 default].
  change (String.eqb "first" "first") with true. cbv iota.
  change (id y0) with y0.
  rewrite series_first_order_keyed by done. cbn [mbind outcome_bind].
  set (got := first_order_poly F y0 N 0).
  set (Y := or_zero <$> first_order_run F y0 N 0).
  pose proof (compare_polys_ok got e) as Hok.
  destruct (compare_polys got e) as [ok d]. cbn [fst] in Hok.
  exists ok, got, (Some d), (subs_series 0 e F).
  split; [done|]. split; [done|].
  split; [by apply first_order_subs_keyed|]. rewrite Hok. clear Hok.
  assert (∀ k, (coeff got k == coeff Y k)%Q) as Hgot
    by (intros k; apply first_order_returned_coeff).
  assert (length Y = N + 1) as HlenY
    by (unfold Y; by rewrite length_fmap, first_order_run_length).
  assert (coeff Y 0 == y0)%Q as HY0.
  { unfold Y, coeff. rewrite list_lookup_fmap, first_order_run_0.
    apply sympify_Qeq. }
  split.
  - intros Heq.
    assert (∀ k, (coeff e k == coeff Y k)%Q) as HeY
      by (intros k; by rewrite <- Heq, Hgot).
    split; [by rewrite HeY|]. split.
    + intros n Hn. rewrite coeff_diff, HeY.
      unfold Y at 1. rewrite first_order_coeff_next by done. fold Y.
      assert (peq_upto (n + (1 - 1)) e (take (n + 1) Y)) as Hpre.
      { intros i Hi. rewrite coeff_take by lia. apply HeY. }
      rewrite (subs_series_peq n 1 0 e (take (n + 1) Y) F HF Hpre n) by lia.
      rewrite <- factorial_ratio_1. field. apply inject_succ_nonzero.
    + intros k Hk. rewrite HeY, coeff_beyond by lia. reflexivity.
  - intros (H0 & Hode & Hhigh) n. rewrite Hgot.
    destruct (decide (n ≤ N)) as [Hn|Hn].
    + symmetry. by apply (first_order_determined F y0 0 N e).
    + rewrite Hhigh, coeff_beyond by lia. reflexivity.
Qed.

Lemma X16_fallback_passes_iff_solution_witness :
  ∃ got F_e,
    series_first_order (Add X (Pow yx 2)) 1 2 0 = Returned got
    ∧ subs_with (mkSubsMap [0%Q; 1%Q] [1; 1; 1]%Q {[ 0%nat := [1; 1; 1]%Q ]})
        (Add X (Pow yx 2)) = Some F_e.
Proof.
  destruct (X16_fallback_passes_iff_solution "Riccati" (Add X (Pow yx 2))
              1 2 [1; 1; 1]%Q None None None)
    as (ok & got & diff & F_e & _ & Hgot & Hs & _); [reflexivity|].
  by exists got, F_e.
Defined.
(** ** Strings for Maxima *)

Lemma has_pow_cons c t :
  has_pow (String c t)
  = (Ascii.eqb c "*"%char && first_is_star t) || has_pow t.
Proof. destruct t as [|c' t]; simpl; [by rewrite andb_false_r | done]. Qed.

Lemma replace_pow_cons c c' t :
  replace_pow (String c (String c' t))
  = if (Ascii.eqb c "*"%char && Ascii.eqb c' "*"%char)%bool
    then String "^"%char (replace_pow t)
    else String c (replace_pow (String c' t)).
Proof. reflexivity. Qed.

Lemma first_is_star_replace s :
  first_is_star (replace_pow s) = true → first_is_star s = true.
Proof.
  destruct s as [|c [|c' t]]; [done.. |].
  rewrite replace_pow_cons.
  destruct (Ascii.eqb c "*"%char && Ascii.eqb c' "*"%char)%bool eqn:Hcc;
    [done|]. done.
Qed.

Lemma replace_pow_no_pow s : has_pow (replace_pow s) = false.
Proof.
  assert (has_pow (replace_pow s) = false
          ∧ ∀ c, has_pow (replace_pow (String c s)) = false) as [H _];
    [|done].
  induction s as [|c' t [IH1 IH2]]; [by split|].
  split; [apply IH2|]. intros c. rewrite replace_pow_cons.
  destruct (Ascii.eqb c "*"%char && Ascii.eqb c' "*"%char)%bool eqn:Hcc.
  - rewrite has_pow_cons, IH1. reflexivity.
  - rewrite has_pow_cons, IH2, orb_false_r.
    destruct (Ascii.eqb c "*"%char) eqn:Hc; [|done]. simpl in *.
    destruct (first_is_star (replace_pow (String c' t))) eqn:Hf; [|done].
    apply first_is_star_replace in Hf. simpl in Hf. congruence.
Qed.

Lemma replace_pow_id s : has_pow s = false → replace_pow s = s.
Proof.
  assert ((has_pow s = false → replace_pow s = s)
          ∧ ∀ c, has_pow (String c s) = false →
                 replace_pow (String c s) = String c s) as [H _]; [|done].
  induction s as [|c' t [IH1 IH2]]; [by split|].
  split; [apply IH2|]. intros c. rewrite replace_pow_cons.
  intros Hp. simpl in Hp. apply orb_false_elim in Hp as [Hcc Hp].
  rewrite Hcc. by rewrite IH2.
Qed.

(** X17. The texts written for Maxima never contain the Python power
    sign: whatever the printed expression is, the results of
    [poly_to_maxima_str] and [format_for_maxima] have no ["**"] in them
    (a run of stars is rewritten left to right, pair by pair), and a
    text without one is left as it is; for [None], [format_for_maxima]
    gives the text ["UNKNOWN"]. *)
Theorem X17_no_python_power (s : string) :
  has_pow (poly_to_maxima_str s) = false
  ∧ (∀ o, has_pow (format_for_maxima o) = false)
  ∧ format_for_maxima None = "UNKNOWN"
  ∧ (has_pow s = false →
     poly_to_maxima_str s = s ∧ format_for_maxima (Some s) = s)
  ∧ poly_to_maxima_str "x***2 + y****3" = "x^*2 + y^^3".
Proof.
  split; [apply replace_pow_no_pow|].
  split; [|split; [reflexivity|split; [|reflexivity]]].
  - intros [t|]; [apply replace_pow_no_pow | reflexivity].
  - intros Hs. split; by apply replace_pow_id.
Qed.

(** ** A second-order equation and its first-order system *)

Lemma factorial_ratio_2 n :
  (factorial (n + 2) / factorial n
   == inject_Z (Z.of_nat (n + 1)) * inject_Z (Z.of_nat (n + 1 + 1)))%Q.
Proof.
  rewrite (factorial_ratio_1 n), (factorial_ratio_1 (n + 1)).
  replace (n + 1 + 1) with (n + 2) by lia.
  field. split; apply factorial_nonzero.
Qed.

Lemma second_order_system_coeffs G (y0 y1 x0 : Q) N :
  applied_only G = true → 1 ≤ N →
  nth_order_run 2 G {[ 0%nat := y0; 1%nat := y1 ]} N x0
  = Some (or_zero <$> (system_coeffs gx (as_f G) y0 y1 N x0).1).
Proof.
  intros HG HN. set (ics := {[ 0%nat := y0; 1%nat := y1 ]} : gmap nat Q).
  assert (keys_within N ics) as Hk.
  { apply (complete_keys_within ics 2); [|lia].
    intros k. unfold ics. destruct k as [|[|k]].
    - rewrite lookup_insert_eq. split; [lia | eauto].
    - rewrite lookup_insert_ne, lookup_singleton_eq by done.
      split; [lia | eauto].
    - rewrite lookup_insert_ne, lookup_singleton_ne by lia.
      split; [intros [? [=]] | lia]. }
  rewrite nth_order_run_Some by done. f_equal.
  set (a := rec_run 2 _ _ _).
  set (Ff := or_zero <$> (system_coeffs gx (as_f G) y0 y1 N x0).1).
  set (Gf := or_zero <$> (system_coeffs gx (as_f G) y0 y1 N x0).2).
  assert (length a = N + 1) as Hla.
  { unfold a. by rewrite rec_run_length, ics_list_length. }
  assert (length Ff = N + 1) as HlF.
  { unfold Ff. rewrite length_fmap. apply system_coeffs_length. }
  destruct (system_coeffs_0 gx (as_f G) x0 y0 y1 N) as [Hf0 Hg0].
  assert (∀ n, n < N → Ff !! (n + 1)
            = Some (simplify (coeff Gf n / inject_Z (Z.of_nat (n + 1))))) as HF.
  { intros n Hn.
    destruct (system_coeffs_next gx (as_f G) y0 y1 x0 N n Hn) as [Hf _].
    unfold Ff. rewrite list_lookup_fmap, Hf.
    unfold system_next_of, simplify, system_subs, gx.
    cbn [fmap option_fmap option_map default or_zero subs].
    do 2 f_equal. apply Qred_complete. rewrite coeff_truncated.
    rewrite fmap_take, coeff_take by lia. reflexivity. }
  assert (∀ k, k ≤ N → a !! k = Ff !! k) as Hpt.
  { intros k. induction k as [k IH] using lt_wf_ind. intros Hk'.
    destruct k as [|[|n]].
    - unfold a. rewrite rec_run_low, ics_list_lookup by lia.
      unfold Ff. rewrite list_lookup_fmap, Hf0. unfold ics.
      by rewrite lookup_insert_eq.
    - unfold a. rewrite rec_run_low, ics_list_lookup by lia.
      change 1 with (0 + 1) at 2. rewrite (HF 0) by lia. unfold ics.
      rewrite lookup_insert_ne, lookup_singleton_eq by done.
      cbn [fmap option_fmap option_map default]. f_equal.
      unfold sympify, simplify. apply Qred_complete.
      unfold Gf, coeff. rewrite list_lookup_fmap, Hg0. simpl.
      unfold sympify. rewrite Qred_correct. field.
    - replace (S (S n)) with (n + 2) by lia.
      unfold a. rewrite rec_run_lookup by (rewrite ?ics_list_length; lia).
      fold a. replace (Ff !! (n + 2)) with (Ff !! (n + 1 + 1))
        by (f_equal; lia).
      rewrite HF by lia. f_equal.
      unfold nth_order_next, simplify. apply Qred_complete.
      rewrite coeff_truncated.
      destruct (system_coeff_next gx (as_f G) y0 y1 x0 N n ltac:(lia))
        as [_ Hg].
      fold Ff Gf in Hg. rewrite Hg, system_subs_as_f by done.
      assert (peq_upto (n + (1 - 1)) (take (n + 2) a) (take (n + 1) Ff))
        as Hpre.
      { intros i Hi. rewrite !coeff_take by lia.
        unfold coeff. rewrite IH by lia. reflexivity. }
      rewrite (subs_series_peq n 1 x0 (take (n + 2) a) (take (n + 1) Ff) G
                 (applied_only_keyed 1 G HG) Hpre n) by lia.
      rewrite factorial_ratio_2. field.
      split; apply inject_succ_nonzero. }
  apply list_eq. intros k. destruct (decide (k ≤ N)); [by apply Hpt|].
  by rewrite !lookup_ge_None_2 by lia.
Qed.

(** X18. A second-order equation and its first-order system.  For a
    right-hand side that mentions only [x] and [y(x)], the m-th-order
    solver on [y'' = G(x, y)] with [y(x0) = y0], [y'(x0) = y1] returns
    the series the system solver returns for [f] in [f' = g],
    [g' = G(x, f)] with [f(x0) = y0], [g(x0) = y1], for every order
    [N >= 1]. *)
Theorem X18_second_order_as_system (G : Expr yatom) (y0 y1 x0 : Q)
    (N : nat) :
  applied_only G = true → 1 ≤ N →
  series_nth_order 2 G {[ 0%nat := y0; 1%nat := y1 ]} N x0
  = Returned (series_system_2x2 gx (as_f G) y0 y1 N x0).1.
Proof.
  intros HG HN.
  rewrite series_nth_order_keyed by by apply applied_only_keyed.
  unfold nth_order_poly, series_system_2x2.
  rewrite second_order_system_coeffs by done. cbn [mbind option_bind].
  destruct (system_coeffs gx (as_f G) y0 y1 N x0) as [af ag].
  cbn [fst]. by rewrite fmap_take.
Qed.

Lemma X18_second_order_as_system_witness :
  series_nth_order 2 (Add X (neg (Pow yx 2))) {[ 0%nat := 1%Q; 1%nat := 0%Q ]}
    5 (1 # 2)
  = Returned (series_system_2x2 gx (as_f (Add X (neg (Pow yx 2)))) 1 0 5
                (1 # 2)).1.
Proof. apply X18_second_order_as_system; [reflexivity | lia]. Defined.
(** ** The legacy routine [compute_derivatives_manually] *)

Lemma manual_fold_snd ic d0 d1 ks st :
  ∃ l, (foldl (manual_step ic d0 d1) st ks).2 = st.2 ++ l
       ∧ length l = length ks.
Proof.
  revert st. induction ks as [|k ks IH]; intros st.
  - exists []. by rewrite app_nil_r.
  - cbn [foldl]. destruct (IH (manual_step ic d0 d1 st k)) as (l & -> & Hl).
    destruct st as [cur ds]. unfold manual_step.
    destruct (ic_int ic !! k); cbn [snd]; eexists (_ :: l);
      rewrite <- app_assoc; (split; [reflexivity | simpl; by rewrite Hl]).
Qed.

Lemma manual_fold_lookup ic d0 d1 ks st i :
  i < length st.2 →
  (foldl (manual_step ic d0 d1) st ks).2 !! i = st.2 !! i.
Proof.
  intros Hi. destruct (manual_fold_snd ic d0 d1 ks st) as (l & -> & _).
  by rewrite lookup_app_l.
Qed.

Lemma manual_derivatives_length F ic N :
  length (manual_derivatives F ic N) = 2 + (N - 1).
Proof.
  unfold manual_derivatives. cbv zeta.
  match goal with
  | |- length (foldl (manual_step ?i ?a ?b) ?st ?ks).2 = _ =>
      destruct (manual_fold_snd i a b ks st) as (l & -> & Hl)
  end.
  rewrite length_app, Hl, length_seq. reflexivity.
Qed.

Lemma manual_derivatives_0 F ic N :
  manual_derivatives F ic N !! 0%nat = Some (default 0%Q (ic_y ic)).
Proof.
  unfold manual_derivatives. cbv zeta.
  rewrite manual_fold_lookup by (simpl; lia). reflexivity.
Qed.

Lemma manual_derivatives_1 F ic N :
  manual_derivatives F ic N !! 1%nat
  = Some (match ic_int ic !! 1%nat with
          | None => subs_at F 0 (default 0%Q (ic_y ic))
          | Some v => v
          end).
Proof.
  unfold manual_derivatives. cbv zeta.
  rewrite manual_fold_lookup by (simpl; lia). reflexivity.
Qed.

Lemma manual_derivatives_2 F ic N :
  2 ≤ N → ic_int ic !! 2%nat = None →
  let d0 := default 0%Q (ic_y ic) in
  let d1 := match ic_int ic !! 1%nat with
            | None => subs_at F 0 d0
            | Some v => v
            end in
  manual_derivatives F ic N !! 2%nat
  = Some (subs_at (Add (sp_diff F sym_x) (Mul (sp_diff F sym_y) (Num d1)))
            0 d0).
Proof.
  intros HN H2 d0 d1. unfold manual_derivatives. fold d0. fold d1.
  replace (N - 1) with (S (N - 2)) by lia. cbn [seq foldl].
  unfold manual_step at 2. rewrite H2.
  rewrite manual_fold_lookup by (simpl; lia). reflexivity.
Qed.

Lemma coeff_manual F ic N k :
  (coeff (compute_derivatives_manually F ic N).1 k
   == if decide (k ≤ N)
      then default 0 (manual_derivatives F ic N !! k) / factorial k
      else 0)%Q.
Proof.
  unfold compute_derivatives_manually. cbn [fst].
  rewrite coeff_expand. unfold coeff at 1. rewrite list_lookup_fmap.
  case_decide as Hk.
  - rewrite lookup_seq_lt by lia. reflexivity.
  - rewrite lookup_seq_ge by lia. reflexivity.
Qed.

Lemma subs_as_applied x0 (Y : Poly) (F : Expr yvar) :
  subs_series x0 Y (as_applied F) = subs [x0; 1%Q] (λ _, Y) F.
Proof.
  unfold subs_series.
  induction F as [c| |a|e1 IH1 e2 IH2|e1 IH1 e2 IH2|e1 IH1 k]; simpl;
    [done | done | done | | | ].
  - by rewrite IH1, IH2.
  - by rewrite IH1, IH2.
  - by rewrite IH1.
Qed.

(** The value at a point is the constant term of the substituted
    series. *)
Lemma subs_value (e : Expr yvar) (vx vy : Q) (Y : Poly) :
  (coeff Y 0 == vy)%Q →
  (coeff (subs [vx] (λ _, [vy]) e) 0
   == coeff (subs [vx; 1%Q] (λ _, Y) e) 0)%Q.
Proof.
  intros HY. apply (subs_peq 0); [| |lia].
  - intros [|i] Hi; [reflexivity | lia].
  - intros _ [|i] Hi; [by rewrite HY | lia].
Qed.

Lemma coeff_pmul_0 p q : (coeff (pmul p q) 0 == coeff p 0 * coeff q 0)%Q.
Proof. rewrite coeff_pmul_step. ring. Qed.

Lemma coeff_pmul_1 p q :
  (coeff (pmul p q) 1 == coeff p 0 * coeff q 1 + coeff p 1 * coeff q 0)%Q.
Proof.
  rewrite coeff_pmul_step, coeff_pmul_0, coeff_tail. reflexivity.
Qed.

Lemma coeff_ppow_1 p j :
  (coeff (ppow p (S j)) 1
   == inject_Z (Z.of_nat (S j)) * coeff (ppow p j) 0 * coeff p 1)%Q.
Proof.
  induction j as [|j IH].
  - simpl ppow. rewrite coeff_pmul_1.
    change (coeff [1%Q] 1) with 0%Q. change (coeff [1%Q] 0) with 1%Q.
    change (inject_Z (Z.of_nat 1)) with 1%Q. ring.
  - change (ppow p (S (S j))) with (pmul p (ppow p (S j))).
    rewrite coeff_pmul_1, IH.
    change (ppow p (S j)) with (pmul p (ppow p j)).
    rewrite coeff_pmul_0.
    rewrite (Nat2Z.inj_succ (S j)), <- Z.add_1_r, inject_Z_plus. ring.
Qed.

(** The chain rule at first order: the coefficient of [t] of
    [f(t, Y(t))] is [f_x + f_y * Y'(0)] at the point [(0, Y(0))]. *)
Lemma subs_chain_rule (e : Expr yvar) (vy : Q) (Y : Poly) :
  (coeff Y 0 == vy)%Q →
  (coeff (subs [0; 1%Q] (λ _, Y) e) 1
   == coeff (subs [0] (λ _, [vy]) (sp_diff e sym_x)) 0
      + coeff (subs [0] (λ _, [vy]) (sp_diff e sym_y)) 0 * coeff Y 1)%Q.
Proof.
  intros HY.
  induction e as [c| |a|e1 IH1 e2 IH2|e1 IH1 e2 IH2|e1 IH1 k].
  - simpl. unfold coeff; simpl. ring.
  - simpl. unfold coeff at 1 2 3; simpl. ring.
  - simpl. unfold coeff at 2 3; simpl. ring.
  - simpl. rewrite !coeff_padd, IH1, IH2. ring.
  - simpl. rewrite coeff_pmul_1, !coeff_padd, !coeff_pmul_0, IH1, IH2.
    rewrite <- (subs_value e1 0 vy Y HY), <- (subs_value e2 0 vy Y HY). ring.
  - destruct k as [|j].
    + simpl. unfold coeff; simpl. ring.
    + cbn [subs sp_diff]. rewrite coeff_ppow_1, IH1, !coeff_pmul_0.
      assert (coeff (ppow (subs [0; 1%Q] (λ _, Y) e1) j) 0
              == coeff (ppow (subs [0] (λ _, [vy]) e1) j) 0)%Q as ->.
      { symmetry. apply (subs_value (Pow e1 j) 0 vy Y HY). }
      change (coeff [inject_Z (Z.of_nat (S j))] 0)
        with (inject_Z (Z.of_nat (S j))).
      ring.
Qed.

Lemma first_order_applied_next (F : Expr yvar) y0 N n :
  n < N →
  let Y := or_zero <$> first_order_run (as_applied F) y0 N 0 in
  (coeff Y (n + 1)
   == coeff (subs [0; 1%Q] (λ _, take (n + 1) Y) F) n
      / inject_Z (Z.of_nat (n + 1)))%Q.
Proof.
  intros Hn Y. unfold Y. rewrite first_order_coeff_next by done.
  by rewrite subs_as_applied.
Qed.

(** X19. The legacy routine is right up to the second derivative.  With
    no value supplied for [y'(0)] and [y''(0)], the polynomial of
    [compute_derivatives_manually] has the coefficients of the series
    the first-order solver returns about 0 in degrees 0, 1 and 2, for
    every right-hand side; its chain rule uses the number [y'(0)] for
    [dy/dx], so the agreement stops there: for [y' = y] the term in
    [x^3] is missing. *)
Theorem X19_manual_second_order (F : Expr yvar) (ic_values : IcValues)
    (N : nat) :
  ic_int ic_values !! 1%nat = None → ic_int ic_values !! 2%nat = None →
  (∃ r, series_first_order (as_applied F) (default 0%Q (ic_y ic_values)) N 0
        = Returned r
        ∧ ∀ k, k ≤ 2 →
            (coeff (compute_derivatives_manually F ic_values N).1 k
             == coeff r k)%Q)
  ∧ (∀ v M, 3 ≤ M →
       (coeff (compute_derivatives_manually (Atom y_var)
                 (mkIcValues (Some v) ∅) M).1 3 == 0)%Q
       ∧ ∃ r, series_first_order yx v M 0 = Returned r
              ∧ (coeff r 3 == v / 6)%Q).
Proof.
  intros H1 H2. split.
  - eexists. split; [apply series_first_order_keyed, as_applied_keyed|].
    set (y0 := default 0%Q (ic_y ic_values)).
    set (a := or_zero <$> first_order_run (as_applied F) y0 N 0).
    assert (length a = N + 1) as Hla.
    { unfold a. by rewrite length_fmap, first_order_run_length. }
    assert (coeff a 0 == y0)%Q as Ha0.
    { unfold a, coeff. rewrite list_lookup_fmap, first_order_run_0.
      apply sympify_Qeq. }
    assert (1 ≤ N → (coeff a 1 == coeff (subs [0] (λ _, [y0]) F) 0)%Q)
      as Ha1.
    { intros HN. unfold a.
      rewrite (first_order_applied_next F y0 N 0) by lia. fold a.
      rewrite (subs_value F 0 y0 (take (0 + 1) a))
        by (by rewrite coeff_take by lia).
      change (inject_Z (Z.of_nat (0 + 1))) with 1%Q. field. }
    intros k Hk. rewrite coeff_manual, first_order_returned_coeff. fold y0 a.
    case_decide as HkN; [|by rewrite coeff_beyond by lia].
    destruct k as [|[|[|k]]]; [| | |lia].
    + rewrite manual_derivatives_0, Ha0. fold y0.
      change (factorial 0) with 1%Q. cbn [default]. unfold id. field.
    + rewrite manual_derivatives_1, H1, Ha1 by done. fold y0.
      cbn [default]. unfold id. unfold subs_at. rewrite Qred_correct.
      change (factorial 1) with 1%Q. field.
    + rewrite manual_derivatives_2, H1 by done. fold y0. cbn [default]. unfold id.
      unfold a. rewrite (first_order_applied_next F y0 N 1) by lia. fold a.
      rewrite (subs_chain_rule F y0 (take (1 + 1) a))
        by (by rewrite coeff_take by lia).
      rewrite coeff_take, Ha1 by lia.
      unfold subs_at. rewrite !Qred_correct. cbn [subs].
      rewrite coeff_padd, coeff_pmul_0.
      change (coeff [Qred (coeff (subs [0%Q] (λ _, [y0]) F) 0)] 0)
        with (Qred (coeff (subs [0%Q] (λ _, [y0]) F) 0)).
      rewrite Qred_correct.
      change (factorial 2) with 2%Q.
      change (inject_Z (Z.of_nat (1 + 1))) with 2%Q. field.
  - intros v M HM. split.
    + rewrite coeff_manual, decide_True by lia.
      unfold manual_derivatives. cbn [ic_y ic_int default].
      replace (M - 1) with (S (S (M - 3))) by lia. cbn [seq foldl].
      unfold manual_step at 2 3. cbn [ic_int].
      rewrite !lookup_empty.
      rewrite manual_fold_lookup by (simpl; lia).
      cbn [snd app lookup list_lookup default]. unfold id, subs_at.
      rewrite Qred_correct. unfold coeff. simpl.
      unfold Qdiv. ring.
    + eexists. split; [by apply series_first_order_keyed|].
      rewrite first_order_returned_coeff.
      set (a := or_zero <$> first_order_run yx v M 0).
      assert (∀ n, n < M →
                (coeff a (n + 1)
                 == coeff a n / inject_Z (Z.of_nat (n + 1)))%Q) as Hnext.
      { intros n Hn. unfold a.
        rewrite (first_order_applied_next (Atom y_var) v M n Hn).
        cbn [subs]. fold a. by rewrite coeff_take by lia. }
      assert (coeff a 0 == v)%Q as Ha0.
      { unfold a, coeff.
        rewrite list_lookup_fmap, (first_order_run_0 yx 0 v M).
        apply sympify_Qeq. }
      rewrite (Hnext 2), (Hnext 1), (Hnext 0), Ha0 by lia.
      change (inject_Z (Z.of_nat (0 + 1))) with 1%Q.
      change (inject_Z (Z.of_nat (1 + 1))) with 2%Q.
      change (inject_Z (Z.of_nat (2 + 1))) with 3%Q. field.
Qed.

Lemma X19_manual_second_order_witness :
  ∃ r, series_first_order (as_applied (Add X (Pow (Atom y_var) 2))) 1 4 0
       = Returned r
       ∧ ∀ k, k ≤ 2 →
           (coeff (compute_derivatives_manually (Add X (Pow (Atom y_var) 2))
                     (mkIcValues (Some 1%Q) ∅) 4).1 k
            == coeff r k)%Q.
Proof.
  apply (X19_manual_second_order (Add X (Pow (Atom y_var) 2))
           (mkIcValues (Some 1%Q) ∅) 4); reflexivity.
Defined.
(** ** Polynomial identities, coefficient by coefficient *)

Section PolyAlgebra.
Implicit Types (p q r : Poly) (n : nat) (c : Q).
Local Open Scope Q_scope.

#[global] Instance peq_equivalence : Equivalence peq.
Proof.
  split.
  - intros p n. reflexivity.
  - intros p q H n. symmetry. apply H.
  - intros p q r H1 H2 n. rewrite (H1 n). apply H2.
Qed.

#[global] Instance coeff_proper : Proper (peq ==> eq ==> Qeq) coeff.
Proof. intros p q H n ? <-. apply H. Qed.

#[global] Instance padd_proper : Proper (peq ==> peq ==> peq) padd.
Proof. intros p p' Hp q q' Hq n. by rewrite !coeff_padd, (Hp n), (Hq n). Qed.

#[global] Instance pmul_proper : Proper (peq ==> peq ==> peq) pmul.
Proof.
  intros p p' Hp q q' Hq n.
  apply (pmul_peq n); [intros i _; apply Hp | intros i _; apply Hq | lia].
Qed.

#[global] Instance pscale_proper : Proper (Qeq ==> peq ==> peq) pscale.
Proof. intros c c' Hc p p' Hp n. by rewrite !coeff_pscale, Hc, (Hp n). Qed.

#[global] Instance diff1_proper : Proper (peq ==> peq) diff1.
Proof. intros p p' Hp n. by rewrite !coeff_diff1, (Hp (S n)). Qed.

#[global] Instance cons_proper : Proper (Qeq ==> peq ==> peq) cons.
Proof.
  intros c c' Hc p p' Hp [|n]; [by rewrite !coeff_cons_0|].
  rewrite !coeff_cons_S. apply Hp.
Qed.

Lemma peq_tail p q : peq p q → peq (tail p) (tail q).
Proof. intros H n. rewrite !coeff_tail. apply H. Qed.

Lemma peq_nil_cons : peq [] [0].
Proof. intros [|n]; reflexivity. Qed.

Lemma tail_padd p q : peq (tail (padd p q)) (padd (tail p) (tail q)).
Proof.
  intros n. rewrite coeff_tail, !coeff_padd, !coeff_tail. reflexivity.
Qed.

Lemma pmul_padd_l p q r : peq (pmul (padd p q) r) (padd (pmul p r) (pmul q r)).
Proof.
  intros n. revert p q. induction n as [|n IH]; intros p q.
  - rewrite coeff_padd, !coeff_pmul_0, coeff_padd. ring.
  - rewrite coeff_padd, !(coeff_pmul_step _ r (S n)), coeff_padd.
    rewrite (coeff_pmul_peq_l n _ (padd (tail p) (tail q)))
      by (intros i _; apply tail_padd).
    rewrite IH, coeff_padd. ring.
Qed.

Lemma tail_pscale c p : tail (pscale c p) = pscale c (tail p).
Proof. by destruct p. Qed.

Lemma pmul_pscale_l c p q : peq (pmul (pscale c p) q) (pscale c (pmul p q)).
Proof.
  intros n. revert p. induction n as [|n IH]; intros p.
  - rewrite coeff_pscale, !coeff_pmul_0, coeff_pscale. ring.
  - rewrite coeff_pscale, !(coeff_pmul_step _ q (S n)), coeff_pscale.
    rewrite tail_pscale, IH, coeff_pscale. ring.
Qed.

Lemma coeff_pmul_shift p q n :
  coeff (pmul (0 :: p) q) n
  == match n with O => 0 | S j => coeff (pmul p q) j end.
Proof.
  rewrite coeff_pmul_step, coeff_cons_0. cbn [tail].
  destruct n; ring.
Qed.

Lemma coeff_pmul_step_r p q n :
  coeff (pmul p q) n
  == coeff p n * coeff q 0
     + match n with O => 0 | S j => coeff (pmul p (tail q)) j end.
Proof.
  revert p. induction n as [|n IH]; intros p.
  - rewrite coeff_pmul_0. ring.
  - rewrite (coeff_pmul_step p q (S n)), (IH (tail p)).
    rewrite (coeff_pmul_step p (tail q) n), !coeff_tail.
    destruct n; ring.
Qed.

Lemma pmul_comm p q : peq (pmul p q) (pmul q p).
Proof.
  intros n. revert p q. induction n as [|n IH]; intros p q.
  - rewrite !coeff_pmul_0. ring.
  - rewrite (coeff_pmul_step p q), (coeff_pmul_step_r q p), IH. ring.
Qed.

Lemma pmul_assoc p q r : peq (pmul (pmul p q) r) (pmul p (pmul q r)).
Proof.
  induction p as [|a p IH]; [reflexivity|].
  simpl pmul. rewrite pmul_padd_l, pmul_pscale_l.
  intros n. rewrite !coeff_padd, coeff_pmul_shift.
  destruct n as [|n]; [by rewrite !coeff_cons_0|].
  by rewrite !coeff_cons_S, (IH n).
Qed.

Lemma pmul_const_l c q : peq (pmul [c] q) (pscale c q).
Proof.
  intros n. simpl pmul. rewrite coeff_padd.
  destruct n as [|[|n]]; unfold coeff at 2; simpl; ring.
Qed.

Lemma pmul_nil_r p : peq (pmul p []) [].
Proof. by rewrite pmul_comm. Qed.

Lemma pmul_zero_l p q : peq p [] → peq (pmul p q) [].
Proof. intros ->. reflexivity. Qed.

Lemma pmul_zero_r p q : peq q [] → peq (pmul p q) [].
Proof. intros ->. apply pmul_nil_r. Qed.

Lemma padd_nil_r p : padd p [] = p.
Proof. by destruct p. Qed.

Lemma padd_zero_r p q : peq q [] → peq (padd p q) p.
Proof. intros ->. by rewrite padd_nil_r. Qed.

Lemma padd_zero_l p q : peq p [] → peq (padd p q) q.
Proof. intros ->. reflexivity. Qed.

Lemma diff1_padd p q : peq (diff1 (padd p q)) (padd (diff1 p) (diff1 q)).
Proof.
  intros n. rewrite coeff_padd, !coeff_diff1, coeff_padd. ring.
Qed.

Lemma diff1_as_tail p : peq (diff1 p) (padd (tail p) (0 :: diff1 (tail p))).
Proof.
  intros n. rewrite coeff_padd, coeff_diff1, coeff_tail.
  destruct n as [|n].
  - rewrite coeff_cons_0. change (inject_Z (Z.of_nat 1)) with 1. ring.
  - rewrite coeff_cons_S, coeff_diff1, coeff_tail.
    rewrite (Nat2Z.inj_succ (S n)), <- Z.add_1_r, inject_Z_plus.
    change (inject_Z 1) with 1. ring.
Qed.

(** The product rule. *)
Lemma diff1_pmul p q :
  peq (diff1 (pmul p q)) (padd (pmul (diff1 p) q) (pmul p (diff1 q))).
Proof.
  intros n. revert p. induction n as [|n IH]; intros p.
  - rewrite coeff_padd, coeff_diff1, coeff_pmul_1, !coeff_pmul_0.
    rewrite !coeff_diff1. ring.
  - assert (coeff (pmul (diff1 p) q) (S n)
            == coeff (pmul (tail p) q) (S n)
               + coeff (pmul (diff1 (tail p)) q) n) as H1.
    { rewrite (diff1_as_tail p), pmul_padd_l, coeff_padd.
      by rewrite coeff_pmul_shift. }
    assert (coeff (pmul p (diff1 q)) (S n)
            == coeff p 0 * (inject_Z (Z.of_nat (S (S n))) * coeff q (S (S n)))
               + coeff (pmul (tail p) (diff1 q)) n) as H2.
    { by rewrite (coeff_pmul_step p (diff1 q) (S n)), coeff_diff1. }
    pose proof (IH (tail p)) as Ht.
    rewrite coeff_padd, coeff_diff1 in Ht.
    rewrite coeff_padd, H1, H2, coeff_diff1.
    rewrite (coeff_pmul_step p q (S (S n))).
    setoid_replace (coeff (pmul (diff1 (tail p)) q) n)
      with (inject_Z (Z.of_nat (S n)) * coeff (pmul (tail p) q) (S n)
            - coeff (pmul (tail p) (diff1 q)) n)
      using relation Qeq by (rewrite Ht; ring).
    rewrite (Nat2Z.inj_succ (S n)), <- Z.add_1_r, inject_Z_plus.
    change (inject_Z 1) with 1. ring.
Qed.

(** The power rule. *)
Lemma diff1_ppow p p' j :
  peq p' (diff1 p) →
  peq (diff1 (ppow p (S j)))
      (pmul (pmul [inject_Z (Z.of_nat (S j))] (ppow p j)) p').
Proof.
  intros Hp.
  assert (∀ c q, peq (pmul (pmul [c] q) p') (pscale c (pmul q p'))) as Hc.
  { intros c q. by rewrite pmul_const_l, pmul_pscale_l. }
  induction j as [|j IH].
  - rewrite Hc. change (ppow p 1) with (pmul p [1]).
    rewrite diff1_pmul, <- Hp. change (diff1 [1]) with ([] : Poly).
    rewrite (padd_zero_r _ _ (pmul_nil_r p)).
    change (ppow p 0) with [1]. rewrite (pmul_comm p' [1]).
    rewrite !pmul_const_l. intros n. rewrite !coeff_pscale.
    change (inject_Z (Z.of_nat 1)) with 1. ring.
  - rewrite Hc. change (ppow p (S (S j))) with (pmul p (ppow p (S j))).
    rewrite diff1_pmul, <- Hp, IH, Hc.
    rewrite (pmul_comm p (pscale _ _)), pmul_pscale_l.
    rewrite (pmul_comm (pmul (ppow p j) p') p), <- pmul_assoc.
    change (pmul p (ppow p j)) with (ppow p (S j)).
    rewrite (pmul_comm p' (ppow p (S j))).
    intros n. rewrite coeff_padd, !coeff_pscale.
    rewrite (Nat2Z.inj_succ (S j)), <- Z.add_1_r, inject_Z_plus.
    change (inject_Z 1) with 1. ring.
Qed.

End PolyAlgebra.

(** Differentiating the right-hand side by [x] differentiates its
    series, when the unknown does not occur. *)
Lemma subs_sp_diff_x (g : yvar → Poly) (e : Expr yvar) :
  unknown_free e = true →
  peq (subs [0%Q; 1%Q] g (sp_diff e sym_x)) (diff1 (subs [0%Q; 1%Q] g e)).
Proof.
  induction e as [c| |a|e1 IH1 e2 IH2|e1 IH1 e2 IH2|e1 IH1 k];
    cbn [unknown_free]; intros He.
  - simpl. symmetry. apply peq_nil_cons.
  - intros [|n]; reflexivity.
  - done.
  - apply andb_prop in He as [H1 H2]. cbn [sp_diff subs].
    by rewrite diff1_padd, IH1, IH2.
  - apply andb_prop in He as [H1 H2]. cbn [sp_diff subs].
    by rewrite diff1_pmul, IH1, IH2.
  - destruct k as [|j].
    + simpl. symmetry. apply peq_nil_cons.
    + cbn [sp_diff subs]. symmetry. apply diff1_ppow. by apply IH1.
Qed.

Lemma subs_sp_diff_y (on_x : Poly) (g : yvar → Poly) (e : Expr yvar) :
  unknown_free e = true → peq (subs on_x g (sp_diff e sym_y)) [].
Proof.
  induction e as [c| |a|e1 IH1 e2 IH2|e1 IH1 e2 IH2|e1 IH1 k];
    cbn [unknown_free]; intros He.
  - simpl. symmetry. apply peq_nil_cons.
  - simpl. symmetry. apply peq_nil_cons.
  - done.
  - apply andb_prop in He as [H1 H2]. cbn [sp_diff subs].
    by rewrite IH1, IH2.
  - apply andb_prop in He as [H1 H2]. cbn [sp_diff subs].
    rewrite IH1, IH2 by done. by rewrite pmul_nil_r.
  - destruct k as [|j].
    + simpl. symmetry. apply peq_nil_cons.
    + cbn [sp_diff subs]. rewrite IH1 by done. apply pmul_nil_r.
Qed.

Lemma sp_diff_unknown_free (e : Expr yvar) v :
  unknown_free e = true → unknown_free (sp_diff e v) = true.
Proof.
  induction e as [c| |a|e1 IH1 e2 IH2|e1 IH1 e2 IH2|e1 IH1 k];
    cbn [unknown_free sp_diff]; intros He; try done.
  - apply andb_prop in He as [H1 H2]. by rewrite IH1, IH2.
  - apply andb_prop in He as [H1 H2]. cbn [unknown_free].
    by rewrite IH1, IH2, H1, H2.
  - destruct k as [|j]; [done|]. cbn [unknown_free]. by rewrite He, IH1.
Qed.

(** Expanded polynomials with the same coefficients are the same. *)
Lemma expand_peq (p q : Poly) : peq p q → expand p = expand q.
Proof.
  revert q. induction p as [|c p IH]; intros q Hpq.
  - symmetry. change (expand []) with ([] : Poly).
    apply expand_nil_iff. intros n. by rewrite <- (Hpq n).
  - destruct q as [|d q].
    + change (expand []) with ([] : Poly).
      apply expand_nil_iff. intros n. by rewrite (Hpq n).
    + unfold expand in *. cbn [fmap list_fmap strip].
      rewrite (IH q) by (intros n; apply (Hpq (S n))).
      rewrite (Qred_complete c d) by apply (Hpq 0%nat). reflexivity.
Qed.

Lemma diff_S (p : Poly) j : diff p (S j) = diff1 (diff p j).
Proof. reflexivity. Qed.

(** The loop of the routine on a right-hand side without the unknown:
    [current_f] is the derivative of [f] of the order of the pass, and
    each value is the derivative of [f] at 0. *)
Lemma manual_fold_quadrature (F : Expr yvar) ic d0 d1 j :
  unknown_free F = true →
  (∀ k, 2 ≤ k → ic_int ic !! k = None) →
  let st := foldl (manual_step ic d0 d1) (F, [d0; d1]) (seq 2 j) in
  let PF := subs [0%Q; 1%Q] (λ _, []) F in
  unknown_free st.1 = true
  ∧ peq (subs [0%Q; 1%Q] (λ _, []) st.1) (diff PF j)
  ∧ length st.2 = 2 + j
  ∧ ∀ i, 1 ≤ i → i ≤ j →
      (default 0 (st.2 !! (i + 1)%nat) == coeff (diff PF i) 0)%Q.
Proof.
  intros HF Hic. cbv zeta. induction j as [|j (IH1 & IH2 & IH3 & IH4)].
  - cbn [seq foldl fst snd]. split; [done|]. split; [reflexivity|].
    split; [reflexivity|]. intros i Hi1 Hi2. lia.
  - rewrite seq_S, foldl_app. cbn [foldl].
    destruct (foldl (manual_step ic d0 d1) (F, [d0; d1]) (seq 2 j))
      as [cur ds]. cbn [fst snd] in *.
    unfold manual_step. rewrite Hic by lia. cbn [fst snd].
    assert (peq (subs [0%Q; 1%Q] (λ _, [])
                   (Add (sp_diff cur sym_x)
                      (Mul (sp_diff cur sym_y) (Num d1))))
                (diff (subs [0%Q; 1%Q] (λ _, []) F) (S j))) as Hnext.
    { cbn [subs]. rewrite (subs_sp_diff_y _ _ cur IH1).
      rewrite padd_nil_r, (subs_sp_diff_x _ cur IH1), IH2.
      reflexivity. }
    split; [|split; [|split]].
    + cbn [unknown_free]. by rewrite !sp_diff_unknown_free.
    + exact Hnext.
    + rewrite length_app, IH3. simpl. lia.
    + intros i Hi1 Hi2. destruct (decide (i = S j)) as [->|Hne].
      * rewrite lookup_app_r by lia.
        replace (S j + 1 - length ds) with 0%nat by lia.
        cbn [lookup list_lookup default]. unfold id, subs_at.
        rewrite Qred_correct, <- (Hnext 0%nat).
        rewrite (subs_unknown_free [0%Q] (λ _, [d0]) (λ _, []))
          by (cbn [unknown_free]; by rewrite !sp_diff_unknown_free).
        apply (subs_peq 0); [| |lia].
        -- intros [|i'] Hi'; [reflexivity | lia].
        -- intros a. apply peq_upto_refl.
      * rewrite lookup_app_l by lia. apply IH4; lia.
Qed.

(** X20. The legacy routine is exact on quadratures.  When the
    right-hand side does not mention the unknown and no derivative
    value is supplied, [compute_derivatives_manually] returns the very
    polynomial the first-order solver returns about 0, to every
    order. *)
Theorem X20_manual_quadrature (F : Expr yvar) (ic_values : IcValues)
    (N : nat) :
  unknown_free F = true →
  (∀ k, 1 ≤ k → ic_int ic_values !! k = None) →
  series_first_order (as_applied F) (default 0%Q (ic_y ic_values)) N 0
  = Returned (compute_derivatives_manually F ic_values N).1.
Proof.
  intros HF Hic. rewrite series_first_order_keyed by apply as_applied_keyed.
  f_equal. symmetry.
  set (y0 := default 0%Q (ic_y ic_values)).
  set (PF := subs [0%Q; 1%Q] (λ _, []) F).
  set (a := or_zero <$> first_order_run (as_applied F) y0 N 0).
  assert (length a = N + 1) as Hla.
  { unfold a. by rewrite length_fmap, first_order_run_length. }
  assert (∀ n, n < N →
            (coeff a (n + 1) == coeff PF n / inject_Z (Z.of_nat (n + 1)))%Q)
    as Ha.
  { intros n Hn. unfold a.
    rewrite (first_order_applied_next F y0 N n Hn).
    by rewrite (subs_unknown_free _ _ (λ _, [])). }
  assert (∀ n, n < N →
            (default 0 (manual_derivatives F ic_values N !! (n + 1)%nat)
             == factorial n * coeff PF n)%Q) as Hd.
  { intros n Hn. destruct n as [|n].
    - rewrite manual_derivatives_1, Hic by lia. fold y0.
      cbn [default]. unfold id, subs_at. rewrite Qred_correct.
      rewrite (subs_unknown_free [0%Q] (λ _, [y0]) (λ _, [])) by done.
      change (factorial 0) with 1%Q. rewrite Qmult_1_l.
      apply (subs_peq 0); [| |lia].
      + intros [|i'] Hi'; [reflexivity | lia].
      + intros u. apply peq_upto_refl.
    - unfold manual_derivatives.
      match goal with
      | |- context [foldl (manual_step ?i ?u ?v) ?st (seq 2 ?j)] =>
          destruct (manual_fold_quadrature F i u v j HF
                      (λ k Hk, Hic k ltac:(lia))) as (_ & _ & _ & H4)
      end.
      cbv zeta. rewrite (H4 (S n)) by lia. fold PF.
      rewrite coeff_diff. change (factorial 0) with 1%Q.
      change (0 + S n)%nat with (S n). field. }
  unfold compute_derivatives_manually, first_order_poly. cbn [fst].
  fold y0. apply expand_peq. intros k.
  rewrite take_ge by (rewrite first_order_run_length; lia). fold a.
  rewrite coeff_compose_t by reflexivity.
  unfold coeff at 1. rewrite list_lookup_fmap.
  destruct (decide (k ≤ N)) as [Hk|Hk].
  - rewrite lookup_seq_lt by lia.
    cbn [fmap option_fmap option_map default Nat.add].
    unfold id. destruct k as [|n].
    + rewrite manual_derivatives_0. fold y0. cbn [default]. unfold id.
      unfold a, coeff. rewrite list_lookup_fmap, first_order_run_0.
      cbn [fmap option_fmap option_map default or_zero]. unfold id.
      rewrite sympify_Qeq. change (factorial 0) with 1%Q. field.
    + replace (S n) with (n + 1)%nat by lia.
      rewrite Hd, Ha by lia.
      replace (n + 1)%nat with (S n) by lia. rewrite factorial_S.
      field. repeat split;
        first [ apply factorial_nonzero
              | replace (S n) with (n + 1)%nat by lia;
                apply inject_succ_nonzero ].
  - rewrite lookup_seq_ge by lia. cbn [fmap option_fmap option_map default].
    by rewrite coeff_beyond by lia.
Qed.

Lemma X20_manual_quadrature_witness :
  series_first_order (as_applied (Add (Num 1) (Mul X (Pow X 2))))
    (default 0%Q (ic_y (mkIcValues (Some (2 # 3)) ∅))) 5 0
  = Returned (compute_derivatives_manually (Add (Num 1) (Mul X (Pow X 2)))
                (mkIcValues (Some (2 # 3)) ∅) 5).1.
Proof.
  apply (X20_manual_quadrature (Add (Num 1) (Mul X (Pow X 2)))
           (mkIcValues (Some (2 # 3)) ∅) 5); [reflexivity|].
  intros k Hk. reflexivity.
Defined.
(** ** The degree of the returned series *)

Lemma coeff_pmul_linear c0 (p : Poly) n :
  (coeff (pmul [c0; 1%Q] p) n
   == c0 * coeff p n + match n with O => 0 | S j => coeff p j end)%Q.
Proof.
  rewrite coeff_pmul_step. cbn [tail]. rewrite coeff_cons_0.
  destruct n as [|j]; [reflexivity|].
  rewrite (pmul_const_l 1 p j), coeff_pscale. ring.
Qed.

Lemma coeff_compose_beyond (p : Poly) c0 k :
  length p ≤ k → (coeff (compose p [c0; 1%Q]) k == 0)%Q.
Proof.
  revert k. induction p as [|a p IH]; intros k Hk; [reflexivity|].
  change (compose (a :: p) [c0; 1%Q])
    with (padd [a] (pmul [c0; 1%Q] (compose p [c0; 1%Q]))).
  simpl in Hk. destruct k as [|j]; [lia|].
  rewrite coeff_padd, coeff_pmul_linear, !IH by lia.
  rewrite coeff_cons_S, coeff_nil. ring.
Qed.

Lemma strip_length (p : Poly) k :
  (∀ j, k ≤ j → (coeff p j == 0)%Q) → length (strip p) ≤ k.
Proof.
  revert k. induction p as [|c p IH]; intros k Hz; [simpl; lia|].
  destruct k as [|k].
  - assert (strip (c :: p) = []) as ->; [|simpl; lia].
    apply strip_nil_iff. intros n. apply Hz. lia.
  - assert (length (strip p) ≤ k) as Hl.
    { apply IH. intros j Hj. apply (Hz (S j)). lia. }
    cbn [strip]. destruct (strip p) as [|d r].
    + destruct (Qeq_bool c 0); simpl; lia.
    + simpl in *. lia.
Qed.

Lemma returned_length (p : Poly) c0 k :
  length p ≤ k → length (expand (compose p [c0; 1%Q])) ≤ k.
Proof.
  intros Hp. unfold expand. apply strip_length. intros j Hj.
  rewrite coeff_Qred. apply coeff_compose_beyond. lia.
Qed.

(** X21. No solver returns a term above the order asked for: whatever
    the equation, the initial data and the expansion point, the
    expanded polynomial returned has degree at most [N], for each of
    the three solvers. *)
Theorem X21_degree_at_most_order (N : nat) (x0 : Q) :
  (∀ F y0,
     (keyed 1 F = true → ∃ r, series_first_order F y0 N x0 = Returned r)
     ∧ ∀ r k, series_first_order F y0 N x0 = Returned r → N < k →
              r !! k = None)
  ∧ (∀ m G ics r k, series_nth_order m G ics N x0 = Returned r → N < k →
       r !! k = None)
  ∧ (∀ F G f0 g0 k, N < k →
       (series_system_2x2 F G f0 g0 N x0).1 !! k = None
       ∧ (series_system_2x2 F G f0 g0 N x0).2 !! k = None).
Proof.
  split; [|split].
  - intros F y0. split; [intros HF; eexists; by apply series_first_order_keyed|].
    intros r k ->%series_first_order_Returned Hk. apply lookup_ge_None_2.
    unfold first_order_poly.
    etrans; [apply (returned_length _ _ (N + 1))|lia].
    rewrite length_fmap, length_take. lia.
  - intros m G ics r k Hr%series_nth_order_Returned Hk.
    apply lookup_ge_None_2. unfold nth_order_poly in Hr.
    destruct (nth_order_run m G ics N x0) as [a|]; [|discriminate].
    cbn in Hr. apply (inj Some) in Hr as <-.
    etrans; [apply (returned_length _ _ (N + 1))|lia].
    rewrite length_take. lia.
  - intros F G f0 g0 k Hk. unfold series_system_2x2.
    destruct (system_coeffs F G f0 g0 N x0) as [af ag]. cbn [fst snd].
    split; apply lookup_ge_None_2;
      (etrans; [apply (returned_length _ _ (N + 1))|lia]);
      rewrite length_fmap, length_take; lia.
Qed.

(** ** Autonomous equations *)

Lemma subs_x_free {A} (on_x on_x' : Poly) (g g' : A → Poly) (e : Expr A) :
  x_free e = true → (∀ a, g a = g' a) →
  subs on_x g e = subs on_x' g' e.
Proof.
  intros He Hg.
  induction e as [c| |a|e1 IH1 e2 IH2|e1 IH1 e2 IH2|e1 IH1 k];
    cbn [x_free] in He; cbn [subs]; try done.
  - apply andb_prop in He as [H1 H2]. by rewrite IH1, IH2.
  - apply andb_prop in He as [H1 H2]. by rewrite IH1, IH2.
  - by rewrite IH1.
Qed.

Lemma subs_series_x_free x0 x0' (Y : Poly) (G : Expr yatom) :
  x_free G = true → subs_series x0 Y G = subs_series x0' Y G.
Proof. intros HG. unfold subs_series. by apply subs_x_free. Qed.

Lemma keyed_1_any m (e : Expr yatom) : keyed 1 e = true → keyed m e = true.
Proof.
  induction e as [c| |[|k]|e1 IH1 e2 IH2|e1 IH1 e2 IH2|e1 IH1 n];
    cbn [keyed]; try done.
  - intros H%bool_decide_eq_true. apply bool_decide_eq_true.
    left. lia.
  - intros [H1 H2]%andb_prop. by rewrite IH1, IH2.
  - intros [H1 H2]%andb_prop. by rewrite IH1, IH2.
Qed.

(** X22. Autonomous equations.  When the right-hand sides do not
    mention [x] (the scalar one mentioning the unknown as [y] or
    [y(x)] only), the coefficients in powers of [x - x0] that the three
    solvers compute do not depend on the expansion point, and the
    series returned about [x0] is the series returned about 0 with
    [x - x0] for [x]. *)
Theorem X22_autonomous (F : Expr yatom) (Fs Gs : Expr fgatom) (x0 : Q)
    (N : nat) :
  x_free F = true → keyed 1 F = true →
  x_free Fs = true → x_free Gs = true →
  (∀ y0, ∃ a r r0,
     first_order_coeffs F y0 N x0 = Returned a
     ∧ first_order_coeffs F y0 N 0 = Returned a
     ∧ series_first_order F y0 N x0 = Returned r
     ∧ series_first_order F y0 N 0 = Returned r0
     ∧ ∀ v, (peval r v == peval r0 (v - x0))%Q)
  ∧ (∀ m ics, nth_order_coeffs m F ics N x0 = nth_order_coeffs m F ics N 0)
  ∧ (∀ f0 g0, system_coeffs Fs Gs f0 g0 N x0 = system_coeffs Fs Gs f0 g0 N 0).
Proof.
  intros HF HK HFs HGs. split; [|split].
  - intros y0.
    assert (first_order_run F y0 N x0 = first_order_run F y0 N 0) as Hco.
    { apply rec_run_ext. intros n pre. unfold first_order_next.
      by rewrite (subs_series_x_free x0 0 _ F HF). }
    eexists _, _, _. rewrite !first_order_coeffs_keyed by done.
    rewrite !series_first_order_keyed by done.
    split; [done|]. split; [by rewrite Hco|]. split; [done|].
    split; [done|]. intros v.
    rewrite !first_order_returned, Hco. apply peval_Qeq. ring.
  - intros m ics.
    rewrite !nth_order_coeffs_keyed by by apply keyed_1_any.
    assert (nth_order_run m F ics N x0 = nth_order_run m F ics N 0) as ->;
      [|done].
    unfold nth_order_run. case_decide; [|done]. f_equal.
    apply rec_run_ext. intros n pre. unfold nth_order_next.
    by rewrite (subs_series_x_free x0 0 _ F HF).
  - intros f0 g0. unfold system_coeffs. cbn zeta. apply foldl_ext_in.
    intros [af ag] n _. unfold system_step, system_subs.
    rewrite (subs_x_free [x0; 1%Q] [0%Q; 1%Q] _ _ Fs HFs (λ _, eq_refl)).
    by rewrite (subs_x_free [x0; 1%Q] [0%Q; 1%Q] _ _ Gs HGs (λ _, eq_refl)).
Qed.

Lemma X22_autonomous_witness :
  (∀ y0, ∃ a r r0,
     first_order_coeffs (Add (Num 1) (Pow yx 2)) y0 4 (3 # 2) = Returned a
     ∧ first_order_coeffs (Add (Num 1) (Pow yx 2)) y0 4 0 = Returned a
     ∧ series_first_order (Add (Num 1) (Pow yx 2)) y0 4 (3 # 2) = Returned r
     ∧ series_first_order (Add (Num 1) (Pow yx 2)) y0 4 0 = Returned r0
     ∧ ∀ v, (peval r v == peval r0 (v - (3 # 2)))%Q)
  ∧ (∀ m ics, nth_order_coeffs m (Add (Num 1) (Pow yx 2)) ics 4 (3 # 2)
              = nth_order_coeffs m (Add (Num 1) (Pow yx 2)) ics 4 0)
  ∧ (∀ f0 g0, system_coeffs gx (neg fx) f0 g0 4 (3 # 2)
              = system_coeffs gx (neg fx) f0 g0 4 0).
Proof.
  apply (X22_autonomous (Add (Num 1) (Pow yx 2)) gx (neg fx) (3 # 2) 4);
    reflexivity.
Defined.

(** ** The exponential series *)

Lemma qpow_S c n : (qpow c (S n) == c * qpow c n)%Q.
Proof. reflexivity. Qed.

(** X23. The exponential series.  For [y' = c * y] the first-order
    solver computes [a_n = y0 * c^n / n!] about any expansion point,
    and about 0 these are the coefficients of the series it returns. *)
Theorem X23_exponential (c y0 x0 : Q) (N n : nat) :
  n ≤ N →
  (∃ a, first_order_coeffs (Mul (Num c) yx) y0 N x0 = Returned a
        ∧ (coeff (or_zero <$> a) n == y0 * qpow c n / factorial n)%Q)
  ∧ (∃ r, series_first_order (Mul (Num c) yx) y0 N 0 = Returned r
          ∧ (coeff r n == y0 * qpow c n / factorial n)%Q).
Proof.
  intros Hn.
  assert (∀ x1 k, k ≤ N →
            (coeff (or_zero <$> first_order_run (Mul (Num c) yx) y0 N x1) k
             == y0 * qpow c k / factorial k)%Q) as Hall.
  { intros x1 k. induction k as [|k IH]; intros Hk.
    - unfold coeff. rewrite list_lookup_fmap, first_order_run_0.
      cbn [fmap option_fmap option_map default or_zero]. unfold id.
      rewrite sympify_Qeq. change (factorial 0) with 1%Q.
      change (qpow c 0) with 1%Q. field.
    - replace (S k) with (k + 1)%nat at 1 by lia.
      rewrite first_order_coeff_next by lia.
      unfold subs_series. cbn [subs yx y_derivs].
      change (diff ?p 0) with p.
      rewrite (pmul_const_l c _ k), coeff_pscale, coeff_take by lia.
      rewrite IH by lia. rewrite factorial_S, qpow_S.
      replace (k + 1)%nat with (S k) by lia.
      field. split; [apply factorial_nonzero|].
      replace (S k) with (k + 1)%nat by lia. apply inject_succ_nonzero. }
  split.
  - eexists. split; [by apply first_order_coeffs_keyed|]. by apply Hall.
  - eexists. split; [by apply series_first_order_keyed|].
    rewrite first_order_returned_coeff. by apply Hall.
Qed.

Lemma X23_exponential_witness :
  (∃ a, first_order_coeffs (Mul (Num 2) yx) 3 5 (1 # 2) = Returned a
        ∧ (coeff (or_zero <$> a) 4 == 3 * qpow 2 4 / factorial 4)%Q)
  ∧ (∃ r, series_first_order (Mul (Num 2) yx) 3 5 0 = Returned r
          ∧ (coeff r 4 == 3 * qpow 2 4 / factorial 4)%Q).
Proof. apply (X23_exponential 2 3 (1 # 2) 5 4). lia. Defined.
(** ** Supplied derivative values in the legacy routine *)

Lemma manual_fold_unsupplied (F : Expr yvar) ic d0 d1 j :
  unknown_free F = true →
  let st := foldl (manual_step ic d0 d1) (F, [d0; d1]) (seq 2 j) in
  let PF := subs [0%Q; 1%Q] (λ _, []) F in
  let cnt i := length (filter (λ k, ic_int ic !! k = None) (seq 2 i)) in
  unknown_free st.1 = true
  ∧ peq (subs [0%Q; 1%Q] (λ _, []) st.1) (diff PF (cnt j))
  ∧ length st.2 = 2 + j
  ∧ ∀ i, i < j →
      match ic_int ic !! (2 + i)%nat with
      | Some v => st.2 !! (2 + i)%nat = Some v
      | None => ∃ d, st.2 !! (2 + i)%nat = Some d
                     ∧ (d == coeff (diff PF (cnt (S i))) 0)%Q
      end.
Proof.
  intros HF. cbv zeta. induction j as [|j (IH1 & IH2 & IH3 & IH4)].
  - cbn [seq foldl fst snd]. split; [done|]. split; [reflexivity|].
    split; [reflexivity|]. intros i Hi. lia.
  - rewrite seq_S, foldl_app, filter_app, length_app. cbn [foldl].
    set (c := length (filter (λ k, ic_int ic !! k = None) (seq 2 j))) in *.
    destruct (foldl (manual_step ic d0 d1) (F, [d0; d1]) (seq 2 j))
      as [cur ds]. cbn [fst snd] in *.
    unfold manual_step.
    destruct (ic_int ic !! (2 + j)%nat) as [v|] eqn:Hv; cbn [fst snd].
    + rewrite filter_cons_False, filter_nil by (rewrite Hv; done).
      cbn [length]. rewrite Nat.add_0_r.
      split; [done|]. split; [done|].
      split; [rewrite length_app, IH3; simpl; lia|].
      intros i Hi. destruct (decide (i = j)) as [->|Hne].
      * rewrite Hv, lookup_app_r by lia.
        by replace (2 + j - length ds) with 0%nat by lia.
      * specialize (IH4 i ltac:(lia)).
        rewrite lookup_app_l by lia. exact IH4.
    + rewrite filter_cons_True, filter_nil by done.
      cbn [length]. replace (c + 1)%nat with (S c) by lia.
      assert (peq (subs [0%Q; 1%Q] (λ _, [])
                     (Add (sp_diff cur sym_x)
                        (Mul (sp_diff cur sym_y) (Num d1))))
                  (diff (subs [0%Q; 1%Q] (λ _, []) F) (S c))) as Hnext.
      { cbn [subs]. rewrite (subs_sp_diff_y _ _ cur IH1).
        rewrite padd_nil_r, (subs_sp_diff_x _ cur IH1), IH2.
        reflexivity. }
      split; [cbn [unknown_free]; by rewrite !sp_diff_unknown_free|].
      split; [exact Hnext|].
      split; [rewrite length_app, IH3; simpl; lia|].
      intros i Hi. destruct (decide (i = j)) as [->|Hne].
      * rewrite Hv, lookup_app_r by lia.
        replace (2 + j - length ds) with 0%nat by lia.
        eexists. split; [reflexivity|].
        rewrite seq_S, filter_app, length_app.
        rewrite filter_cons_True, filter_nil by done.
        cbn [length]. fold c. replace (c + 1)%nat with (S c) by lia.
        unfold subs_at. rewrite Qred_correct, <- (Hnext 0%nat).
        rewrite (subs_unknown_free [0%Q] (λ _, [d0]) (λ _, []))
          by (cbn [unknown_free]; by rewrite !sp_diff_unknown_free).
        apply (subs_peq 0); [| |lia].
        -- intros [|i'] Hi'; [reflexivity | lia].
        -- intros a. apply peq_upto_refl.
      * specialize (IH4 i ltac:(lia)).
        rewrite lookup_app_l by lia. exact IH4.
Qed.

Lemma filter_all {A} (P : A → Prop) `{!∀ x, Decision (P x)} (l : list A) :
  Forall P l → filter P l = l.
Proof.
  induction 1 as [|x l Hx _ IH]; [done|].
  rewrite filter_cons_True by done. by f_equal.
Qed.

(** X24. Supplied derivative values in the legacy routine.  On a
    right-hand side [f(x)] without the unknown, a value supplied under
    an integer key [k >= 2] is stored as it is, and every such key
    makes the routine skip one differentiation: a computed
    [derivatives[k]] is the derivative of [f] at 0 of the order given
    by the number of keys in [2 .. k] that were not supplied, which is
    the right order [k - 1] only when no key below [k] was. *)
Theorem X24_manual_supplied_values (F : Expr yvar) (ic_values : IcValues)
    (N k : nat) :
  unknown_free F = true → 2 ≤ k → k ≤ N →
  let derivatives := (compute_derivatives_manually F ic_values N).2 in
  let f_t := subs [0%Q; 1%Q] (λ _, []) F in
  match ic_int ic_values !! k with
  | Some v => derivatives !! k = Some v
  | None =>
      ∃ d, derivatives !! k = Some d
           ∧ (d == coeff (diff f_t (unsupplied ic_values k)) 0)%Q
  end
  ∧ ((∀ j, 2 ≤ j → j < k → ic_int ic_values !! j = None) →
     ic_int ic_values !! k = None → unsupplied ic_values k = k - 1).
Proof.
  intros HF Hk2 HkN. cbv zeta. split.
  - unfold compute_derivatives_manually. cbn [snd].
    unfold manual_derivatives. cbv zeta.
    match goal with
    | |- context [foldl (manual_step ?i ?u ?v) ?st (seq 2 ?j)] =>
        destruct (manual_fold_unsupplied F i u v j HF) as (_ & _ & _ & H4)
    end.
    specialize (H4 (k - 2) ltac:(lia)).
    replace (2 + (k - 2))%nat with k in H4 by lia.
    unfold unsupplied. replace (k - 1) with (S (k - 2)) by lia.
    exact H4.
  - intros Hall Hnone. unfold unsupplied.
    rewrite filter_all; [by rewrite length_seq|].
    apply Forall_forall. intros j [Hj1 Hj2]%elem_of_seq.
    destruct (decide (j = k)) as [->|Hne]; [done|]. apply Hall; lia.
Qed.

Lemma X24_manual_supplied_values_witness :
  let ic_values := mkIcValues (Some 1%Q) {[ 2%nat := 7%Q ]} in
  let derivatives :=
    (compute_derivatives_manually (Pow X 2) ic_values 4).2 in
  let f_t := subs [0%Q; 1%Q] (λ _, []) (Pow X 2 : Expr yvar) in
  match ic_int ic_values !! 3%nat with
  | Some v => derivatives !! 3%nat = Some v
  | None =>
      ∃ d, derivatives !! 3%nat = Some d
           ∧ (d == coeff (diff f_t (unsupplied ic_values 3)) 0)%Q
  end
  ∧ ((∀ j, 2 ≤ j → j < 3 → ic_int ic_values !! j = None) →
     ic_int ic_values !! 3%nat = None → unsupplied ic_values 3 = 3 - 1).
Proof.
  apply (X24_manual_supplied_values (Pow X 2)
           (mkIcValues (Some 1%Q) {[ 2%nat := 7%Q ]}) 4 3);
    [reflexivity | lia | lia].
Defined.
